(** * Verification of the Notepad2 regex engine (RESearch.cxx) and SQL lexer (LexSQL.cxx)

    Shallow embedding of:
    - [RESearch::Compile], [RESearch::DoCompile], [RESearch::Execute],
      [RESearch::PMatch] (src/unnamed/part_002);
    - [ColouriseSqlDoc], [SQLStates], [FoldSqlDoc] (src/unnamed/part_000).

    Characters and bytes are modelled as [Z] in [0, 256); fixed C arrays
    ([nfa], [bittab], [tagstk], [bopat], [eopat]) as functions from the
    index to the contents, read with [rd] and written with [wr]; the
    pattern and the text as the list of their bytes. *)

From Stdlib Require Import ZArith List Bool String Lia.
Import ListNotations.
Open Scope Z_scope.

(** ** Byte buffers *)

Module Buf.

(** A fixed C array ([char nfa[MAXNFA]], [bopat[MAXTAG]], ...) as its
    contents at every index. *)
Definition buf := Z -> Z.

Definition zeros : buf := fun _ => 0.

(** [m[k]] *)
Definition rd (m : buf) (k : Z) : Z := m k.

(** [m[k] = v;] *)
Definition wr (m : buf) (k v : Z) : buf := fun j => if j =? k then v else m j.

(** The bytes at a [const char *] whose first bytes are [mem], followed by
    the NUL terminator. *)
Definition mem_at (mem : list Z) (k : Z) : Z :=
  if k <? 0 then 0 else nth (Z.to_nat k) mem 0.

End Buf.

Import Buf.

(** ** The regular expression engine *)

Module RE.

(** Opcodes of the NFA program. *)
Definition END := 0.
Definition CHR := 1.
Definition ANY := 2.
Definition CCL := 3.
Definition BOL := 4.
Definition EOL := 5.
Definition BOT := 6.
Definition EOT := 7.
Definition BOW := 8.
Definition EOW := 9.
Definition REF := 10.
Definition CLO := 11.
Definition CLQ := 12.
Definition LCLO := 13.
Definition EXP_MATCH_WORD_START := 14.
Definition EXP_MATCH_WORD_END := 15.
Definition EXP_MATCH_TO_WORD_END := 16.
Definition EXP_MATCH_TO_WORD_END_OPT := 17.

Definition OKP := 1.
Definition NOP := 0.

(** Constants of RESearch.h (not under src/): [MAXTAG], [NOTFOUND],
    [MAXCHR], [BITBLK] as the comments and the code of RESearch.cxx use
    them; [MAXNFA] is the program-buffer size. *)
Definition MAXTAG := 10.
Definition NOTFOUND := -1.
Definition MAXCHR := 256.
Definition BITBLK := 32.
Definition MAXNFA := 4096.
Definition BITIND := 7.

(** [FindOption::Posix] (SCFIND_POSIX). *)
Definition FindOption_Posix := 4194304.
Definition FlagSet (flags opt : Z) : bool := negb (Z.land flags opt =? 0).

(** The engine object: the members of [class RESearch]. *)
Record engine := mkEngine {
  sta : Z;
  failure : bool;
  bol : Z;
  nfa : buf;
  bittab : buf;
  tagstk : buf;
  previousPattern : option Z;   (* pointer value, [None] = nullptr *)
  previousLength : Z;
  previousFlags : Z;
  cachedPattern : list Z;
  bopat : buf;
  eopat : buf;
  pat : Z -> list Z
}.

Definition set_compiled (e : engine) (sta' : Z) (nfa' bittab' tagstk' : buf) : engine :=
  mkEngine sta' (failure e) (bol e) nfa' bittab' tagstk' (previousPattern e)
    (previousLength e) (previousFlags e) (cachedPattern e) (bopat e) (eopat e) (pat e).

Definition set_cache (e : engine) (pp : option Z) (pl pf : Z) (cp : list Z) : engine :=
  mkEngine (sta e) (failure e) (bol e) (nfa e) (bittab e) (tagstk e) pp pl pf cp
    (bopat e) (eopat e) (pat e).

Definition set_match (e : engine) (fl : bool) (bo eo : buf) : engine :=
  mkEngine (sta e) fl (bol e) (nfa e) (bittab e) (tagstk e) (previousPattern e)
    (previousLength e) (previousFlags e) (cachedPattern e) bo eo (pat e).

Definition set_bol (e : engine) (b : Z) (fl : bool) : engine :=
  mkEngine (sta e) fl b (nfa e) (bittab e) (tagstk e) (previousPattern e)
    (previousLength e) (previousFlags e) (cachedPattern e) (bopat e) (eopat e) (pat e).

Definition set_pat (e : engine) (p : Z -> list Z) : engine :=
  mkEngine (sta e) (failure e) (bol e) (nfa e) (bittab e) (tagstk e) (previousPattern e)
    (previousLength e) (previousFlags e) (cachedPattern e) (bopat e) (eopat e) p.

(** [RESearch::Clear]. *)
Fixpoint clear_from (k : nat) (i : Z) (bo eo : buf) (pt : Z -> list Z)
  : buf * buf * (Z -> list Z) :=
  match k with
  | O => (bo, eo, pt)
  | S k' =>
      clear_from k' (i + 1) (wr bo i NOTFOUND) (wr eo i NOTFOUND)
        (fun j => if j =? i then [] else pt j)
  end.

Definition Clear (e : engine) : engine :=
  let '(bo, eo, pt) := clear_from (Z.to_nat MAXTAG) 0 (bopat e) (eopat e) (pat e) in
  set_pat (set_match e (failure e) bo eo) pt.

(** [RESearch::RESearch]: every buffer zero-filled, [sta = NOP], then
    [Clear()]. *)
Definition RESearch_init : engine :=
  Clear (mkEngine NOP false 0 zeros zeros zeros None 0 0 [] zeros zeros (fun _ => [])).

(** [RESearch::ClearCache]. *)
Definition ClearCache (e : engine) : engine :=
  set_cache (set_compiled e NOP (nfa e) (bittab e) (tagstk e)) None 0 0 (cachedPattern e).

Section WithCharClass.

(** The character-class table handed to the engine: [iswordc]. *)
Variable iswordc : Z -> bool.

(** [RESearch::ChSet]. *)
Definition ChSet (bt : buf) (c : Z) : buf :=
  wr bt (Z.shiftr c 3) (Z.lor (rd bt (Z.shiftr c 3)) (Z.shiftl 1 (Z.land c BITIND))).

(** [RESearch::ChSetWithCase]. *)
Definition ChSetWithCase (bt : buf) (c : Z) (caseSensitive : bool) : buf :=
  let bt := ChSet bt c in
  if caseSensitive then bt
  else if (97 <=? c) && (c <=? 122) then ChSet bt (c - 97 + 65)
  else if (65 <=? c) && (c <=? 90) then ChSet bt (c - 65 + 97)
  else bt.

Definition escapeValue (ch : Z) : Z :=
  if ch =? 97 then 7          (* 'a' *)
  else if ch =? 98 then 8     (* 'b' *)
  else if ch =? 102 then 12   (* 'f' *)
  else if ch =? 110 then 10   (* 'n' *)
  else if ch =? 114 then 13   (* 'r' *)
  else if ch =? 116 then 9    (* 't' *)
  else if ch =? 118 then 11   (* 'v' *)
  else if ch =? 101 then 27   (* 'e' *)
  else 0.

Definition GetHexDigit (ch : Z) : Z :=
  if (48 <=? ch) && (ch <? 58) then ch - 48
  else let diff := Z.lor ch 32 - 97 in
       if (0 <=? diff) && (diff <? 6) then diff + 10 else -1.

Definition GetHexValue (ch1 ch2 : Z) : Z :=
  Z.lor (Z.shiftl (GetHexDigit ch1) 4) (GetHexDigit ch2).

(** [for (int c = 0; c < MAXCHR; c++) if (f c) ChSet(c);] *)
Definition ChSetAll (bt : buf) (f : Z -> bool) : buf :=
  fold_left (fun b c => if f c then ChSet b c else b)
    (map Z.of_nat (seq 0 (Z.to_nat MAXCHR))) bt.

(** [RESearch::GetBackslashExpression]: [pattern] is the pattern memory,
    [p] the index of the char after the backslash; returns the result
    (-1 for a class), [incr] and the updated [bittab]. *)
Definition GetBackslashExpression (pattern : list Z) (p : Z) (bt : buf)
  : Z * Z * buf :=
  let bsc := mem_at pattern p in
  if bsc =? 0 then (92, 0, bt)
  else if existsb (Z.eqb bsc) [97; 98; 110; 102; 114; 116; 118; 101] then
    (escapeValue bsc, 0, bt)
  else if bsc =? 120 then             (* 'x' *)
    let hexValue := GetHexValue (mem_at pattern (p + 1)) (mem_at pattern (p + 2)) in
    if 0 <=? hexValue then (hexValue, 2, bt) else (120, 0, bt)
  else if bsc =? 100 then             (* 'd' *)
    (-1, 0, ChSetAll bt (fun c => (48 <=? c) && (c <=? 57)))
  else if bsc =? 68 then              (* 'D' *)
    (-1, 0, ChSetAll bt (fun c => (c <? 48) || (57 <? c)))
  else if bsc =? 115 then             (* 's' *)
    (-1, 0, fold_left ChSet [32; 9; 10; 13; 12; 11] bt)
  else if bsc =? 83 then              (* 'S' *)
    (-1, 0, ChSetAll bt (fun c => negb (c =? 32) && negb ((9 <=? c) && (c <=? 13))))
  else if bsc =? 119 then             (* 'w' *)
    (-1, 0, ChSetAll bt iswordc)
  else if bsc =? 87 then              (* 'W' *)
    (-1, 0, ChSetAll bt (fun c => negb (iswordc c)))
  else (bsc, 0, bt).

(** *** [RESearch::DoCompile] *)

(** Local variables of [DoCompile]: [i], [p] (an index into the pattern
    memory, [p == pattern] iff [p = 0]), [mp], [sp] (indices into [nfa]),
    [tagi], [tagc], and the members it writes: [nfa], [bittab], [tagstk]. *)
Record cst := mkCst {
  c_i : Z; c_p : Z; c_mp : Z; c_sp : Z; c_tagi : Z; c_tagc : Z;
  c_nfa : buf; c_bt : buf; c_tagstk : buf
}.

Definition with_ip (st : cst) (i p : Z) : cst :=
  mkCst i p (c_mp st) (c_sp st) (c_tagi st) (c_tagc st) (c_nfa st) (c_bt st) (c_tagstk st).

Definition with_bt (st : cst) (bt : buf) : cst :=
  mkCst (c_i st) (c_p st) (c_mp st) (c_sp st) (c_tagi st) (c_tagc st) (c_nfa st) bt (c_tagstk st).

Definition with_sp (st : cst) (sp : Z) : cst :=
  mkCst (c_i st) (c_p st) (c_mp st) sp (c_tagi st) (c_tagc st) (c_nfa st) (c_bt st) (c_tagstk st).

Definition with_nfa_mp (st : cst) (nfa' : buf) (mp : Z) : cst :=
  mkCst (c_i st) (c_p st) mp (c_sp st) (c_tagi st) (c_tagc st) nfa' (c_bt st) (c_tagstk st).

Definition with_tags (st : cst) (tagi tagc : Z) (tagstk : buf) : cst :=
  mkCst (c_i st) (c_p st) (c_mp st) (c_sp st) tagi tagc (c_nfa st) (c_bt st) tagstk.

(** [*mp++ = v;] *)
Definition emit (st : cst) (v : Z) : cst :=
  with_nfa_mp st (wr (c_nfa st) (c_mp st) v) (c_mp st + 1).

(** [for (int n = 0; n < BITBLK; bittab[n++] = 0) *mp++ = mask ^ bittab[n];] *)
Fixpoint emit_bits (k : nat) (n mask : Z) (st : cst) : cst :=
  match k with
  | O => st
  | S k' =>
      let st := emit st (Z.lxor mask (rd (c_bt st) n)) in
      emit_bits k' (n + 1) mask (with_bt st (wr (c_bt st) n 0))
  end.

Definition emit_bitset (mask : Z) (st : cst) : cst :=
  emit_bits (Z.to_nat BITBLK) 0 mask st.

Section Compiler.

Variable pattern : list Z.      (* memory at [pattern], NUL beyond *)
Variable caseSensitive : bool.
Variable posix : bool.

Definition at_p (p : Z) : Z := mem_at pattern p.

(** [while (c1 <= c2) ChSetWithCase(c1++, caseSensitive);] *)
Fixpoint range_fill (k : nat) (c1 c2 : Z) (bt : buf) : buf :=
  match k with
  | O => bt
  | S k' =>
      if c1 <=? c2 then range_fill k' (c1 + 1) c2 (ChSetWithCase bt c1 caseSensitive)
      else bt
  end.

(** The body of the set loop [while ( *p && *p != ']') { ... i++; p++; }]:
    [inl (msg, bittab)] for [return badpat(msg)], otherwise the new
    [(i, p, prevChar, bittab)] before the trailing [i++; p++]. *)
Definition ccl_item (i p prevChar : Z) (bt : buf)
  : (string * buf) + (Z * Z * Z * buf) :=
  let ch := at_p p in
  if ch =? 45 then                                   (* '-' *)
    if prevChar <? 0 then inr (i, p, 45, ChSet bt 45)
    else if negb (at_p (p + 1) =? 0) then
      if negb (at_p (p + 1) =? 93) then
        let c1 := prevChar + 1 in
        let i := i + 1 in
        let p := p + 1 in
        let c2 := at_p p in
        let r :=
          if c2 =? 92 then
            if at_p (p + 1) =? 0 then inl ("Missing ]"%string, bt)
            else
              let i := i + 1 in
              let p := p + 1 in
              let '(c2, incr, bt) := GetBackslashExpression pattern p bt in
              let i := i + incr in
              let p := p + incr in
              if 0 <=? c2 then inr (i, p, c2, ChSet bt c2, c2)
              else inr (i, p, c2, bt, -1)
          else inr (i, p, c2, bt, prevChar) in
        match r with
        | inl err => inl err
        | inr (i, p, c2, bt, prevChar) =>
            if prevChar <? 0 then inr (i, p, 45, ChSet bt 45)
            else inr (i, p, prevChar, range_fill (Z.to_nat (c2 - c1 + 1)) c1 c2 bt)
        end
      else inr (i, p, 45, ChSet bt 45)
    else inl ("Missing ]"%string, bt)
  else if (ch =? 92) && negb (at_p (p + 1) =? 0) then   (* '\' *)
    let i := i + 1 in
    let p := p + 1 in
    let '(c, incr, bt) := GetBackslashExpression pattern p bt in
    let i := i + incr in
    let p := p + incr in
    if 0 <=? c then inr (i, p, c, ChSet bt c) else inr (i, p, -1, bt)
  else inr (i, p, ch, ChSetWithCase bt ch caseSensitive).

Fixpoint ccl_loop (fuel : nat) (i p prevChar : Z) (bt : buf)
  : (string * buf) + (Z * Z * buf) :=
  match fuel with
  | O => inr (i, p, bt)
  | S f =>
      let ch := at_p p in
      if (ch =? 0) || (ch =? 93) then inr (i, p, bt)
      else match ccl_item i p prevChar bt with
           | inl err => inl err
           | inr (i, p, prevChar, bt) => ccl_loop f (i + 1) (p + 1) prevChar bt
           end
  end.

(** [case '[':] of [DoCompile]. *)
Definition compile_ccl (st : cst) : (string * cst) + cst :=
  let st := emit st CCL in
  let i := c_i st + 1 in
  let p := c_p st + 1 in
  let '(mask, i, p) := if at_p p =? 94 then (255, i + 1, p + 1) else (0, i, p) in
  let '(i, p, prevChar, bt) :=
    if at_p p =? 45 then (i + 1, p + 1, 45, ChSet (c_bt st) 45) else (i, p, 0, c_bt st) in
  let '(i, p, prevChar, bt) :=
    if at_p p =? 93 then (i + 1, p + 1, 93, ChSet bt 93) else (i, p, prevChar, bt) in
  match ccl_loop (S (List.length pattern)) i p prevChar bt with
  | inl (msg, bt) => inl (msg, with_bt st bt)
  | inr (i, p, bt) =>
      let st := with_bt (with_ip st i p) bt in
      if at_p p =? 0 then inl ("Missing ]"%string, st)
      else inr (emit_bitset mask st)
  end.

(** [for (sp = mp; lp < sp; lp++) *mp++ = *lp;] *)
Fixpoint copy_fwd (k : nat) (src dst : Z) (m : buf) : buf :=
  match k with
  | O => m
  | S k' => copy_fwd k' (src + 1) (dst + 1) (wr m dst (rd m src))
  end.

(** [while (--mp > lp) *mp = mp[-1];] starting from [mp = hi + 1]. *)
Fixpoint shift_down (k : nat) (m : Z) (b : buf) : buf :=
  match k with
  | O => b
  | S k' => shift_down k' (m - 1) (wr b m (rd b (m - 1)))
  end.

(** [case '*': case '+': case '?':]; returns the new state and [lp]. *)
Definition compile_closure (st : cst) : (string * cst) + (cst * Z) :=
  let p := c_p st in
  let ch := at_p p in
  if p =? 0 then inl ("Empty closure"%string, st)
  else
    let lp := c_sp st in
    let op := rd (c_nfa st) lp in
    if (op =? CLO) || (op =? LCLO) then inr (st, lp)
    else if existsb (Z.eqb op) [BOL; BOT; EOT; BOW; EOW; REF] then
      inl ("Illegal closure"%string, st)
    else if (ch =? 63) && (op =? EXP_MATCH_TO_WORD_END) then
      inr (with_nfa_mp st (wr (c_nfa st) lp EXP_MATCH_TO_WORD_END_OPT) (c_mp st), lp)
    else
      let mp := c_mp st in
      let '(b, mp, lp) :=
        if ch =? 43 then (copy_fwd (Z.to_nat (mp - lp)) lp mp (c_nfa st), mp + (mp - lp), mp)
        else (c_nfa st, mp, lp) in
      let b := wr (wr b mp END) (mp + 1) END in
      let b := shift_down (Z.to_nat (mp + 1 - lp)) (mp + 1) b in
      let opc := if ch =? 63 then CLQ
                 else if at_p (p + 1) =? 63 then LCLO else CLO in
      inr (with_nfa_mp st (wr b lp opc) (mp + 2), lp).

(** [tagstk[++tagi] = tagc; *mp++ = BOT; *mp++ = tagc++;] *)
Definition open_tag (st : cst) (msg : string) : (string * cst) + cst :=
  if c_tagc st <? MAXTAG then
    let tagi := c_tagi st + 1 in
    let st := with_tags st tagi (c_tagc st + 1) (wr (c_tagstk st) tagi (c_tagc st)) in
    inr (emit (emit st BOT) (c_tagc st - 1))
  else inl (msg, st).

Definition close_tag (st : cst) (msgnull msgunm : string) : (string * cst) + cst :=
  if rd (c_nfa st) (c_sp st) =? BOT then inl (msgnull, st)
  else if 0 <? c_tagi st then
    let n := rd (c_tagstk st) (c_tagi st) in
    let st := with_tags st (c_tagi st - 1) (c_tagc st) (c_tagstk st) in
    inr (emit (emit st EOT) n)
  else inl (msgunm, st).

(** [case '\\':] *)
Definition compile_backslash (st : cst) : (string * cst) + cst :=
  let st := with_ip st (c_i st + 1) (c_p st + 1) in
  let c := at_p (c_p st) in
  if c =? 60 then inr (emit st BOW)                                  (* '<' *)
  else if c =? 62 then                                               (* '>' *)
    if rd (c_nfa st) (c_sp st) =? BOW then inl ("Null pattern inside \<\>"%string, st)
    else inr (emit st EOW)
  else if c =? 104 then inr (emit st EXP_MATCH_WORD_START)           (* 'h' *)
  else if c =? 72 then                                               (* 'H' *)
    if rd (c_nfa st) (c_sp st) =? EXP_MATCH_WORD_START then
      inl ("Null pattern inside \h\H"%string, st)
    else inr (emit st EXP_MATCH_WORD_END)
  else if c =? 105 then inr (emit st EXP_MATCH_TO_WORD_END)          (* 'i' *)
  else if (49 <=? c) && (c <=? 57) then                              (* '1'..'9' *)
    let n := c - 48 in
    if (0 <? c_tagi st) && (rd (c_tagstk st) (c_tagi st) =? n) then
      inl ("Cyclical reference"%string, st)
    else if n <? c_tagc st then inr (emit (emit st REF) n)
    else inl ("Undetermined reference"%string, st)
  else if negb posix && (c =? 40) then open_tag st "Too many \(\) pairs"
  else if negb posix && (c =? 41) then
    close_tag st "Null pattern inside \(\)" "Unmatched \)"
  else
    let '(c, incr, bt) := GetBackslashExpression pattern (c_p st) (c_bt st) in
    let st := with_bt (with_ip st (c_i st + incr) (c_p st + incr)) bt in
    if 0 <=? c then inr (emit (emit st CHR) c)
    else inr (emit_bitset 0 (emit st CCL)).

(** [default:] an ordinary char. *)
Definition compile_ordinary (st : cst) : (string * cst) + cst :=
  let c := at_p (c_p st) in
  if posix && (c =? 40) then open_tag st "Too many () pairs"
  else if posix && (c =? 41) then close_tag st "Null pattern inside ()" "Unmatched )"
  else
    let c := if c =? 0 then 92 else c in
    if caseSensitive || negb (iswordc c) then inr (emit (emit st CHR) c)
    else
      let st := emit st CCL in
      inr (emit_bitset 0 (with_bt st (ChSetWithCase (c_bt st) c false))).

(** One iteration of the [for] loop, up to [sp = lp;]. *)
Definition compile_one (st : cst) : (string * cst) + cst :=
  let lp := c_mp st in
  let ch := at_p (c_p st) in
  let r :=
    if ch =? 46 then inr (emit st ANY, lp)                          (* '.' *)
    else if ch =? 94 then                                           (* '^' *)
      if c_p st =? 0 then inr (emit st BOL, lp) else inr (emit (emit st CHR) ch, lp)
    else if ch =? 36 then                                           (* '$' *)
      if at_p (c_p st + 1) =? 0 then inr (emit st EOL, lp)
      else inr (emit (emit st CHR) ch, lp)
    else if ch =? 91 then                                           (* '[' *)
      match compile_ccl st with inl e => inl e | inr st => inr (st, lp) end
    else if (ch =? 42) || (ch =? 43) || (ch =? 63) then compile_closure st
    else if ch =? 92 then
      match compile_backslash st with inl e => inl e | inr st => inr (st, lp) end
    else
      match compile_ordinary st with inl e => inl e | inr st => inr (st, lp) end in
  match r with
  | inl e => inl e
  | inr (st, lp) => inr (with_sp st lp)
  end.

Definition mpMax : Z := MAXNFA - BITBLK - 10.

Fixpoint compile_loop (fuel : nat) (length : Z) (st : cst) : (string * cst) + cst :=
  match fuel with
  | O => inr st
  | S f =>
      if c_i st <? length then
        if mpMax <? c_mp st then inl ("Pattern too long"%string, st)
        else match compile_one st with
             | inl e => inl e
             | inr st => compile_loop f length (with_ip st (c_i st + 1) (c_p st + 1))
             end
      else inr st
  end.

End Compiler.

(** [#define badpat(x) ( *nfa = END, x)] *)
Definition badpat (e : engine) (st : cst) (msg : string) : option string * engine :=
  (Some msg, set_compiled e (sta e) (wr (c_nfa st) 0 END) (c_bt st) (c_tagstk st)).

(** [RESearch::DoCompile]; [pattern] is [None] for nullptr, otherwise the
    pattern memory. *)
Definition DoCompile (e : engine) (pattern : option (list Z)) (length : Z)
  (caseSensitive posix : bool) : option string * engine :=
  let st0 := mkCst 0 0 0 0 0 1 (nfa e) (bittab e) (tagstk e) in
  match pattern with
  | None =>
      if negb (sta e =? 0) then (None, e)
      else badpat e st0 "No previous regular expression"
  | Some mem =>
      if length =? 0 then
        if negb (sta e =? 0) then (None, e)
        else badpat e st0 "No previous regular expression"
      else
        let e := set_compiled e NOP (nfa e) (bittab e) (tagstk e) in
        match compile_loop mem caseSensitive posix (S (Z.to_nat length)) length st0 with
        | inl (msg, st) => badpat e st msg
        | inr st =>
            if 0 <? c_tagi st then
              badpat e st (if posix then "Unmatched (" else "Unmatched \(")
            else
              (None, set_compiled e OKP (wr (c_nfa st) (c_mp st) END) (c_bt st) (c_tagstk st))
        end
  end.

(** [cachedPattern.assign(pattern, length)] / the bytes [memcmp] reads. *)
Definition take_mem (mem : list Z) (length : Z) : list Z :=
  map (fun k => mem_at mem (Z.of_nat k)) (seq 0 (Z.to_nat length)).

Fixpoint list_Z_eqb (a b : list Z) : bool :=
  match a, b with
  | [], [] => true
  | x :: a', y :: b' => (x =? y) && list_Z_eqb a' b'
  | _, _ => false
  end.

Definition ptr_eqb (a b : option Z) : bool :=
  match a, b with
  | None, None => true
  | Some x, Some y => x =? y
  | _, _ => false
  end.

(** The guard of [RESearch::Compile] that reuses the compiled program. *)
Definition cache_hit (e : engine) (pattern : option (Z * list Z)) (length flags : Z) : bool :=
  (sta e =? OKP)
  && match pattern with
     | None => true
     | Some (addr, mem) =>
         (length =? 0)
         || (ptr_eqb (Some addr) (previousPattern e) && (length =? previousLength e)
             && (flags =? previousFlags e)
             && list_Z_eqb (take_mem mem length) (cachedPattern e))
     end.

(** [RESearch::Compile]; a pattern argument is [None] (nullptr) or
    [Some (address, memory)]. *)
Definition Compile (e : engine) (pattern : option (Z * list Z)) (length : Z)
  (caseSensitive : bool) (flags : Z) : option string * engine :=
  if cache_hit e pattern length flags then (None, e)
  else
    let posix := FlagSet flags FindOption_Posix in
    let '(errmsg, e) := DoCompile e (option_map snd pattern) length caseSensitive posix in
    match errmsg, pattern with
    | None, Some (addr, mem) => (None, set_cache e (Some addr) length flags (take_mem mem length))
    | None, None => (None, set_cache e None length flags [])
    | Some msg, _ => (Some msg, e)
    end.

(** *** [RESearch::Execute] and [RESearch::PMatch] *)

(** The host's [CharacterIndexer] interface (RESearch.h). *)
Record CharacterIndexer := mkIndexer {
  CharAt : Z -> Z;
  MovePositionOutsideChar : Z -> Z -> Z;
  NextPosition : Z -> Z -> Z;
  IsWordStartAt : Z -> bool;
  IsWordEndAt : Z -> bool;
  ExtendWordSelect : Z -> Z -> Z
}.

Section Matcher.

Variable ci : CharacterIndexer.
Variable endp : Z.

(** [isinset(ap, c)] on the program buffer. *)
Definition isinset (m : buf) (ap c : Z) : bool :=
  negb (Z.land (rd m (ap + Z.shiftr c 3)) (Z.shiftl 1 (Z.land c BITIND)) =? 0).

(** [while ((lp < endp) && f(lp)) lp++;] *)
Fixpoint scan_while (f : Z -> bool) (k : nat) (lp : Z) : Z :=
  match k with
  | O => lp
  | S k' => if (lp <? endp) && f lp then scan_while f k' (lp + 1) else lp
  end.

(** [while (bp < ep) if (ci.CharAt(bp++) != ci.CharAt(lp++)) return NOTFOUND;] *)
Fixpoint ref_loop (k : nat) (bp ep lp : Z) : option Z :=
  match k with
  | O => Some lp
  | S k' =>
      if bp <? ep then
        if CharAt ci bp =? CharAt ci lp then ref_loop k' (bp + 1) ep (lp + 1) else None
      else Some lp
  end.

(** The movement hint written to [*offset] by the word-boundary opcodes. *)
Definition offset_hint (lp e moveDir : Z) : Z :=
  let e := if e =? lp then NextPosition ci lp moveDir - lp else e - lp in
  if e =? 0 then moveDir else e.

Definition notfound (offset : option Z) (e : engine) : option (Z * option Z * engine) :=
  Some (NOTFOUND, offset, e).

(** The backtracking loop of the closure opcodes of [PMatch], from
    [Sci::Position llp = lp;] to the final [return e;]. [pm] is the
    recursive [PMatch], [m] the program, [are] the saved line pointer, [ap]
    the tail of the program after the closure, [op] the closure opcode;
    [llp] is the lazy lp, [lp] the winning lp, [x] the extra pointer [e]. *)
Fixpoint clo_loop
  (pm : engine -> Z -> Z -> Z -> option Z -> option (Z * option Z * engine))
  (m : buf) (are ap op : Z) (offset : option Z)
  (k : nat) (llp lp x : Z) (st : engine) : option (Z * option Z * engine) :=
  match k with
  | O => None
  | S k' =>
    if are <=? llp then
      match pm st llp ap (-1) (Some (-1)) with
      | None => None
      | Some (q, qoff, st) =>
          let qoff := match qoff with Some v => v | None => -1 end in
          let '(x, lp, stop) :=
            if negb (q =? NOTFOUND) then (q, llp, negb (op =? LCLO))
            else (x, lp, false) in
          if stop then Some (x, offset, st)
          else if rd m ap =? END then Some (x, offset, st)
          else clo_loop pm m are ap op offset k' (llp + qoff) lp x st
      end
    else if rd m ap =? EOT then
      match pm st lp ap 1 None with
      | None => None
      | Some (_, _, st) => Some (x, offset, st)
      end
    else Some (x, offset, st)
  end.

(** [RESearch::PMatch(ci, lp, endp, ap, moveDir, offset)]: [offset] is
    [None] for a null pointer, otherwise the value of [*offset], returned
    updated. [None] as a result means the fuel ran out. *)
Fixpoint PMatch (fuel : nat) (e : engine) (lp ap moveDir : Z) (offset : option Z)
  {struct fuel} : option (Z * option Z * engine) :=
  match fuel with
  | O => None
  | S fuel' =>
  let m := nfa e in
  let op := rd m ap in
  let ap := ap + 1 in
  if op =? END then Some (lp, offset, e)
  else if op =? CHR then
    if CharAt ci lp =? rd m ap then PMatch fuel' e (lp + 1) (ap + 1) moveDir offset
    else notfound offset e
  else if op =? ANY then
    if endp <=? lp then notfound offset e
    else PMatch fuel' e (lp + 1) ap moveDir offset
  else if op =? CCL then
    if endp <=? lp then notfound offset e
    else if negb (isinset m ap (CharAt ci lp)) then notfound offset e
    else PMatch fuel' e (lp + 1) (ap + BITBLK) moveDir offset
  else if op =? BOL then
    if negb (lp =? bol e) then notfound offset e
    else PMatch fuel' e lp ap moveDir offset
  else if op =? EOL then
    if lp <? endp then notfound offset e
    else PMatch fuel' e lp ap moveDir offset
  else if op =? BOT then
    let lp := MovePositionOutsideChar ci lp (-1) in
    PMatch fuel' (set_match e (failure e) (wr (bopat e) (rd m ap) lp) (eopat e))
      lp (ap + 1) moveDir offset
  else if op =? EOT then
    let lp := MovePositionOutsideChar ci lp 1 in
    PMatch fuel' (set_match e (failure e) (bopat e) (wr (eopat e) (rd m ap) lp))
      lp (ap + 1) moveDir offset
  else if op =? BOW then
    if (negb (lp =? bol e) && iswordc (CharAt ci (lp - 1))) || negb (iswordc (CharAt ci lp))
    then notfound offset e
    else PMatch fuel' e lp ap moveDir offset
  else if op =? EOW then
    if (lp =? bol e) || negb (iswordc (CharAt ci (lp - 1))) || iswordc (CharAt ci lp)
    then notfound offset e
    else PMatch fuel' e lp ap moveDir offset
  else if op =? EXP_MATCH_WORD_START then
    if negb (IsWordStartAt ci lp) then
      notfound (option_map (fun _ =>
                  offset_hint lp (MovePositionOutsideChar ci lp moveDir) moveDir) offset) e
    else PMatch fuel' e lp ap moveDir offset
  else if op =? EXP_MATCH_WORD_END then
    if (lp =? bol e) || negb (IsWordEndAt ci lp) then
      notfound (option_map (fun _ =>
                  offset_hint lp (MovePositionOutsideChar ci lp moveDir) moveDir) offset) e
    else PMatch fuel' e lp ap moveDir offset
  else if (op =? EXP_MATCH_TO_WORD_END) || (op =? EXP_MATCH_TO_WORD_END_OPT) then
    let x := ExtendWordSelect ci lp moveDir in
    if ((x =? lp) && negb (op =? EXP_MATCH_TO_WORD_END_OPT)) || negb (IsWordEndAt ci x) then
      notfound (option_map (fun _ => offset_hint lp x moveDir) offset) e
    else PMatch fuel' e x ap moveDir offset
  else if op =? REF then
    let n := rd m ap in
    match ref_loop (Z.to_nat (rd (eopat e) n - rd (bopat e) n))
            (rd (bopat e) n) (rd (eopat e) n) lp with
    | None => notfound offset e
    | Some lp => PMatch fuel' e lp (ap + 1) moveDir offset
    end
  else if (op =? LCLO) || (op =? CLQ) || (op =? CLO) then
    let are := lp in
    let atom := rd m ap in
    let scan :=
      if atom =? ANY then
        Some (if (op =? CLO) || (op =? LCLO) then (if lp <? endp then endp else lp)
              else if lp <? endp then lp + 1 else lp, 2)
      else if atom =? CHR then
        let c := rd m (ap + 1) in
        let f := fun q => c =? CharAt ci q in
        Some (if (op =? CLO) || (op =? LCLO) then scan_while f (Z.to_nat (endp - lp)) lp
              else if (lp <? endp) && f lp then lp + 1 else lp, 3)
      else if atom =? CCL then
        Some (scan_while (fun q => isinset m (ap + 1) (CharAt ci q))
                (Z.to_nat (endp - lp)) lp, 34)
      else None in
    match scan with
    | None => notfound offset (set_match e true (bopat e) (eopat e))
    | Some (lp, n) =>
      let ap := ap + n in
      clo_loop (PMatch fuel') m are ap op offset fuel' lp lp NOTFOUND e
    end
  else notfound offset e
  end.

(** [while ((lp < endp) && (CharAt(lp) != c)) lp++;] *)
Fixpoint skip_to (c : Z) (k : nat) (lp : Z) : Z :=
  match k with
  | O => lp
  | S k' => if (lp <? endp) && negb (CharAt ci lp =? c) then skip_to c k' (lp + 1) else lp
  end.

(** The [default:] scan of [Execute]: returns [(ep, lp)]. *)
Fixpoint exec_scan (fuel : nat) (k : nat) (e : engine) (lp : Z)
  : option (Z * Z * engine) :=
  match k with
  | O => None
  | S k' =>
      if lp <? endp then
        match PMatch fuel e lp 0 1 (Some 1) with
        | None => None
        | Some (ep, offset, e) =>
            if negb (ep =? NOTFOUND) then Some (ep, lp, e)
            else exec_scan fuel k' e (lp + match offset with Some v => v | None => 1 end)
        end
      else Some (NOTFOUND, lp, e)
  end.

Definition exec_finish (r : option (Z * Z * engine)) : option (Z * engine) :=
  match r with
  | None => None
  | Some (ep, lp, e) =>
      if ep =? NOTFOUND then Some (0, e)
      else Some (1, set_match e (failure e) (wr (bopat e) 0 lp) (wr (eopat e) 0 ep))
  end.

(** [RESearch::Execute(ci, lp, endp)]: [Some (r, e')] with [r] the
    returned int; [None] when the fuel ran out. *)
Definition Execute (fuel : nat) (e : engine) (lp : Z) : option (Z * engine) :=
  let e := Clear (set_bol e lp false) in
  let op0 := rd (nfa e) 0 in
  if op0 =? BOL then
    exec_finish (match PMatch fuel e lp 0 1 None with
                 | None => None
                 | Some (ep, _, e) => Some (ep, lp, e)
                 end)
  else if op0 =? EOL then
    if rd (nfa e) 1 =? END then exec_finish (Some (endp, endp, e)) else Some (0, e)
  else if op0 =? END then Some (0, e)
  else if op0 =? CHR then
    let lp := skip_to (rd (nfa e) 1) (Z.to_nat (endp - lp)) lp in
    if endp <=? lp then Some (0, e)
    else exec_finish (exec_scan fuel fuel e lp)
  else exec_finish (exec_scan fuel fuel e lp).

End Matcher.

End WithCharClass.

(** *** A concrete host: a single-byte buffer *)

(** The default word-character class of the host document: [0-9A-Za-z_]
    and bytes [>= 0x80]. *)
Definition default_iswordc (c : Z) : bool :=
  ((48 <=? c) && (c <=? 57)) || ((65 <=? c) && (c <=? 90)) || ((97 <=? c) && (c <=? 122))
  || (c =? 95) || (128 <=? c).

(** A [CharacterIndexer] over the bytes [s] of a single-byte document:
    [CharAt] is 0 outside the text, positions are clamped to it, word
    boundaries follow [default_iswordc]. *)
Fixpoint extend_word (w : Z -> bool) (k : nat) (q d : Z) : Z :=
  match k with
  | O => q
  | S k' =>
      if (d <? 0) then (if w (q - 1) then extend_word w k' (q - 1) d else q)
      else (if w q then extend_word w k' (q + 1) d else q)
  end.

Definition text_indexer (s : list Z) : CharacterIndexer :=
  let len := Z.of_nat (List.length s) in
  let clamp q := Z.max 0 (Z.min len q) in
  let ch q := if (q <? 0) || (len <=? q) then 0 else mem_at s q in
  let w q := (0 <=? q) && (q <? len) && default_iswordc (ch q) in
  mkIndexer ch (fun q _ => clamp q) (fun q d => clamp (q + d))
    (fun q => w q && negb (w (q - 1)))
    (fun q => w (q - 1) && negb (w q))
    (fun q d => extend_word w (List.length s) (clamp q) d).

(** *** Sequences of calls on one engine *)

(** A call on the public interface of an engine object. *)
Inductive call :=
| CallCompile (pattern : option (Z * list Z)) (length : Z) (caseSensitive : bool) (flags : Z)
| CallExecute (ci : CharacterIndexer) (lp endp : Z) (fuel : nat)
| CallClearCache.

(** Runs the calls in order; returns the final engine and the results of
    the [Compile] calls ([None] = nullptr = success). *)
Fixpoint run_calls (iswordc : Z -> bool) (e : engine) (cs : list call)
  : option (engine * list (option string)) :=
  match cs with
  | [] => Some (e, [])
  | CallCompile p l c f :: cs' =>
      let '(r, e) := Compile iswordc e p l c f in
      match run_calls iswordc e cs' with
      | None => None
      | Some (e, rs) => Some (e, r :: rs)
      end
  | CallExecute ci lp endp fuel :: cs' =>
      match Execute iswordc ci endp fuel e lp with
      | None => None
      | Some (_, e) => run_calls iswordc e cs'
      end
  | CallClearCache :: cs' => run_calls iswordc (ClearCache e) cs'
  end.

(** ASCII text as bytes. *)
Definition bytes (s : string) : list Z :=
  map (fun a => Z.of_nat (Ascii.nat_of_ascii a)) (list_ascii_of_string s).

(** *** Observations used by the properties *)

(** Running [Execute] from position 0 over the whole of a text. *)
Definition run_on (iswordc : Z -> bool) (e : engine) (t : string) (fuel : nat)
  : option (Z * engine) :=
  Execute iswordc (text_indexer (bytes t)) (Z.of_nat (String.length t)) fuel e 0.

(** The returned int and the group-0 bounds after [Execute]. *)
Definition exec_outcome (r : option (Z * engine)) : option (Z * Z * Z) :=
  option_map (fun '(res, e2) => (res, rd (bopat e2) 0, rd (eopat e2) 0)) r.

Definition pat_ccl := bytes "[^-]]".

(** The first [n] bytes of a program buffer. *)
Definition prog_prefix (m : buf) (n : nat) : list Z :=
  map (fun k => rd m (Z.of_nat k)) (seq 0 n).

Definition pat_lazy := bytes "a.*?b".

(** The parts of the engine that [Execute] leaves alone: the status, the
    program, [bittab], [tagstk] and the cache fingerprint. *)
Definition prog_part (e : engine) :=
  (sta e, nfa e, bittab e, tagstk e, previousPattern e, previousLength e,
   previousFlags e, cachedPattern e).

(** No usable program: status [NOP] and [nfa[0] = END]. *)
Definition no_program (e : engine) : Prop := sta e = NOP /\ rd (nfa e) 0 = END.

(** The result of the most recent [Compile] of a call sequence. *)
Fixpoint last_result (rs : list (option string)) : option (option string) :=
  match rs with
  | [] => None
  | [r] => Some r
  | _ :: rs' => last_result rs'
  end.

(** The engine after a sequence of calls on a fresh engine. *)
Definition engine_after (iswordc : Z -> bool) (cs : list call) : engine :=
  match run_calls iswordc RESearch_init cs with Some (e, _) => e | None => RESearch_init end.

(** A [Compile] call that fails ("Missing ]"), and one that succeeds. *)
Definition calls_bad := [CallCompile (Some (0, bytes "a[")) 2 true 0].

Definition calls_good := [CallCompile (Some (0, bytes "ab")) 2 true 0].


(** *** Shape of a compiled program *)

(** Opcodes [PMatch] steps over by one cell. *)
Definition is_single_op (op : Z) : bool :=
  existsb (Z.eqb op) [ANY; BOL; EOL; BOW; EOW; EXP_MATCH_WORD_START; EXP_MATCH_WORD_END;
                      EXP_MATCH_TO_WORD_END; EXP_MATCH_TO_WORD_END_OPT].

Definition is_closure_op (op : Z) : bool := (op =? CLO) || (op =? LCLO) || (op =? CLQ).

(** The [n] of the closure cases of [PMatch]: how far [ap] moves past
    the closure's operand, by the operand's opcode. *)
Definition closure_skip (atom : Z) : option Z :=
  if atom =? ANY then Some 2 else if atom =? CHR then Some 3
  else if atom =? CCL then Some 34 else None.

Definition known_op (op : Z) : bool :=
  (op =? END) || (op =? CHR) || (op =? REF) || (op =? CCL) || (op =? BOT) || (op =? EOT)
  || is_single_op op || is_closure_op op.

(** A program from [p] on, read the way [PMatch] walks it: every
    [BOT]/[EOT] carries a non-zero group number, and the walk reaches
    [END] (or an opcode [PMatch] does not dispatch on). *)
Inductive wf_prog (m : buf) : Z -> Prop :=
| wf_end p : rd m p = END -> wf_prog m p
| wf_single p : is_single_op (rd m p) = true -> wf_prog m (p + 1) -> wf_prog m p
| wf_chr p : rd m p = CHR \/ rd m p = REF -> wf_prog m (p + 2) -> wf_prog m p
| wf_tag p : rd m p = BOT \/ rd m p = EOT -> rd m (p + 1) <> 0 -> wf_prog m (p + 2) -> wf_prog m p
| wf_ccl p : rd m p = CCL -> wf_prog m (p + 1 + BITBLK) -> wf_prog m p
| wf_clo p : is_closure_op (rd m p) = true ->
    (forall n, closure_skip (rd m (p + 1)) = Some n -> wf_prog m (p + 1 + n)) -> wf_prog m p
| wf_other p : known_op (rd m p) = false -> wf_prog m p.

(** One item [DoCompile] emits, occupying [[p, q)]. *)
Inductive item (m : buf) : Z -> Z -> Prop :=
| it_single p : is_single_op (rd m p) = true -> item m p (p + 1)
| it_chr p : rd m p = CHR \/ rd m p = REF -> item m p (p + 2)
| it_tag p : rd m p = BOT \/ rd m p = EOT -> rd m (p + 1) <> 0 -> item m p (p + 2)
| it_ccl p : rd m p = CCL -> item m p (p + 1 + BITBLK)
| it_clo p q : is_closure_op (rd m p) = true -> p + 2 <= q ->
    (forall n, closure_skip (rd m (p + 1)) = Some n -> q = p + 1 + n) -> item m p q.

(** A sequence of items filling [[p, r)]. *)
Inductive seg (m : buf) : Z -> Z -> Prop :=
| seg_nil p : seg m p p
| seg_snoc p q r : seg m p q -> item m q r -> seg m p r.

(** [e'] has the group-0 bounds and the program of [e]. *)
Definition keeps0 (e e' : engine) : Prop :=
  rd (bopat e') 0 = rd (bopat e) 0 /\ rd (eopat e') 0 = rd (eopat e) 0 /\ nfa e' = nfa e.

(** The group bookkeeping of [DoCompile]: [tagc >= 1], and every open
    group on [tagstk[1..tagi]] has a non-zero number. *)
Definition tags_ok (st : cst) : Prop :=
  1 <= c_tagc st /\ forall j, 1 <= j <= c_tagi st -> rd (c_tagstk st) j <> 0.

(** The loop invariant of [DoCompile]: items fill [[0, sp)], and
    [[sp, mp)] is the last item (or nothing yet, before the first one). *)
Definition cinv (st : cst) : Prop :=
  seg (c_nfa st) 0 (c_sp st)
  /\ (item (c_nfa st) (c_sp st) (c_mp st) \/ (c_sp st = c_mp st /\ c_p st = 0))
  /\ tags_ok st.

(** The state after one iteration, before [i++; p++]. *)
Definition cinv1 (st : cst) : Prop :=
  seg (c_nfa st) 0 (c_sp st) /\ item (c_nfa st) (c_sp st) (c_mp st) /\ tags_ok st.

(** [st1] keeps the program of [st] below [mp] and adds one item at [mp]. *)
Definition appended (st st1 : cst) : Prop :=
  (forall a, a < c_mp st -> rd (c_nfa st1) a = rd (c_nfa st) a)
  /\ item (c_nfa st1) (c_mp st) (c_mp st1).

Definition same_tags (st st' : cst) : Prop :=
  c_tagi st' = c_tagi st /\ c_tagc st' = c_tagc st /\ c_tagstk st' = c_tagstk st.

(** *** Literal patterns *)

(** A byte that [DoCompile] compiles as itself: 1..255 and none of
    [. [ * + ? \ ^ $ ( )]. *)
Definition plain_byte (c : Z) : bool :=
  (0 <? c) && (c <? 256) && negb (existsb (Z.eqb c) [46; 91; 42; 43; 63; 92; 94; 36; 40; 41]).

(** A non-empty pattern made only of plain bytes. *)
Definition plain_pattern (l : list Z) : bool :=
  match l with [] => false | _ => forallb plain_byte l end.

(** The program item at [q] matches exactly the byte [c] and ends at [r]:
    a [CHR c] or a one-byte-wide [CCL] set containing [c]. *)
Definition lit_item (m : buf) (q r c : Z) : Prop :=
  (rd m q = CHR /\ rd m (q + 1) = c /\ r = q + 2)
  \/ (rd m q = CCL /\ 0 <= c < 256 /\ isinset m (q + 1) c = true /\ r = q + 1 + BITBLK).

(** A run of literal items from [p] to [q] matching the bytes [l]. *)
Inductive litseg (m : buf) : Z -> Z -> list Z -> Prop :=
| ls_nil p : litseg m p p []
| ls_snoc p q r l c : litseg m p q l -> lit_item m q r c -> litseg m p r (l ++ [c]).

(** The program from [p] on is the literal [l] followed by [END]. *)
Inductive lit (m : buf) : Z -> list Z -> Prop :=
| lit_end p : rd m p = END -> lit m p []
| lit_cons p r c l : lit_item m p r c -> lit m r l -> lit m p (c :: l).

(** The bit of [c] is set in the 32-byte set [bt]. *)
Definition has_bit (bt : buf) (c : Z) : Prop :=
  Z.testbit (rd bt (Z.shiftr c 3)) (Z.land c BITIND) = true.

(** An engine with a usable program whose cached pattern is plain holds
    the literal program of that pattern. *)
Definition okp_inv (e : engine) : Prop :=
  sta e = OKP -> plain_pattern (cachedPattern e) = true -> lit (nfa e) 0 (cachedPattern e).


(** *** [RESearch::GrabMatches] *)

(** [RESearch::GrabMatches(ci)]: for each group [i] whose bounds are both
    set, [pat[i].resize(len)] and then [pat[i][j] = ci.CharAt(bopat[i] + j)]
    for [j < len]. [None] when [resize] throws: a negative [len] converted
    to [size_t]. *)
Fixpoint grab_from (ci : CharacterIndexer) (k : nat) (i : Z) (e : engine) : option engine :=
  match k with
  | O => Some e
  | S k' =>
      let bo := rd (bopat e) i in
      let eo := rd (eopat e) i in
      if negb (bo =? NOTFOUND) && negb (eo =? NOTFOUND) then
        let len := eo - bo in
        if len <? 0 then None
        else
          let s := map (fun j => CharAt ci (bo + Z.of_nat j)) (seq 0 (Z.to_nat len)) in
          grab_from ci k' (i + 1) (set_pat e (fun j => if j =? i then s else pat e j))
      else grab_from ci k' (i + 1) e
  end.

Definition GrabMatches (ci : CharacterIndexer) (e : engine) : option engine :=
  grab_from ci (Z.to_nat MAXTAG) 0 e.

(** Both bounds of group [i] are set. *)
Definition found (e : engine) (i : Z) : bool :=
  negb (rd (bopat e) i =? NOTFOUND) && negb (rd (eopat e) i =? NOTFOUND).

(** The text of group [i]: the chars from [bopat[i]] up to [eopat[i]]. *)
Definition group_text (ci : CharacterIndexer) (e : engine) (i : Z) : list Z :=
  map (fun j => CharAt ci (rd (bopat e) i + Z.of_nat j))
    (seq 0 (Z.to_nat (rd (eopat e) i - rd (bopat e) i))).

(** *** Reading aids for the properties *)

(** The value of a hex digit ([0-9a-fA-F]). *)
Definition hex_val (c : Z) : option Z :=
  if (48 <=? c) && (c <=? 57) then Some (c - 48)
  else if (97 <=? c) && (c <=? 102) then Some (c - 87)
  else if (65 <=? c) && (c <=? 70) then Some (c - 55)
  else None.

(** The 256 values of an [unsigned char]. *)
Definition bytes256 : list Z := map Z.of_nat (seq 0 256).

(** [GetHexValue] agrees with [hex_val] on two bytes: the value of the pair
    when both are hex digits, a negative number otherwise. *)
Definition hex_pair_ok (c1 c2 : Z) : bool :=
  match hex_val c1, hex_val c2 with
  | Some d1, Some d2 => (GetHexValue c1 c2 =? 16 * d1 + d2) && (0 <=? 16 * d1 + d2)
  | _, _ => GetHexValue c1 c2 <? 0
  end.

(** [ClearCache] applied to the engine of a [PMatch] result. *)
Definition cc3 (r : Z * option Z * engine) : Z * option Z * engine :=
  let '(a, b, e) := r in (a, b, ClearCache e).

End RE.

(** ** The SQL lexer and folder (LexSQL.cxx) *)

Module SQL.

(** Lexical styles. SciLexer.h is not under src/: the standard values are
    used for the styles Scintilla defines, and fresh values for the
    [HEX], [HEX2], [BIT], [BIT2] and [VARIABLE] styles this lexer adds;
    the lexer only compares styles for equality. *)
Definition SCE_SQL_DEFAULT := 0.
Definition SCE_SQL_COMMENT := 1.
Definition SCE_SQL_COMMENTLINE := 2.
Definition SCE_SQL_NUMBER := 4.
Definition SCE_SQL_WORD := 5.
Definition SCE_SQL_STRING := 6.
Definition SCE_SQL_CHARACTER := 7.
Definition SCE_SQL_OPERATOR := 10.
Definition SCE_SQL_IDENTIFIER := 11.
Definition SCE_SQL_COMMENTLINEDOC := 15.
Definition SCE_SQL_WORD2 := 16.
Definition SCE_SQL_USER1 := 19.
Definition SCE_SQL_QUOTEDIDENTIFIER := 23.
Definition SCE_SQL_HEX := 24.
Definition SCE_SQL_HEX2 := 25.
Definition SCE_SQL_BIT := 26.
Definition SCE_SQL_BIT2 := 27.
Definition SCE_SQL_VARIABLE := 28.

(** Fold-level constants of Scintilla.h. *)
Definition SC_FOLDLEVELBASE := 1024.
Definition SC_FOLDLEVELWHITEFLAG := 4096.
Definition SC_FOLDLEVELHEADERFLAG := 8192.
Definition SC_FOLDLEVELNUMBERMASK := 4095.

(** Modelled from the spec: the ASCII character classes of Scintilla's
    lexlib (CharacterSet.h, not under src/), which the spec calls the
    lexer's "ASCII-class predicates"; bytes [>= 0x80] belong to none. *)
Definition IsADigit (ch : Z) : bool := (48 <=? ch) && (ch <=? 57).
Definition IsLowerCase (ch : Z) : bool := (97 <=? ch) && (ch <=? 122).
Definition IsUpperCase (ch : Z) : bool := (65 <=? ch) && (ch <=? 90).
Definition IsAlphaNumeric (ch : Z) : bool := IsADigit ch || IsLowerCase ch || IsUpperCase ch.
Definition IsHexDigit (ch : Z) : bool :=
  IsADigit ch || ((97 <=? ch) && (ch <=? 102)) || ((65 <=? ch) && (ch <=? 70)).
Definition iswordchar (ch : Z) : bool :=
  (0 <=? ch) && (ch <? 128) && (IsAlphaNumeric ch || (ch =? 46) || (ch =? 95)).
Definition iswordstart (ch : Z) : bool :=
  (0 <=? ch) && (ch <? 128) && (IsAlphaNumeric ch || (ch =? 95)).
Definition isspacechar (ch : Z) : bool := (ch =? 32) || ((9 <=? ch) && (ch <=? 13)).
Definition isoperator (ch : Z) : bool :=
  if (0 <=? ch) && (ch <? 128) && IsAlphaNumeric ch then false
  else existsb (Z.eqb ch)
    [37; 94; 38; 42; 40; 41; 45; 43; 61; 124; 123; 125; 91; 93; 58; 59; 60; 62;
     44; 47; 63; 33; 46; 126].
Definition tolower (ch : Z) : Z := if IsUpperCase ch then ch + 32 else ch.

(** [IsSqlWordChar]. *)
Definition IsSqlWordChar (ch : Z) (sqlAllowDottedWord : bool) : bool :=
  if negb sqlAllowDottedWord then (ch <? 128) && (IsAlphaNumeric ch || (ch =? 95))
  else (ch <? 128) && (IsAlphaNumeric ch || (ch =? 95) || (ch =? 46)).

(** [IsANumberChar]. *)
Definition IsANumberChar (ch chPrev : Z) : bool :=
  (ch <? 128) && (IsADigit ch || ((ch =? 46) && negb (chPrev =? 46))
                  || (((ch =? 43) || (ch =? 45)) && ((chPrev =? 101) || (chPrev =? 69)))
                  || (((ch =? 101) || (ch =? 69)) && (chPrev <? 128) && IsADigit chPrev)).

(** *** [class SQLStates] *)

Definition MASK_NESTED_CASES := 511.
Definition MASK_INTO_SELECT_STATEMENT_OR_ASSIGNEMENT := 512.
Definition MASK_CASE_MERGE_WITHOUT_WHEN_FOUND := 1024.
Definition MASK_MERGE_STATEMENT := 2048.
Definition MASK_INTO_DECLARE := 4096.
Definition MASK_INTO_EXCEPTION := 8192.
Definition MASK_INTO_CONDITION := 16384.
Definition MASK_IGNORE_WHEN := 32768.

(** C's logical negation on an [int]: [!x]. *)
Definition c_not (x : Z) : Z := if x =? 0 then 1 else 0.

(** [std::vector::resize(n, x)]: truncate or pad with [x]. *)
Definition resize (v : list Z) (n : nat) (x : Z) : list Z :=
  firstn n v ++ repeat x (n - List.length v).

(** [v[k] = x;] inside the bounds. *)
Definition set_nth (v : list Z) (k : nat) (x : Z) : list Z :=
  firstn k v ++ x :: skipn (S k) v.

(** [SQLStates::Set(lineNumber, sqlStatesLine)] on the vector
    [sqlStatement]; the guard is the source's
    [!sqlStatement.size() == 0 || !sqlStatesLine == 0], where [!] binds
    tighter than [==]. *)
Definition SQLStates_Set (sqlStatement : list Z) (lineNumber sqlStatesLine : Z) : list Z :=
  if (c_not (Z.of_nat (List.length sqlStatement)) =? 0) || (c_not sqlStatesLine =? 0) then
    let v := resize sqlStatement (Z.to_nat (lineNumber + 1)) 0 in
    set_nth v (Z.to_nat lineNumber) sqlStatesLine
  else sqlStatement.

(** [SQLStates::ForLine]. *)
Definition SQLStates_ForLine (sqlStatement : list Z) (lineNumber : Z) : Z :=
  if (0 <? lineNumber) && (lineNumber <? Z.of_nat (List.length sqlStatement)) then
    nth (Z.to_nat lineNumber) sqlStatement 0
  else 0.

(** The flag setters and tests of [SQLStates]. *)
Definition set_mask (s mask : Z) (enable : bool) : Z :=
  if enable then Z.lor s mask else Z.land s (Z.lnot mask).
Definition IgnoreWhen s b := set_mask s MASK_IGNORE_WHEN b.
Definition IntoCondition s b := set_mask s MASK_INTO_CONDITION b.
Definition IntoExceptionBlock s b := set_mask s MASK_INTO_EXCEPTION b.
Definition IntoDeclareBlock s b := set_mask s MASK_INTO_DECLARE b.
Definition IntoMergeStatement s b := set_mask s MASK_MERGE_STATEMENT b.
Definition CaseMergeWithoutWhenFound s b := set_mask s MASK_CASE_MERGE_WITHOUT_WHEN_FOUND b.
Definition IntoSelectStatementOrAssignment s b :=
  set_mask s MASK_INTO_SELECT_STATEMENT_OR_ASSIGNEMENT b.
Definition BeginCaseBlock (s : Z) : Z :=
  if Z.land s MASK_NESTED_CASES <? MASK_NESTED_CASES then s + 1 else s.
Definition EndCaseBlock (s : Z) : Z :=
  if 0 <? Z.land s MASK_NESTED_CASES then s - 1 else s.
Definition has_mask (s mask : Z) : bool := negb (Z.land s mask =? 0).
Definition IsIgnoreWhen s := has_mask s MASK_IGNORE_WHEN.
Definition IsIntoCondition s := has_mask s MASK_INTO_CONDITION.
Definition IsIntoCaseBlock s := has_mask s MASK_NESTED_CASES.
Definition IsIntoExceptionBlock s := has_mask s MASK_INTO_EXCEPTION.
Definition IsIntoDeclareBlock s := has_mask s MASK_INTO_DECLARE.
Definition IsIntoSelectStatementOrAssignment s :=
  has_mask s MASK_INTO_SELECT_STATEMENT_OR_ASSIGNEMENT.
Definition IsCaseMergeWithoutWhenFound s := has_mask s MASK_CASE_MERGE_WITHOUT_WHEN_FOUND.
Definition IsIntoMergeStatement s := has_mask s MASK_MERGE_STATEMENT.

(** *** [StyleContext] over an [Accessor] *)

Section Styling.

(** The document: its bytes. *)
Variable doc : list Z.

Definition doc_length : Z := Z.of_nat (List.length doc).

(** [styler.SafeGetCharAt(pos)] (default [' ']). *)
Definition SafeGetCharAt (pos : Z) : Z :=
  if (0 <=? pos) && (pos <? doc_length) then mem_at doc pos else 32.

(** Modelled from the spec: [StyleContext] (Scintilla's lexlib, not under
    src/), the cursor the colouriser moves over the text, and the Styler
    contract it drives: [ColourTo(endPos, style)] gives [style] to the
    positions from the segment start up to [endPos] and starts the next
    segment after it. The cursor holds [currentPos], [endPos], [state],
    [chPrev], [ch], [chNext], the line flags, the styler's segment start
    and the styles written so far. *)
Record StyleContext := mkSC {
  currentPos : Z; endPos : Z; atLineStart : bool; atLineEnd : bool;
  state : Z; chPrev : Z; ch : Z; chNext : Z;
  startSeg : Z; styles : buf
}.

(** [styler.ColourTo(pos, attr)]. *)
Definition ColourTo (sc : StyleContext) (pos attr : Z) : StyleContext :=
  if pos <? startSeg sc then sc
  else mkSC (currentPos sc) (endPos sc) (atLineStart sc) (atLineEnd sc) (state sc)
         (chPrev sc) (ch sc) (chNext sc) (pos + 1)
         (fun j => if (startSeg sc <=? j) && (j <=? pos) then attr else styles sc j).

Definition with_state (sc : StyleContext) (s : Z) : StyleContext :=
  mkSC (currentPos sc) (endPos sc) (atLineStart sc) (atLineEnd sc) s
    (chPrev sc) (ch sc) (chNext sc) (startSeg sc) (styles sc).

(** [sc.Forward()]. *)
Definition Forward (sc : StyleContext) : StyleContext :=
  if currentPos sc <? endPos sc then
    let pos := currentPos sc + 1 in
    let c := chNext sc in
    let cn := SafeGetCharAt (pos + 1) in
    mkSC pos (endPos sc) (atLineEnd sc)
      (((c =? 13) && negb (cn =? 10)) || (c =? 10) || (endPos sc <=? pos))
      (state sc) (ch sc) c cn (startSeg sc) (styles sc)
  else
    mkSC (currentPos sc) (endPos sc) false true (state sc) 32 32 32 (startSeg sc) (styles sc).

(** [sc.SetState(s)], [sc.ForwardSetState(s)], [sc.ChangeState(s)]. *)
Definition SetState (sc : StyleContext) (s : Z) : StyleContext :=
  with_state (ColourTo sc (currentPos sc - 1) (state sc)) s.
Definition ForwardSetState (sc : StyleContext) (s : Z) : StyleContext :=
  SetState (Forward sc) s.
Definition ChangeState (sc : StyleContext) (s : Z) : StyleContext := with_state sc s.

(** [sc.More()], [sc.Match(c0, c1)], [sc.Complete()]. *)
Definition More (sc : StyleContext) : bool := currentPos sc <? endPos sc.
Definition Match (sc : StyleContext) (c0 c1 : Z) : bool := (ch sc =? c0) && (chNext sc =? c1).
Definition Complete (sc : StyleContext) : StyleContext :=
  ColourTo sc (currentPos sc - 1) (state sc).

(** [StyleContext sc(startPos, length, initStyle, styler)] with the
    default style mask 31, on a styler whose styles are [styles0]. *)
Definition new_sc (startPos length initStyle : Z) (styles0 : buf) : StyleContext :=
  let c := SafeGetCharAt startPos in
  let cn := SafeGetCharAt (startPos + 1) in
  let ep := startPos + length in
  mkSC startPos ep true (((c =? 13) && negb (cn =? 10)) || (c =? 10) || (ep <=? startPos))
    (Z.land initStyle 31) 0 c cn startPos styles0.

(** [sc.GetCurrentLowered(s, 128)]: the lowered text of the current
    segment, at most 127 chars. *)
Definition GetCurrentLowered (sc : StyleContext) : list Z :=
  map (fun k => tolower (mem_at doc (startSeg sc + Z.of_nat k)))
    (seq 0 (Nat.min 127 (Z.to_nat (currentPos sc - startSeg sc)))).

(** Modelled from the spec: [LexGetNextChar(pos, styler)], the next
    non-space character at or after [pos] (the spec's "next non-space
    character"); [' '] when there is none. *)
Fixpoint next_nonspace (k : nat) (pos : Z) : Z :=
  match k with
  | O => 32
  | S k' => let c := SafeGetCharAt pos in
            if isspacechar c then next_nonspace k' (pos + 1) else c
  end.
Definition LexGetNextChar (pos : Z) : Z := next_nonspace (Z.to_nat (doc_length - pos)) pos.

End Styling.

(** *** [ColouriseSqlDoc] *)

Section Colourise.

Variable doc : list Z.
(** [keywords1.InList], [keywords2.InList], [kw_user1.InListAbbreviated(_, '(')]. *)
Variables InList1 InList2 InListAbbreviated_user1 : list Z -> bool.
(** The four [lexer.sql.*] properties, as [GetPropertyInt(...) != 0]. *)
Variables sqlBackticksIdentifier sqlNumbersignComment sqlBackslashEscapes
  sqlAllowDottedWord : bool.

(** [case SCE_SQL_IDENTIFIER:] (the [_label_identifier] block). *)
Definition identifier_case (sc : StyleContext) : StyleContext :=
  if negb (IsSqlWordChar (ch sc) sqlAllowDottedWord) then
    let nextState := SCE_SQL_DEFAULT in
    let s := GetCurrentLowered doc sc in
    let sc :=
      if InList1 s then ChangeState sc SCE_SQL_WORD
      else if InList2 s then ChangeState sc SCE_SQL_WORD2
      else if (LexGetNextChar doc (currentPos sc) =? 40) && InListAbbreviated_user1 s then
        ChangeState sc SCE_SQL_USER1
      else sc in
    SetState sc nextState
  else sc.

(** "Determine if the current state should terminate." *)
Definition terminate_step (sc : StyleContext) : StyleContext :=
  let st := state sc in
  if st =? SCE_SQL_OPERATOR then SetState sc SCE_SQL_DEFAULT
  else if st =? SCE_SQL_HEX then
    if negb (IsHexDigit (ch sc)) then SetState sc SCE_SQL_DEFAULT else sc
  else if st =? SCE_SQL_HEX2 then
    if (ch sc =? 34) || (ch sc =? 39) then ForwardSetState doc sc SCE_SQL_DEFAULT else sc
  else if st =? SCE_SQL_BIT then
    if negb ((ch sc =? 48) || (ch sc =? 49)) then SetState sc SCE_SQL_DEFAULT else sc
  else if st =? SCE_SQL_BIT2 then
    if ch sc =? 39 then ForwardSetState doc sc SCE_SQL_DEFAULT else sc
  else if st =? SCE_SQL_NUMBER then
    if negb (IsANumberChar (ch sc) (chPrev sc)) then SetState sc SCE_SQL_DEFAULT else sc
  else if st =? SCE_SQL_VARIABLE then
    if negb (iswordchar (ch sc) || (ch sc =? 64)) then SetState sc SCE_SQL_DEFAULT else sc
  else if st =? SCE_SQL_IDENTIFIER then identifier_case sc
  else if st =? SCE_SQL_QUOTEDIDENTIFIER then
    if ch sc =? 96 then
      if chNext sc =? 96 then Forward doc sc
      else ForwardSetState doc sc SCE_SQL_DEFAULT
    else sc
  else if st =? SCE_SQL_COMMENT then
    if Match sc 42 47 then ForwardSetState doc (Forward doc sc) SCE_SQL_DEFAULT else sc
  else if (st =? SCE_SQL_COMMENTLINE) || (st =? SCE_SQL_COMMENTLINEDOC) then
    if atLineStart sc then SetState sc SCE_SQL_DEFAULT else sc
  else if st =? SCE_SQL_CHARACTER then
    if sqlBackslashEscapes && (ch sc =? 92) then Forward doc sc
    else if ch sc =? 39 then
      if chNext sc =? 34 then Forward doc sc
      else ForwardSetState doc sc SCE_SQL_DEFAULT
    else sc
  else if st =? SCE_SQL_STRING then
    if ch sc =? 92 then
      (* Escape sequence *)
      Forward doc sc
    else if ch sc =? 34 then
      if chNext sc =? 34 then Forward doc sc
      else ForwardSetState doc sc SCE_SQL_DEFAULT
    else sc
  else sc.

(** "Determine if a new state should be entered." *)
Definition enter_step (sc : StyleContext) : StyleContext :=
  if state sc =? SCE_SQL_DEFAULT then
    let c := ch sc in
    let cn := chNext sc in
    if (c =? 48) && ((cn =? 120) || (cn =? 88)) then
      Forward doc (SetState sc SCE_SQL_HEX)
    else if ((c =? 120) || (c =? 88)) && ((cn =? 34) || (cn =? 39)) then
      Forward doc (SetState sc SCE_SQL_HEX2)
    else if (c =? 48) && ((cn =? 98) || (cn =? 66)) then
      Forward doc (SetState sc SCE_SQL_BIT)
    else if ((c =? 98) || (c =? 66)) && (cn =? 39) then
      Forward doc (SetState sc SCE_SQL_BIT2)
    else if IsADigit c || ((c =? 46) && IsADigit cn) then SetState sc SCE_SQL_NUMBER
    else if (c =? 64) && iswordstart cn then SetState sc SCE_SQL_VARIABLE
    else if iswordstart c then SetState sc SCE_SQL_IDENTIFIER
    else if (c =? 96) && sqlBackticksIdentifier then SetState sc SCE_SQL_QUOTEDIDENTIFIER
    else if Match sc 47 42 then
      (* Eat the * so it isn't used for the end of the comment *)
      Forward doc (SetState sc SCE_SQL_COMMENT)
    else if Match sc 45 45 then SetState sc SCE_SQL_COMMENTLINE
    else if (c =? 35) && sqlNumbersignComment then SetState sc SCE_SQL_COMMENTLINEDOC
    else if c =? 39 then SetState sc SCE_SQL_CHARACTER
    else if c =? 34 then SetState sc SCE_SQL_STRING
    else if isoperator c then SetState sc SCE_SQL_OPERATOR
    else sc
  else sc.

(** [for (; sc.More(); sc.Forward(), offset++) { ... }] *)
Fixpoint colourise_loop (fuel : nat) (sc : StyleContext) : StyleContext :=
  match fuel with
  | O => sc
  | S f =>
      if More sc then colourise_loop f (Forward doc (enter_step (terminate_step sc)))
      else sc
  end.

(** [if (sc.state == SCE_SQL_IDENTIFIER) goto _label_identifier;]: the jump
    re-enters the loop body at the identifier case, then runs the rest of
    the body, the [Forward] and the loop test. *)
Fixpoint identifier_tail (fuel : nat) (sc : StyleContext) : StyleContext :=
  match fuel with
  | O => sc
  | S f =>
      if state sc =? SCE_SQL_IDENTIFIER then
        identifier_tail f (colourise_loop (S (Z.to_nat (endPos sc - currentPos sc)))
                             (Forward doc (enter_step (identifier_case sc))))
      else sc
  end.

(** [ColouriseSqlDoc(startPos, length, initStyle, keywordlists, styler)]:
    the styles of the styler afterwards. *)
Definition ColouriseSqlDoc (startPos length initStyle : Z) (styles0 : buf) : buf :=
  let sc := new_sc doc startPos length initStyle styles0 in
  let sc := colourise_loop (S (Z.to_nat length)) sc in
  let sc := identifier_tail 2 sc in
  styles (Complete sc).

End Colourise.

(** *** [FoldSqlDoc] *)

Definition IsStreamCommentStyle (style : Z) : bool := style =? SCE_SQL_COMMENT.
Definition IsCommentStyle (style : Z) : bool :=
  (style =? SCE_SQL_COMMENT) || (style =? SCE_SQL_COMMENTLINE)
  || (style =? SCE_SQL_COMMENTLINEDOC).

(** [strcmp(s, w) == 0] *)
Definition kw (s : list Z) (w : string) : bool := RE.list_Z_eqb s (RE.bytes w).

(** The locals of [FoldSqlDoc] the keyword block writes. *)
Record KW := mkKW {
  k_levelCurrent : Z; k_levelNext : Z; k_endFound : bool;
  k_isUnfoldingIgnored : bool; k_statementFound : bool; k_sqlStatesCurrentLine : Z
}.

(** All the locals of [FoldSqlDoc] that live across iterations, the
    [sqlStates] object, the styler's fold levels, and the log of the fold
    words computed at each line end: [(line, levelUse, levelNext, lev)]. *)
Record FoldVars := mkFV {
  lineCurrent : Z; levelCurrent : Z; levelNext : Z;
  f_chNext : Z; f_style : Z; f_styleNext : Z;
  endFound : bool; isUnfoldingIgnored : bool; statementFound : bool;
  sqlStatesCurrentLine : Z; visibleChars : Z;
  sqlStates : list Z; levels : buf; fold_log : list (Z * Z * Z * Z)
}.

(** A value brought into the range of a 32-bit two's-complement [int]. *)
Definition int32 (z : Z) : Z :=
  let m := z mod 2 ^ 32 in if m <? 2 ^ 31 then m else m - 2 ^ 32.

Section Fold.

(** The styler: [styler[pos]], [styler.SafeGetCharAt(pos)],
    [styler.StyleAt(pos)], [styler.GetLine(pos)], and [IsCommentLine(line)]
    (the host's [IsLexCommentLine] over the styles). *)
Variables chAt safeChAt StyleAt GetLine : Z -> Z.
Variable IsCommentLine : Z -> bool.
(** [fold.sql.only.begin], [fold.comment], [fold.sql.at.else], [fold.compact]. *)
Variables foldOnlyBegin foldComment foldAtElse foldCompact : bool.

(** The keyword of at most 9 chars starting at [i], lowered; [""] when
    10 word chars follow. *)
Fixpoint kw_chars (k : nat) (i : Z) : list Z * nat :=
  match k with
  | O => ([], O)
  | S k' =>
      if iswordchar (chAt i) then
        let '(s, j) := kw_chars k' (i + 1) in (tolower (chAt i) :: s, S j)
      else ([], O)
  end.

Definition fold_keyword (i : Z) : list Z :=
  let MAX_KW_LEN := 9%nat in
  let '(s, j) := kw_chars (S MAX_KW_LEN) i in
  if Nat.eqb j (S MAX_KW_LEN) then [] else s.

(** The body of [if (style == SCE_SQL_WORD && stylePrev != SCE_SQL_WORD)]. *)
Definition keyword_block (s : list Z) (k : KW) : KW :=
  let '(mkKW lc ln endFound unf stmt st) := k in
  if negb foldOnlyBegin && kw s "select" then
    mkKW lc ln endFound unf stmt (IntoSelectStatementOrAssignment st true)
  else if kw s "if" then
    if endFound then
      mkKW lc (if foldOnlyBegin && negb unf then ln + 1 else ln) false unf stmt st
    else
      let st := if negb foldOnlyBegin then IntoCondition st true else st in
      mkKW (if ln <? lc then ln else lc) ln endFound unf stmt st
  else if negb foldOnlyBegin && kw s "then" && IsIntoCondition st then
    let st := IntoCondition st false in
    if negb foldOnlyBegin then
      let lc := if ln <? lc then ln else lc in
      let ln := if negb stmt then ln + 1 else ln in
      mkKW lc ln endFound unf true st
    else mkKW (if ln <? lc then ln else lc) ln endFound unf stmt st
  else if kw s "loop" || kw s "case" || kw s "while" || kw s "repeat" then
    if endFound then
      let ln := if foldOnlyBegin && negb unf then ln + 1 else ln in
      let '(st, ln) :=
        if negb foldOnlyBegin && kw s "case" then
          let st := EndCaseBlock st in
          (st, if negb (IsCaseMergeWithoutWhenFound st) then ln - 1 else ln)
        else (st, ln) in
      mkKW lc ln false unf stmt st
    else if negb foldOnlyBegin then
      let st :=
        if kw s "case" then CaseMergeWithoutWhenFound (BeginCaseBlock st) true else st in
      let lc := if ln <? lc then ln else lc in
      let ln := if negb stmt then ln + 1 else ln in
      mkKW lc ln endFound unf true st
    else mkKW (if ln <? lc then ln else lc) ln endFound unf stmt st
  else if negb foldOnlyBegin && (foldAtElse && negb stmt) && kw s "elsif" then
    mkKW (lc - 1) (ln - 1) endFound unf stmt (IntoCondition st true)
  else if negb foldOnlyBegin && (foldAtElse && negb stmt) && kw s "else" then
    if IsIntoCaseBlock st && IsCaseMergeWithoutWhenFound st then
      mkKW lc (ln + 1) endFound unf true (CaseMergeWithoutWhenFound st false)
    else mkKW (lc - 1) ln endFound unf true st
  else if kw s "begin" || kw s "start" then
    mkKW lc (ln + 1) endFound unf stmt (IntoDeclareBlock st false)
  else if kw s "end" || kw s "endif" then
    let ln := ln - 1 in
    let ln := if IsIntoSelectStatementOrAssignment st && negb (IsCaseMergeWithoutWhenFound st)
              then ln - 1 else ln in
    if ln <? SC_FOLDLEVELBASE then mkKW lc SC_FOLDLEVELBASE true true stmt st
    else mkKW lc ln true unf stmt st
  else if negb foldOnlyBegin && kw s "when" && negb (IsIgnoreWhen st)
          && negb (IsIntoExceptionBlock st)
          && (IsIntoCaseBlock st || IsIntoMergeStatement st) then
    let st := IntoCondition st true in
    if negb stmt then
      let '(lc, ln) :=
        if negb (IsCaseMergeWithoutWhenFound st) then (lc - 1, ln - 1) else (lc, ln) in
      mkKW lc ln endFound unf stmt (CaseMergeWithoutWhenFound st false)
    else mkKW lc ln endFound unf stmt st
  else if negb foldOnlyBegin && kw s "exit" then
    mkKW lc ln endFound unf stmt (IgnoreWhen st true)
  else if negb foldOnlyBegin && negb (IsIntoDeclareBlock st) && kw s "exception" then
    mkKW lc ln endFound unf stmt (IntoExceptionBlock st true)
  else if negb foldOnlyBegin
          && (kw s "declare" || kw s "function" || kw s "procedure" || kw s "package") then
    mkKW lc ln endFound unf stmt (IntoDeclareBlock st true)
  else if negb foldOnlyBegin && kw s "merge" then
    mkKW lc (ln + 1) endFound unf true
      (CaseMergeWithoutWhenFound (IntoMergeStatement st true) true)
  else k.

(** The fold word stored at a line end: [int lev = levelUse | levelNext << 16]
    and the flags. The shift is done on a 32-bit [int] and wraps
    ([int32]); [levelCurrent] and [levelNext] move by one per byte, so they
    stay inside [int] for any range shorter than [2^31] bytes. *)
Definition fold_word (levelUse levelNext visibleChars : Z) : Z :=
  let lev := Z.lor levelUse (int32 (Z.shiftl levelNext 16)) in
  let lev := if (visibleChars =? 0) && foldCompact then Z.lor lev SC_FOLDLEVELWHITEFLAG else lev in
  if levelUse <? levelNext then Z.lor lev SC_FOLDLEVELHEADERFLAG else lev.

(** One iteration of [for (unsigned int i = startPos; i < endPos; i++)]. *)
Definition fold_step (endPos i : Z) (v : FoldVars) : FoldVars :=
  let ch := f_chNext v in
  let chNext := safeChAt (i + 1) in
  let stylePrev := f_style v in
  let style := f_styleNext v in
  let styleNext := StyleAt (i + 1) in
  let atEOL := ((ch =? 13) && negb (chNext =? 10)) || (ch =? 10) in
  let '(st, endFound, unf) :=
    if atEOL || (negb (IsCommentStyle style) && (ch =? 59)) then
      let st := if endFound v then IntoExceptionBlock (sqlStatesCurrentLine v) false
                else sqlStatesCurrentLine v in
      (st, false, false)
    else (sqlStatesCurrentLine v, endFound v, isUnfoldingIgnored v) in
  let '(st, ln) :=
    if negb (IsCommentStyle style) && (ch =? 59) then
      let '(st, ln) :=
        if IsIntoMergeStatement st then
          let ln := if negb (IsCaseMergeWithoutWhenFound st) then levelNext v - 1
                    else levelNext v in
          (IntoMergeStatement st false, ln - 1)
        else (st, levelNext v) in
      let st := if IsIntoSelectStatementOrAssignment st
                then IntoSelectStatementOrAssignment st false else st in
      (st, ln)
    else (st, levelNext v) in
  let st := if (ch =? 58) && (chNext =? 61) && negb (IsCommentStyle style)
            then IntoSelectStatementOrAssignment st true else st in
  let ln :=
    if foldComment && IsStreamCommentStyle style then
      if negb (IsStreamCommentStyle stylePrev) then ln + 1
      else if negb (IsStreamCommentStyle styleNext) && negb atEOL then ln - 1
      else ln
    else ln in
  let line := lineCurrent v in
  let ln :=
    if foldComment && atEOL && IsCommentLine line then
      if negb (IsCommentLine (line - 1)) && IsCommentLine (line + 1) then ln + 1
      else if IsCommentLine (line - 1) && negb (IsCommentLine (line + 1)) then ln - 1
      else ln
    else ln in
  let '(lc, ln, st) :=
    let lc := levelCurrent v in
    if style =? SCE_SQL_OPERATOR then
      if ch =? 40 then ((if ln <? lc then lc - 1 else lc), ln + 1, st)
      else if ch =? 41 then (lc, ln - 1, st)
      else if foldOnlyBegin && (ch =? 59) then (lc, ln, IgnoreWhen st false)
      else (lc, ln, st)
    else (lc, ln, st) in
  let k := mkKW lc ln endFound unf (statementFound v) st in
  let k := if (style =? SCE_SQL_WORD) && negb (stylePrev =? SCE_SQL_WORD)
           then keyword_block (fold_keyword i) k else k in
  let vis := if negb (isspacechar ch) then visibleChars v + 1 else visibleChars v in
  if atEOL || (i =? endPos - 1) then
    let levelUse := k_levelCurrent k in
    let lev := fold_word levelUse (k_levelNext k) vis in
    let lvls := if negb (lev =? rd (levels v) line) then wr (levels v) line lev
                else levels v in
    let line' := line + 1 in
    let sts := if negb foldOnlyBegin
               then SQLStates_Set (sqlStates v) line' (k_sqlStatesCurrentLine k)
               else sqlStates v in
    mkFV line' (k_levelNext k) (k_levelNext k) chNext style styleNext
      (k_endFound k) (k_isUnfoldingIgnored k) false (k_sqlStatesCurrentLine k) 0
      sts lvls (fold_log v ++ [(line, levelUse, k_levelNext k, lev)])
  else
    mkFV line (k_levelCurrent k) (k_levelNext k) chNext style styleNext
      (k_endFound k) (k_isUnfoldingIgnored k) (k_statementFound k)
      (k_sqlStatesCurrentLine k) vis (sqlStates v) (levels v) (fold_log v).

Fixpoint fold_loop (k : nat) (endPos i : Z) (v : FoldVars) : FoldVars :=
  match k with
  | O => v
  | S k' => fold_loop k' endPos (i + 1) (fold_step endPos i v)
  end.

(** [FoldSqlDoc(startPos, length, initStyle, _, styler)] with the
    [fold] property [fold] and the styler's fold levels [levels0]: the
    final locals, whose [levels] are the styler's levels afterwards. *)
Definition FoldSqlDoc (fold : Z) (startPos length initStyle : Z) (levels0 : buf) : FoldVars :=
  let endPos := startPos + length in
  let line := GetLine startPos in
  let lc := if 0 <? line then Z.shiftr (rd levels0 (line - 1)) 16 else SC_FOLDLEVELBASE in
  let st := if foldOnlyBegin then SQLStates_ForLine [] line else 0 in
  let v := mkFV line lc lc (chAt startPos) initStyle (StyleAt startPos)
             false false false st 0 [] levels0 [] in
  if fold =? 0 then v
  else fold_loop (Z.to_nat length) endPos startPos v.

End Fold.

(** *** A concrete host: a document held in one byte list *)

(** The length of the document. *)
Definition doc_len (d : list Z) : Z := Z.of_nat (List.length d).

(** [styler.SafeGetCharAt(i)] with its default [' ']. *)
Definition doc_safe (d : list Z) (i : Z) : Z :=
  if (0 <=? i) && (i <? doc_len d) then mem_at d i else 32.

(** [styler.GetLine(pos)]: the number of ['\n'] before [pos]. *)
Definition doc_line (d : list Z) (pos : Z) : Z :=
  Z.of_nat (List.length (filter (fun c => c =? 10) (firstn (Z.to_nat pos) d))).

(** The styles [ColouriseSqlDoc] gives the whole document, from style 0,
    with only the [keywords] list (and [lexer.sql.backticks.identifier],
    [lexer.sql.numbersign.comment], [lexer.sql.backslash.escapes] on and
    [lexer.sql.allow.dotted.word] off). *)
Definition doc_styles (d : list Z) (keywords : list Z -> bool) : buf :=
  ColouriseSqlDoc d keywords (fun _ => false) (fun _ => false) true true true false
    0 (doc_len d) 0 zeros.

(** [FoldSqlDoc] over the whole document styled by [doc_styles], with
    [fold=1], [fold.comment=0] and the given [fold.sql.only.begin],
    [fold.sql.at.else] and [fold.compact]. *)
Definition fold_doc (d : list Z) (keywords : list Z -> bool)
    (foldOnlyBegin foldAtElse foldCompact : bool) : FoldVars :=
  FoldSqlDoc (mem_at d) (doc_safe d) (doc_styles d keywords) (doc_line d)
    (fun _ => false) foldOnlyBegin false foldAtElse foldCompact 1 0 (doc_len d) 0 zeros.

(** The keyword list holding [else]. *)
Definition keywords_else (s : list Z) : bool := kw s "else".

(** The keyword list holding [elsif], [when] and [merge]. *)
Definition keywords_branch (s : list Z) : bool := kw s "elsif" || kw s "when" || kw s "merge".


(** The single-bit flags of [SQLStates] (all masks but the nesting count). *)
Definition flag_masks : list Z :=
  [MASK_INTO_SELECT_STATEMENT_OR_ASSIGNEMENT; MASK_CASE_MERGE_WITHOUT_WHEN_FOUND;
   MASK_MERGE_STATEMENT; MASK_INTO_DECLARE; MASK_INTO_EXCEPTION; MASK_INTO_CONDITION;
   MASK_IGNORE_WHEN].

End SQL.

(** * Properties *)

(** ** Invariants of the engine *)

Module REInv.

Import RE.

Lemma rd_wr : forall m k v j, rd (wr m k v) j = if j =? k then v else rd m j.
Proof. reflexivity. Qed.

Lemma clo_loop_prog :
  forall pm m are ap op offset,
  (forall st a b c d r, pm st a b c d = Some r -> prog_part (snd r) = prog_part st) ->
  forall k llp lp x st r,
  clo_loop pm m are ap op offset k llp lp x st = Some r -> prog_part (snd r) = prog_part st.
Proof.
  intros pm m are ap op offset Hpm k. induction k as [|k IH]; intros llp lp x st r H;
    simpl in H; [discriminate|].
  destruct (are <=? llp).
  - destruct (pm st llp ap (-1) (Some (-1))) as [[[q qoff] st1]|] eqn:Hq; [|discriminate].
    apply Hpm in Hq. simpl in Hq. rewrite <- Hq.
    destruct (negb (q =? NOTFOUND)); [destruct (negb (op =? LCLO))|];
      (destruct (rd m ap =? END); [inversion H; reflexivity|]);
      try (inversion H; reflexivity); eapply IH; eassumption.
  - destruct (rd m ap =? EOT).
    + destruct (pm st lp ap 1 None) as [[[q qoff] st1]|] eqn:Hq; [|discriminate].
      apply Hpm in Hq. inversion H; subst. exact Hq.
    + inversion H; reflexivity.
Qed.

Lemma PMatch_prog :
  forall iswordc ci endp fuel e lp ap md off r,
  PMatch iswordc ci endp fuel e lp ap md off = Some r -> prog_part (snd r) = prog_part e.
Proof.
  intros iswordc ci endp fuel. induction fuel as [|f IH]; intros e lp ap md off r H;
    simpl in H; [discriminate|].
  unfold notfound in H.
  repeat match type of H with
  | (if ?c then _ else _) = _ => destruct c
  | Some _ = Some _ => inversion H; subst; reflexivity
  | PMatch _ _ _ _ _ _ _ _ _ = _ => apply IH in H; exact H
  | clo_loop _ _ _ _ _ _ _ _ _ _ _ = _ =>
      eapply clo_loop_prog; [|exact H]; intros; eapply IH; eassumption
  | (match ?x with _ => _ end) = _ => destruct x eqn:?
  end.
Qed.

Lemma exec_scan_prog :
  forall iswordc ci endp fuel k e lp r,
  exec_scan iswordc ci endp fuel k e lp = Some r -> prog_part (snd r) = prog_part e.
Proof.
  intros iswordc ci endp fuel k. induction k as [|k IH]; intros e lp r H;
    simpl in H; [discriminate|].
  destruct (lp <? endp); [|inversion H; reflexivity].
  destruct (PMatch iswordc ci endp fuel e lp 0 1 (Some 1)) as [[[ep off] e1]|] eqn:Hp;
    [|discriminate].
  apply PMatch_prog in Hp. simpl in Hp. rewrite <- Hp.
  destruct (negb (ep =? NOTFOUND)); [inversion H; reflexivity|].
  eapply IH; eassumption.
Qed.

Lemma exec_finish_prog :
  forall r e0 res e1,
  (forall x, r = Some x -> prog_part (snd x) = prog_part e0) ->
  exec_finish r = Some (res, e1) -> prog_part e1 = prog_part e0.
Proof.
  intros r e0 res e1 Hr H. destruct r as [[[ep lp] e]|]; simpl in H; [|discriminate].
  specialize (Hr _ eq_refl). simpl in Hr.
  destruct (ep =? NOTFOUND); inversion H; subst; exact Hr.
Qed.

Lemma Clear_prog : forall e, prog_part (Clear e) = prog_part e.
Proof.
  intros e. unfold Clear.
  destruct (clear_from (Z.to_nat MAXTAG) 0 (bopat e) (eopat e) (pat e)) as [[bo eo] pt].
  reflexivity.
Qed.

Lemma Execute_prog :
  forall iswordc ci endp fuel e lp res e',
  Execute iswordc ci endp fuel e lp = Some (res, e') -> prog_part e' = prog_part e.
Proof.
  intros iswordc ci endp fuel e lp res e' H. unfold Execute in H.
  assert (HC : prog_part (Clear (set_bol e lp false)) = prog_part e)
    by (rewrite Clear_prog; reflexivity).
  set (e0 := Clear (set_bol e lp false)) in *. rewrite <- HC. clearbody e0.
  repeat match type of H with
  | (if ?c then _ else _) = _ => destruct c
  | Some _ = Some _ => inversion H; subst; reflexivity
  end.
  - eapply exec_finish_prog; [|exact H].
    intros x Hx. destruct (PMatch iswordc ci endp fuel e0 lp 0 1 None) as [[[ep o] e2]|] eqn:Hp;
      [|discriminate]. inversion Hx; subst. apply PMatch_prog in Hp. exact Hp.
  - eapply exec_finish_prog; [|exact H]. intros x Hx. inversion Hx; reflexivity.
  - eapply exec_finish_prog; [|exact H]. intros x Hx. eapply exec_scan_prog; exact Hx.
  - eapply exec_finish_prog; [|exact H]. intros x Hx. eapply exec_scan_prog; exact Hx.
Qed.



Lemma badpat_no_program :
  forall e st msg, sta e = NOP -> no_program (snd (badpat e st msg)).
Proof. intros e st msg H. split; [exact H | reflexivity]. Qed.

Lemma Compile_error_no_program :
  forall iswordc e p l cs f,
  fst (Compile iswordc e p l cs f) <> None -> no_program (snd (Compile iswordc e p l cs f)).
Proof.
  intros iswordc e p l cs f H. unfold Compile in *.
  destruct (cache_hit e p l f); [contradiction H; reflexivity|].
  unfold DoCompile in *.
  destruct p as [[a mem]|]; cbn [option_map snd] in *.
  - destruct (l =? 0).
    + destruct (negb (sta e =? 0)) eqn:Hs; [contradiction H; reflexivity|].
      apply negb_false_iff, Z.eqb_eq in Hs. split; [exact Hs | reflexivity].
    + match goal with |- context [compile_loop ?a ?b ?c ?d ?g ?h ?i] =>
        destruct (compile_loop a b c d g h i) as [[msg st]|st] end.
      * split; reflexivity.
      * destruct (0 <? c_tagi st); [split; reflexivity|].
        contradiction H; reflexivity.
  - destruct (negb (sta e =? 0)) eqn:Hs; [contradiction H; reflexivity|].
    apply negb_false_iff, Z.eqb_eq in Hs. split; [exact Hs | reflexivity].
Qed.

Lemma ClearCache_no_program : forall e, rd (nfa e) 0 = END -> no_program (ClearCache e).
Proof. intros e H. split; [reflexivity | exact H]. Qed.

Lemma Execute_no_program :
  forall iswordc ci endp fuel e lp res e',
  Execute iswordc ci endp fuel e lp = Some (res, e') -> no_program e -> no_program e'.
Proof.
  intros iswordc ci endp fuel e lp res e' H [H1 H2]. apply Execute_prog in H.
  unfold prog_part in H. injection H. intros. split; congruence.
Qed.

Lemma run_calls_no_program :
  forall iswordc cs e e' rs,
  run_calls iswordc e cs = Some (e', rs) ->
  last_result rs <> Some None ->
  (no_program e \/ rs <> []) -> no_program e'.
Proof.
  intros iswordc cs. induction cs as [|c cs IH]; intros e e' rs H Hl Hn; simpl in H.
  - inversion H; subst. destruct Hn as [Hn|Hn]; [exact Hn | contradiction Hn; reflexivity].
  - destruct c as [p l cs0 f | ci lp endp fuel |].
    + destruct (Compile iswordc e p l cs0 f) as [r e1] eqn:Hc.
      destruct (run_calls iswordc e1 cs) as [[e2 rs2]|] eqn:Hr; [|discriminate].
      inversion H; subst. destruct rs2 as [|r2 rs2].
      * apply (IH e1 e' []); [exact Hr | discriminate | left].
        assert (Hr0 : r <> None) by (intro; subst; apply Hl; reflexivity).
        pose proof (Compile_error_no_program iswordc e p l cs0 f) as Hp.
        rewrite Hc in Hp. apply Hp. exact Hr0.
      * apply (IH e1 e' (r2 :: rs2)); [exact Hr | exact Hl | right; discriminate].
    + destruct (Execute iswordc ci endp fuel e lp) as [[res e1]|] eqn:He; [|discriminate].
      apply (IH e1 e' rs); [exact H | exact Hl|].
      destruct Hn as [Hn|Hn]; [left; eapply Execute_no_program; eassumption | right; exact Hn].
    + apply (IH (ClearCache e) e' rs); [exact H | exact Hl|].
      destruct Hn as [[_ Hn]|Hn]; [left; apply ClearCache_no_program; exact Hn | right; exact Hn].
Qed.

Lemma last_result_In : forall rs r, last_result rs = Some r -> In r rs.
Proof.
  induction rs as [|a rs IH]; intros r H; [discriminate|].
  destruct rs as [|b rs]; simpl in H.
  - inversion H; left; reflexivity.
  - right. apply IH. exact H.
Qed.

End REInv.

Module REWf.

Import RE REInv.

(** Items, segments and the walk of [PMatch]. *)

Lemma item_lt : forall m p q, item m p q -> p < q.
Proof. intros m p q H; destruct H; unfold BITBLK; lia. Qed.

Lemma seg_le : forall m p q, seg m p q -> p <= q.
Proof. intros m p q H; induction H; [lia|]. apply item_lt in H0. lia. Qed.

Lemma item_wf : forall m p q, item m p q -> wf_prog m q -> wf_prog m p.
Proof.
  intros m p q H Hq. destruct H.
  - apply wf_single; assumption.
  - apply wf_chr; assumption.
  - apply wf_tag; assumption.
  - apply wf_ccl; assumption.
  - apply wf_clo; [assumption|]. intros n Hn. rewrite <- (H1 n Hn). exact Hq.
Qed.

Lemma seg_wf : forall m p q, seg m p q -> wf_prog m q -> wf_prog m p.
Proof.
  intros m p q H. induction H; intros Hq; [exact Hq|].
  apply IHseg. eapply item_wf; eassumption.
Qed.

Lemma item_frame : forall m m' p q, item m p q ->
  (forall a, p <= a < q -> rd m' a = rd m a) -> item m' p q.
Proof.
  intros m m' p q H Hf. destruct H.
  - apply it_single. rewrite Hf by lia. assumption.
  - apply it_chr. rewrite Hf by lia. assumption.
  - apply it_tag; rewrite Hf by lia; assumption.
  - apply it_ccl. rewrite Hf by (unfold BITBLK; lia). assumption.
  - apply it_clo; [rewrite Hf by lia; assumption|lia|].
    rewrite (Hf (p + 1)) by lia. assumption.
Qed.

Lemma seg_frame : forall m m' p q, seg m p q ->
  (forall a, p <= a < q -> rd m' a = rd m a) -> seg m' p q.
Proof.
  intros m m' p q H. induction H; intros Hf; [apply seg_nil|].
  pose proof (seg_le _ _ _ H) as Hl. pose proof (item_lt _ _ _ H0) as Hl2.
  apply seg_snoc with q.
  - apply IHseg. intros a Ha. apply Hf. lia.
  - eapply item_frame; [eassumption|]. intros a Ha. apply Hf. lia.
Qed.

Lemma item_shift : forall m m' p q d, item m p q ->
  (forall a, p <= a < q -> rd m' (a + d) = rd m a) -> item m' (p + d) (q + d).
Proof.
  intros m m' p q d H Hf. destruct H.
  - replace (p + 1 + d) with (p + d + 1) by lia. apply it_single. rewrite Hf by lia. assumption.
  - replace (p + 2 + d) with (p + d + 2) by lia. apply it_chr. rewrite Hf by lia. assumption.
  - replace (p + 2 + d) with (p + d + 2) by lia. apply it_tag; [rewrite Hf by lia; assumption|].
    replace (p + d + 1) with (p + 1 + d) by lia. rewrite Hf by lia. assumption.
  - replace (p + 1 + BITBLK + d) with (p + d + 1 + BITBLK) by lia. apply it_ccl.
    rewrite Hf by (unfold BITBLK; lia). assumption.
  - apply it_clo; [rewrite Hf by lia; assumption|lia|].
    replace (p + d + 1) with (p + 1 + d) by lia. rewrite (Hf (p + 1)) by lia.
    intros n Hn. rewrite (H1 n Hn). lia.
Qed.

Lemma item_skip : forall m p q n, item m p q -> closure_skip (rd m p) = Some n -> q = p + n - 1.
Proof.
  intros m p q n H Hs. unfold closure_skip in Hs.
  destruct H as [p Hop|p Hop|p Hop Hn|p Hop|p q Hop Hq Hc].
  - destruct (rd m p =? ANY) eqn:E; [injection Hs as <-; lia|].
    apply Z.eqb_neq in E.
    destruct (rd m p =? CHR) eqn:E2; [apply Z.eqb_eq in E2; rewrite E2 in Hop; discriminate|].
    destruct (rd m p =? CCL) eqn:E3; [apply Z.eqb_eq in E3; rewrite E3 in Hop; discriminate|].
    discriminate.
  - destruct Hop as [Hop|Hop]; rewrite Hop in Hs; vm_compute in Hs; [injection Hs as <-; lia|discriminate].
  - destruct Hop as [Hop|Hop]; rewrite Hop in Hs; vm_compute in Hs; discriminate.
  - rewrite Hop in Hs; vm_compute in Hs. injection Hs as <-. unfold BITBLK. lia.
  - exfalso. unfold is_closure_op in Hop.
    destruct (rd m p =? ANY) eqn:E; [apply Z.eqb_eq in E; rewrite E in Hop; discriminate|].
    destruct (rd m p =? CHR) eqn:E2; [apply Z.eqb_eq in E2; rewrite E2 in Hop; discriminate|].
    destruct (rd m p =? CCL) eqn:E3; [apply Z.eqb_eq in E3; rewrite E3 in Hop; discriminate|].
    discriminate.
Qed.

Lemma single_cases : forall o, is_single_op o = true ->
  o = ANY \/ o = BOL \/ o = EOL \/ o = BOW \/ o = EOW \/ o = EXP_MATCH_WORD_START \/
  o = EXP_MATCH_WORD_END \/ o = EXP_MATCH_TO_WORD_END \/ o = EXP_MATCH_TO_WORD_END_OPT.
Proof.
  intros o H. unfold is_single_op in H. simpl in H.
  repeat (apply orb_true_iff in H; destruct H as [H|H]; [apply Z.eqb_eq in H; subst; tauto|]).
  discriminate.
Qed.

Lemma closure_cases : forall o, is_closure_op o = true -> o = CLO \/ o = LCLO \/ o = CLQ.
Proof.
  intros o H. unfold is_closure_op in H.
  repeat (apply orb_true_iff in H; destruct H as [H|H]); apply Z.eqb_eq in H; subst; tauto.
Qed.

Ltac op_clash :=
  repeat match goal with
  | H : is_single_op _ = true |- _ => apply single_cases in H
  | H : is_closure_op _ = true |- _ => apply closure_cases in H
  end;
  repeat match goal with H : _ \/ _ |- _ => destruct H end;
  repeat match goal with
  | H : rd ?m ?p = ?v |- _ =>
      let o := fresh "o" in remember (rd m p) as o eqn:Eo; clear Eo; subst o
  end;
  exfalso; vm_compute in *; discriminate.

Lemma wf_next_single : forall m p, wf_prog m p -> is_single_op (rd m p) = true -> wf_prog m (p + 1).
Proof. intros m p H Hs. inversion H; subst; try assumption; op_clash. Qed.

Lemma wf_next_chr : forall m p, wf_prog m p -> rd m p = CHR \/ rd m p = REF -> wf_prog m (p + 2).
Proof. intros m p H Hs. inversion H; subst; try assumption; op_clash. Qed.

Lemma wf_next_tag : forall m p, wf_prog m p -> rd m p = BOT \/ rd m p = EOT ->
  rd m (p + 1) <> 0 /\ wf_prog m (p + 2).
Proof. intros m p H Hs. inversion H; subst; try (split; assumption); op_clash. Qed.

Lemma wf_next_ccl : forall m p, wf_prog m p -> rd m p = CCL -> wf_prog m (p + 1 + BITBLK).
Proof. intros m p H Hs. inversion H; subst; try assumption; op_clash. Qed.

Lemma wf_next_clo : forall m p, wf_prog m p -> is_closure_op (rd m p) = true ->
  forall n, closure_skip (rd m (p + 1)) = Some n -> wf_prog m (p + 1 + n).
Proof. intros m p H Hs. inversion H; subst; try assumption; op_clash. Qed.

Lemma keeps0_refl : forall e, keeps0 e e.
Proof. intros e. repeat split. Qed.

Lemma keeps0_trans : forall a b c, keeps0 a b -> keeps0 b c -> keeps0 a c.
Proof. intros a b c [H1 [H2 H3]] [H4 [H5 H6]]. repeat split; congruence. Qed.

Lemma clo_loop_keeps0 :
  forall pm m are ap op offset,
  (forall st a c d r, nfa st = m -> pm st a ap c d = Some r -> keeps0 st (snd r)) ->
  forall k llp lp x st r, nfa st = m ->
  clo_loop pm m are ap op offset k llp lp x st = Some r -> keeps0 st (snd r).
Proof.
  intros pm m are ap op offset Hpm k. induction k as [|k IH]; intros llp lp x st r Hm H;
    simpl in H; [discriminate|].
  destruct (are <=? llp).
  - destruct (pm st llp ap (-1) (Some (-1))) as [[[q qoff] st1]|] eqn:Hq; [|discriminate].
    apply Hpm in Hq; [|exact Hm]. simpl in Hq.
    assert (Hm1 : nfa st1 = m) by (destruct Hq as [_ [_ ->]]; exact Hm).
    repeat match type of H with
    | (if ?c then _ else _) = _ => destruct c
    | Some _ = Some _ => inversion H; subst; exact Hq
    | clo_loop _ _ _ _ _ _ _ _ _ _ _ = _ =>
        eapply keeps0_trans; [exact Hq|]; eapply IH; eassumption
    | (match ?x with _ => _ end) = _ => destruct x eqn:?
    end.
  - destruct (rd m ap =? EOT).
    + destruct (pm st lp ap 1 None) as [[[q qoff] st1]|] eqn:Hq; [|discriminate].
      apply Hpm in Hq; [|exact Hm]. inversion H; subst. exact Hq.
    + inversion H; subst. apply keeps0_refl.
Qed.

Lemma PMatch_keeps0 :
  forall iswordc ci endp fuel e lp ap md off r,
  wf_prog (nfa e) ap ->
  PMatch iswordc ci endp fuel e lp ap md off = Some r -> keeps0 e (snd r).
Proof.
  intros iswordc ci endp fuel. induction fuel as [|f IH]; intros e lp ap md off r Hwf H;
    simpl in H; [discriminate|].
  unfold notfound in H.
  repeat match type of H with
  | (if ?c then _ else _) = _ => destruct c eqn:?
  | Some _ = Some _ => inversion H; subst; apply keeps0_refl
  | PMatch _ _ _ _ _ _ _ _ _ = _ => idtac
  | clo_loop _ _ _ _ _ _ _ _ _ _ _ = _ => idtac
  | (match ?x with _ => _ end) = _ => destruct x eqn:?
  end.
  all: try match type of H with
  | PMatch _ _ _ _ ?e' _ ?ap' _ _ = _ =>
      let Hk := fresh "Hk" in let Hw := fresh "Hw" in
      assert (Hw : wf_prog (nfa e') ap');
      [|assert (Hk : keeps0 e e');
        [|exact (keeps0_trans _ _ _ Hk (IH _ _ _ _ _ _ Hw H))]]
  end.
  all: cbn [nfa set_match] in *.
  all: try apply keeps0_refl.
  all: repeat match goal with Ht : (_ =? _) = true |- _ => apply Z.eqb_eq in Ht end.
  all: try (replace (ap + 1 + 1) with (ap + 2) by lia; apply wf_next_chr; auto; fail).
  all: try (apply wf_next_single; [auto|]; match goal with Ht : rd _ _ = _ |- _ => rewrite Ht; reflexivity end).
  all: try (replace (ap + 1 + BITBLK) with (ap + 1 + BITBLK) by lia; apply wf_next_ccl; auto; fail).
  all: try (replace (ap + 1 + 1) with (ap + 2) by lia;
             apply (wf_next_tag _ _ Hwf); auto; fail).
  all: try (match goal with |- keeps0 ?e0 (set_match ?e0 _ _ _) => idtac end;
    assert (Hn : rd (nfa e) (ap + 1) <> 0) by (apply (wf_next_tag _ _ Hwf); auto);
    unfold keeps0, set_match; cbn [bopat eopat nfa]; rewrite !rd_wr;
    destruct (0 =? rd (nfa e) (ap + 1)) eqn:E0;
      [apply Z.eqb_eq in E0; congruence|repeat split]).
  all: try (apply wf_next_single; [auto|];
    match goal with Ht : ((_ =? _) || (_ =? _)) = true |- _ =>
      apply orb_true_iff in Ht; destruct Ht as [Ht|Ht]; apply Z.eqb_eq in Ht;
      rewrite Ht; reflexivity end).
  all: try match type of H with clo_loop _ _ _ _ _ _ _ _ _ _ _ = _ =>
    match type of Heqo with _ = Some (?z, ?n) =>
    assert (Hs : closure_skip (rd (nfa e) (ap + 1)) = Some n)
      by (revert Heqo; unfold closure_skip;
          destruct (rd (nfa e) (ap + 1) =? ANY); [intros Hq; injection Hq; intros; subst; reflexivity|];
          destruct (rd (nfa e) (ap + 1) =? CHR); [intros Hq; injection Hq; intros; subst; reflexivity|];
          destruct (rd (nfa e) (ap + 1) =? CCL); [intros Hq; injection Hq; intros; subst; reflexivity|];
          discriminate);
    assert (Hc : is_closure_op (rd (nfa e) ap) = true)
      by (revert Heqb13; unfold is_closure_op;
          destruct (rd (nfa e) ap =? LCLO), (rd (nfa e) ap =? CLQ), (rd (nfa e) ap =? CLO);
          simpl; auto);
    eapply clo_loop_keeps0; [|reflexivity|exact H];
    intros st a c d r0 Hm Hp;
    apply (IH st a (ap + 1 + n) c d r0); [rewrite Hm; apply (wf_next_clo _ _ Hwf Hc _ Hs)|exact Hp]
    end end.
  all: injection H as <-; unfold keeps0, set_match; cbn; repeat split.
Qed.

Lemma Clear_keeps_nfa : forall e, nfa (Clear e) = nfa e.
Proof.
  intros e. unfold Clear.
  destruct (clear_from (Z.to_nat MAXTAG) 0 (bopat e) (eopat e) (pat e)) as [[bo eo] pt].
  reflexivity.
Qed.

Lemma Clear_slot0 : forall e,
  rd (bopat (Clear e)) 0 = NOTFOUND /\ rd (eopat (Clear e)) 0 = NOTFOUND.
Proof. intros e. destruct e. split; reflexivity. Qed.

Lemma exec_scan_keeps0 :
  forall iswordc ci endp fuel k e lp r,
  wf_prog (nfa e) 0 ->
  exec_scan iswordc ci endp fuel k e lp = Some r -> keeps0 e (snd r).
Proof.
  intros iswordc ci endp fuel k. induction k as [|k IH]; intros e lp r Hw H;
    simpl in H; [discriminate|].
  destruct (lp <? endp); [|inversion H; apply keeps0_refl].
  destruct (PMatch iswordc ci endp fuel e lp 0 1 (Some 1)) as [[[ep off] e1]|] eqn:Hp;
    [|discriminate].
  apply PMatch_keeps0 in Hp; [|exact Hw]. simpl in Hp.
  destruct (negb (ep =? NOTFOUND)); [inversion H; subst; exact Hp|].
  apply (keeps0_trans _ _ _ Hp). eapply IH; [|exact H].
  destruct Hp as [_ [_ ->]]. exact Hw.
Qed.

Lemma exec_finish_keeps0 :
  forall r e0 e1,
  (forall x, r = Some x -> keeps0 e0 (snd x)) ->
  exec_finish r = Some (0, e1) -> keeps0 e0 e1.
Proof.
  intros r e0 e1 Hr H. destruct r as [[[ep lp] e]|]; simpl in H; [|discriminate].
  specialize (Hr _ eq_refl). simpl in Hr.
  destruct (ep =? NOTFOUND); inversion H; subst; exact Hr.
Qed.

Lemma Execute_fail_slot0 :
  forall iswordc ci endp fuel e lp e',
  wf_prog (nfa e) 0 ->
  Execute iswordc ci endp fuel e lp = Some (0, e') ->
  rd (bopat e') 0 = NOTFOUND /\ rd (eopat e') 0 = NOTFOUND.
Proof.
  intros iswordc ci endp fuel e lp e' Hw H. unfold Execute in H.
  assert (Hn : nfa (Clear (set_bol e lp false)) = nfa e)
    by (rewrite Clear_keeps_nfa; reflexivity).
  pose proof (Clear_slot0 (set_bol e lp false)) as Hs.
  set (e0 := Clear (set_bol e lp false)) in *. clearbody e0.
  rewrite <- Hn in Hw.
  assert (Hk : keeps0 e0 e'); [|destruct Hk as [H1 [H2 _]]; rewrite H1, H2; exact Hs].
  repeat match type of H with
  | (if ?c then _ else _) = _ => destruct c
  | Some _ = Some _ => inversion H; subst; apply keeps0_refl
  end.
  - eapply exec_finish_keeps0; [|exact H].
    intros x Hx. destruct (PMatch iswordc ci endp fuel e0 lp 0 1 None) as [[[ep o] e2]|] eqn:Hp;
      [|discriminate]. inversion Hx; subst. apply PMatch_keeps0 in Hp; [exact Hp|exact Hw].
  - eapply exec_finish_keeps0; [|exact H]. intros x Hx. inversion Hx; apply keeps0_refl.
  - eapply exec_finish_keeps0; [|exact H]. intros x Hx. eapply exec_scan_keeps0; [exact Hw|exact Hx].
  - eapply exec_finish_keeps0; [|exact H]. intros x Hx. eapply exec_scan_keeps0; [exact Hw|exact Hx].
Qed.

(** The program [DoCompile] leaves is well formed. *)

Lemma cinv_seg_mp : forall st, cinv st -> seg (c_nfa st) 0 (c_mp st).
Proof.
  intros st [Hs [[Hi|[He _]] _]].
  - eapply seg_snoc; eassumption.
  - rewrite <- He. exact Hs.
Qed.

Lemma appended_cinv1 : forall st st1, cinv st -> appended st st1 -> tags_ok st1 ->
  cinv1 (with_sp st1 (c_mp st)).
Proof.
  intros st st1 Hc [Hf Hi] Ht. unfold cinv1; cbn.
  split; [|split; [exact Hi|exact Ht]].
  apply (seg_frame (c_nfa st)); [apply cinv_seg_mp; exact Hc|].
  intros a Ha. apply Hf. lia.
Qed.

Lemma cinv1_with_ip : forall st i p, cinv1 st -> cinv (with_ip st i p).
Proof. intros st i p [H1 [H2 H3]]. split; [exact H1|split; [left; exact H2|exact H3]]. Qed.

Lemma rd_emit : forall st v a, rd (c_nfa (emit st v)) a = if a =? c_mp st then v else rd (c_nfa st) a.
Proof. intros. unfold emit, with_nfa_mp; cbn. apply rd_wr. Qed.

Lemma emit_bits_spec : forall k n mask st,
  c_mp (emit_bits k n mask st) = c_mp st + Z.of_nat k
  /\ (forall a, a < c_mp st -> rd (c_nfa (emit_bits k n mask st)) a = rd (c_nfa st) a)
  /\ c_tagi (emit_bits k n mask st) = c_tagi st
  /\ c_tagc (emit_bits k n mask st) = c_tagc st
  /\ c_tagstk (emit_bits k n mask st) = c_tagstk st
  /\ c_sp (emit_bits k n mask st) = c_sp st.
Proof.
  induction k as [|k IH]; intros n mask st; cbn [emit_bits].
  - repeat split; try lia; auto.
  - destruct (IH (n + 1) mask (with_bt (emit st (Z.lxor mask (rd (c_bt st) n)))
                 (wr (c_bt (emit st (Z.lxor mask (rd (c_bt st) n)))) n 0)))
      as [H1 [H2 [H3 [H4 [H5 H6]]]]].
    rewrite H1, H3, H4, H5, H6. cbn [with_bt emit with_nfa_mp c_mp c_tagi c_tagc c_tagstk c_sp]. repeat split; try lia.
    intros a Ha. rewrite H2 by (cbn; lia). unfold with_bt; cbn [c_nfa]. rewrite rd_emit.
    destruct (a =? c_mp st) eqn:E; [apply Z.eqb_eq in E; lia|reflexivity].
Qed.

Lemma shift_down_spec : forall k m b a,
  rd (shift_down k m b) a =
  if (m - Z.of_nat k <? a) && (a <=? m) then rd b (a - 1) else rd b a.
Proof.
  induction k as [|k IH]; intros m b a; cbn [shift_down].
  - destruct ((m - Z.of_nat 0 <? a) && (a <=? m)) eqn:E; [|reflexivity].
    apply andb_true_iff in E; destruct E as [E1 E2]; apply Z.ltb_lt in E1; apply Z.leb_le in E2; lia.
  - rewrite IH, !rd_wr.
    destruct (m - 1 - Z.of_nat k <? a) eqn:E1, (a <=? m - 1) eqn:E2,
             (m - Z.of_nat (S k) <? a) eqn:E3, (a <=? m) eqn:E4;
    rewrite ?Z.ltb_lt, ?Z.ltb_ge, ?Z.leb_le, ?Z.leb_gt in *; cbn;
    try (exfalso; lia);
    repeat match goal with |- context [?x =? ?y] =>
      destruct (x =? y) eqn:?; rewrite ?Z.eqb_eq, ?Z.eqb_neq in *; try (exfalso; lia) end;
    try reflexivity; f_equal; lia.
Qed.

Lemma copy_fwd_spec : forall k src dst m a, src + Z.of_nat k <= dst ->
  rd (copy_fwd k src dst m) a =
  if (dst <=? a) && (a <? dst + Z.of_nat k) then rd m (a - dst + src) else rd m a.
Proof.
  induction k as [|k IH]; intros src dst m a Hk; cbn [copy_fwd].
  - destruct ((dst <=? a) && (a <? dst + Z.of_nat 0)) eqn:E; [|reflexivity].
    apply andb_true_iff in E; destruct E as [E1 E2]; apply Z.leb_le in E1; apply Z.ltb_lt in E2; lia.
  - rewrite IH by lia. rewrite !rd_wr.
    destruct (dst + 1 <=? a) eqn:E1, (a <? dst + 1 + Z.of_nat k) eqn:E2,
             (dst <=? a) eqn:E3, (a <? dst + Z.of_nat (S k)) eqn:E4;
    rewrite ?Z.ltb_lt, ?Z.ltb_ge, ?Z.leb_le, ?Z.leb_gt in *; cbn;
    try (exfalso; lia);
    repeat match goal with |- context [?x =? ?y] =>
      destruct (x =? y) eqn:?; rewrite ?Z.eqb_eq, ?Z.eqb_neq in *; try (exfalso; lia) end;
    try reflexivity; try (f_equal; lia).
Qed.

Lemma wrap_ok : forall b lp mp opc, item b lp mp -> is_closure_op opc = true ->
  (forall a, a < lp ->
     rd (wr (shift_down (Z.to_nat (mp + 1 - lp)) (mp + 1) (wr (wr b mp END) (mp + 1) END)) lp opc) a
     = rd b a)
  /\ item (wr (shift_down (Z.to_nat (mp + 1 - lp)) (mp + 1) (wr (wr b mp END) (mp + 1) END)) lp opc)
       lp (mp + 2).
Proof.
  intros b lp mp opc Hi Hc. pose proof (item_lt _ _ _ Hi) as Hlt. split.
  - intros a Ha. rewrite rd_wr, shift_down_spec, !rd_wr.
    rewrite Z2Nat.id by lia.
    destruct (a =? lp) eqn:E1; [apply Z.eqb_eq in E1; lia|].
    destruct ((mp + 1 - (mp + 1 - lp) <? a) && (a <=? mp + 1)) eqn:E2.
    + apply andb_true_iff in E2; destruct E2 as [E2 _]; apply Z.ltb_lt in E2; lia.
    + destruct (a =? mp + 1) eqn:E3; [apply Z.eqb_eq in E3; lia|].
      destruct (a =? mp) eqn:E4; [apply Z.eqb_eq in E4; lia|reflexivity].
  - apply it_clo.
    + rewrite rd_wr, Z.eqb_refl. exact Hc.
    + lia.
    + intros n Hn. rewrite rd_wr, shift_down_spec, !rd_wr in Hn.
      rewrite Z2Nat.id in Hn by lia.
      destruct (lp + 1 =? lp) eqn:E1; [apply Z.eqb_eq in E1; lia|].
      destruct ((mp + 1 - (mp + 1 - lp) <? lp + 1) && (lp + 1 <=? mp + 1)) eqn:E2.
      * replace (lp + 1 - 1) with lp in Hn by lia.
        destruct (lp =? mp + 1) eqn:E3; [apply Z.eqb_eq in E3; lia|].
        destruct (lp =? mp) eqn:E4; [apply Z.eqb_eq in E4; lia|].
        pose proof (item_skip _ _ _ _ Hi Hn). lia.
      * rewrite andb_false_iff, Z.ltb_ge, Z.leb_gt in E2. lia.
Qed.

Lemma tags_ok_same : forall st st', tags_ok st -> same_tags st st' -> tags_ok st'.
Proof. intros st st' [H1 H2] [E1 [E2 E3]]. split; [lia|]. rewrite E1, E3. exact H2. Qed.

Lemma app_single : forall st0 st v, c_mp st = c_mp st0 -> c_nfa st = c_nfa st0 ->
  is_single_op v = true -> appended st0 (emit st v).
Proof.
  intros st0 st v Hm Hn Hv. split.
  - intros a Ha. rewrite rd_emit, Hn. destruct (a =? c_mp st) eqn:E; [apply Z.eqb_eq in E; lia|reflexivity].
  - unfold emit, with_nfa_mp; cbn [c_nfa c_mp]. rewrite <- Hm. apply it_single.
    rewrite rd_wr, Z.eqb_refl. exact Hv.
Qed.

Lemma app_two : forall st0 st v c, c_mp st = c_mp st0 -> c_nfa st = c_nfa st0 ->
  (v = CHR \/ v = REF \/ ((v = BOT \/ v = EOT) /\ c <> 0)) -> appended st0 (emit (emit st v) c).
Proof.
  intros st0 st v c Hm Hn Hv. split.
  - intros a Ha. rewrite !rd_emit, Hn. cbn [emit with_nfa_mp c_mp].
    destruct (a =? c_mp st + 1) eqn:E; [apply Z.eqb_eq in E; lia|].
    destruct (a =? c_mp st) eqn:E'; [apply Z.eqb_eq in E'; lia|reflexivity].
  - unfold emit, with_nfa_mp; cbn [c_nfa c_mp]. rewrite <- Hm.
    replace (c_mp st + 1 + 1) with (c_mp st + 2) by lia.
    assert (H0 : rd (wr (wr (c_nfa st) (c_mp st) v) (c_mp st + 1) c) (c_mp st) = v)
      by (rewrite !rd_wr, Z.eqb_refl; destruct (c_mp st =? c_mp st + 1) eqn:E;
          [apply Z.eqb_eq in E; lia|reflexivity]).
    destruct Hv as [Hv|[Hv|[Hv Hc]]].
    + apply it_chr. left. congruence.
    + apply it_chr. right. congruence.
    + apply it_tag; [destruct Hv; [left|right]; congruence|].
      rewrite rd_wr, Z.eqb_refl. exact Hc.
Qed.

Lemma app_ccl : forall st0 stc mask, c_mp stc = c_mp st0 + 1 ->
  rd (c_nfa stc) (c_mp st0) = CCL ->
  (forall a, a < c_mp st0 -> rd (c_nfa stc) a = rd (c_nfa st0) a) ->
  appended st0 (emit_bitset mask stc).
Proof.
  intros st0 stc mask Hm Hc Hf. unfold emit_bitset.
  destruct (emit_bits_spec (Z.to_nat BITBLK) 0 mask stc) as [H1 [H2 _]]. split.
  - intros a Ha. rewrite H2 by lia. apply Hf. exact Ha.
  - rewrite H1, Hm. change (Z.of_nat (Z.to_nat BITBLK)) with BITBLK. apply it_ccl.
    rewrite H2 by lia. exact Hc.
Qed.

Lemma fin_single : forall st0 st v, tags_ok st0 -> c_mp st = c_mp st0 -> c_nfa st = c_nfa st0 ->
  same_tags st0 st -> is_single_op v = true -> appended st0 (emit st v) /\ tags_ok (emit st v).
Proof.
  intros st0 st v Ht Hm Hn Hs Hv. split; [apply app_single; assumption|].
  apply (tags_ok_same st0); [exact Ht|exact Hs].
Qed.

Lemma fin_two : forall st0 st v c, tags_ok st0 -> c_mp st = c_mp st0 -> c_nfa st = c_nfa st0 ->
  same_tags st0 st -> v = CHR \/ v = REF ->
  appended st0 (emit (emit st v) c) /\ tags_ok (emit (emit st v) c).
Proof.
  intros st0 st v c Ht Hm Hn Hs Hv. split; [apply app_two; tauto|].
  apply (tags_ok_same st0); [exact Ht|exact Hs].
Qed.

Lemma fin_ccl : forall st0 stc mask, tags_ok st0 -> c_mp stc = c_mp st0 + 1 ->
  c_nfa stc = wr (c_nfa st0) (c_mp st0) CCL -> same_tags st0 stc ->
  appended st0 (emit_bitset mask stc) /\ tags_ok (emit_bitset mask stc).
Proof.
  intros st0 stc mask Ht Hm Hn Hs. split.
  - apply app_ccl; [exact Hm| rewrite Hn, rd_wr, Z.eqb_refl; reflexivity|].
    intros a Ha. rewrite Hn, rd_wr. destruct (a =? c_mp st0) eqn:E; [apply Z.eqb_eq in E; lia|reflexivity].
  - apply (tags_ok_same st0); [exact Ht|].
    destruct (emit_bits_spec (Z.to_nat BITBLK) 0 mask stc) as [_ [_ [T1 [T2 [T3 _]]]]].
    destruct Hs as [S1 [S2 S3]]. unfold emit_bitset, same_tags. rewrite T1, T2, T3. auto.
Qed.

Lemma open_tag_ok : forall st msg st', tags_ok st -> open_tag st msg = inr st' ->
  appended st st' /\ tags_ok st'.
Proof.
  intros st msg st' [Hc Hj] H. unfold open_tag in H.
  destruct (c_tagc st <? MAXTAG); [|discriminate]. injection H as <-. split.
  - apply app_two; [reflexivity|reflexivity|]. right; right. split; [auto|]. cbn. lia.
  - split; cbn [emit with_nfa_mp with_tags c_tagc c_tagi c_tagstk]; [lia|]. intros j Hj'. rewrite rd_wr.
    destruct (j =? c_tagi st + 1) eqn:E; [lia|]. apply Z.eqb_neq in E. apply Hj. lia.
Qed.

Lemma close_tag_ok : forall st m1 m2 st', tags_ok st -> close_tag st m1 m2 = inr st' ->
  appended st st' /\ tags_ok st'.
Proof.
  intros st m1 m2 st' [Hc Hj] H. unfold close_tag in H.
  destruct (rd (c_nfa st) (c_sp st) =? BOT); [discriminate|].
  destruct (0 <? c_tagi st) eqn:E; [|discriminate]. apply Z.ltb_lt in E.
  injection H as <-. split.
  - apply app_two; [reflexivity|reflexivity|]. right; right. split; [auto|]. cbn. apply Hj. lia.
  - split; cbn [emit with_nfa_mp with_tags c_tagc c_tagi c_tagstk]; [lia|]. intros j Hj'. apply Hj. lia.
Qed.

Lemma inr_inj : forall (A B : Type) (x y : B), @inr A B x = inr y -> x = y.
Proof. intros A B x y H. injection H. auto. Qed.

Ltac fin_app :=
  match goal with
  | H : inl _ = inr _ |- _ => discriminate H
  | H : inr _ = inr _ |- _ => apply inr_inj in H; subst; fin_app
  | H : open_tag _ _ = inr _ |- _ => apply open_tag_ok in H; [exact H|assumption]
  | H : close_tag _ _ _ = inr _ |- _ => apply close_tag_ok in H; [exact H|assumption]
  | |- appended _ (emit_bitset _ _) /\ _ =>
      apply fin_ccl; [assumption|reflexivity|reflexivity|repeat split]
  | |- appended _ (emit (emit _ _) _) /\ _ =>
      apply fin_two; [assumption|reflexivity|reflexivity|repeat split|auto]
  | |- appended _ (emit _ _) /\ _ =>
      apply fin_single; [assumption|reflexivity|reflexivity|repeat split|reflexivity]
  end.

Lemma compile_ccl_ok : forall w pat cs st st', tags_ok st ->
  compile_ccl w pat cs st = inr st' -> appended st st' /\ tags_ok st'.
Proof.
  intros w pat cs st st' Ht H. unfold compile_ccl in H.
  destruct (at_p pat (c_p (emit st CCL) + 1) =? 94).
  all: match type of H with context [if ?c then _ else _] => destruct c end.
  all: match type of H with context [if ?c then _ else _] => destruct c end.
  all: match type of H with
  | context [match ccl_loop ?a ?b ?c ?d ?e ?f ?g ?h with _ => _ end] =>
      destruct (ccl_loop a b c d e f g h) as [[m0 b0]|[[i0 p0] b0]]
  end.
  all: cbv beta iota zeta in H.
  all: try match type of H with inl _ = inr _ => discriminate H end.
  all: match type of H with context [if ?c then _ else _] => destruct c end.
  all: try match type of H with inl _ = inr _ => discriminate H end.
  all: apply inr_inj in H; subst st'.
  all: apply fin_ccl; [assumption|reflexivity|reflexivity|repeat split].
Qed.

Lemma compile_backslash_ok : forall w pat px st st', tags_ok st ->
  compile_backslash w pat px st = inr st' -> appended st st' /\ tags_ok st'.
Proof.
  intros w pat px st st' Ht H. unfold compile_backslash in H.
  repeat match type of H with
  | context [if ?c then _ else _] => destruct c eqn:?
  | context [GetBackslashExpression ?a ?b ?c ?d] =>
      destruct (GetBackslashExpression a b c d) as [[c0 i0] b0]
  end; try fin_app.
Qed.

Lemma compile_ordinary_ok : forall w pat cs px st st', tags_ok st ->
  compile_ordinary w pat cs px st = inr st' -> appended st st' /\ tags_ok st'.
Proof.
  intros w pat cs px st st' Ht H. unfold compile_ordinary in H.
  repeat match type of H with
  | context [if ?c then _ else _] => destruct c eqn:?
  end; try fin_app.
Qed.

Lemma item_single_size : forall m p q, item m p q -> is_single_op (rd m p) = true -> q = p + 1.
Proof. intros m p q H Hs. inversion H; subst; try reflexivity; op_clash. Qed.

Lemma compile_closure_ok : forall pat st st' lp, cinv st ->
  compile_closure pat st = inr (st', lp) -> cinv1 (with_sp st' lp).
Proof.
  intros pat st st' lp [Hs [Hi Ht]] H. unfold compile_closure in H.
  destruct (c_p st =? 0) eqn:Hp; [discriminate|].
  assert (Hit : item (c_nfa st) (c_sp st) (c_mp st))
    by (destruct Hi as [Hi|[_ Hi]]; [exact Hi|apply Z.eqb_neq in Hp; contradiction]).
  clear Hi. pose proof (item_lt _ _ _ Hit) as Hlt.
  destruct ((rd (c_nfa st) (c_sp st) =? CLO) || (rd (c_nfa st) (c_sp st) =? LCLO)).
  { apply inr_inj in H. injection H as <- <-.
    split; [exact Hs|split; [exact Hit|exact Ht]]. }
  destruct (existsb (Z.eqb (rd (c_nfa st) (c_sp st))) [BOL; BOT; EOT; BOW; EOW; REF]);
    [discriminate|].
  destruct ((at_p pat (c_p st) =? 63) && (rd (c_nfa st) (c_sp st) =? EXP_MATCH_TO_WORD_END)) eqn:Hq.
  { apply inr_inj in H. injection H as <- <-.
    apply andb_true_iff in Hq; destruct Hq as [_ Hq]; apply Z.eqb_eq in Hq.
    assert (Hm : c_mp st = c_sp st + 1)
      by (apply (item_single_size _ _ _ Hit); rewrite Hq; reflexivity).
    unfold cinv1, with_sp, with_nfa_mp; cbn [c_nfa c_sp c_mp]. split; [|split].
    - apply (seg_frame (c_nfa st)); [exact Hs|]. intros a Ha. rewrite rd_wr.
      destruct (a =? c_sp st) eqn:E; [apply Z.eqb_eq in E; lia|reflexivity].
    - rewrite Hm. apply it_single. rewrite rd_wr, Z.eqb_refl. reflexivity.
    - apply (tags_ok_same st); [exact Ht|repeat split]. }
  assert (Hopc : is_closure_op (if at_p pat (c_p st) =? 63 then CLQ
                                else if at_p pat (c_p st + 1) =? 63 then LCLO else CLO) = true)
    by (destruct (at_p pat (c_p st) =? 63), (at_p pat (c_p st + 1) =? 63); reflexivity).
  destruct (at_p pat (c_p st) =? 43) eqn:Hplus; cbv beta iota zeta in H;
    apply inr_inj in H; injection H as <- <-.
  - set (d := c_mp st - c_sp st).
    set (b := copy_fwd (Z.to_nat d) (c_sp st) (c_mp st) (c_nfa st)).
    assert (Hb : forall a, rd b a = if (c_mp st <=? a) && (a <? c_mp st + d)
                                    then rd (c_nfa st) (a - c_mp st + c_sp st) else rd (c_nfa st) a)
      by (intros a; unfold b; rewrite copy_fwd_spec, Z2Nat.id by (unfold d; lia); reflexivity).
    assert (Hc : item b (c_mp st) (c_mp st + d)).
    { replace (c_mp st) with (c_sp st + d) at 1 by (unfold d; lia).
      apply (item_shift (c_nfa st)); [exact Hit|]. intros a Ha. rewrite Hb.
      destruct ((c_mp st <=? a + d) && (a + d <? c_mp st + d)) eqn:E.
      - f_equal. unfold d. lia.
      - rewrite andb_false_iff, Z.leb_gt, Z.ltb_ge in E. unfold d in *. lia. }
    destruct (wrap_ok _ _ _ _ Hc Hopc) as [Hf Hw].
    unfold cinv1, with_sp, with_nfa_mp; cbn [c_nfa c_sp c_mp]. split; [|split].
    + apply (seg_frame (c_nfa st)); [eapply seg_snoc; eassumption|].
      intros a Ha. rewrite Hf by lia. rewrite Hb.
      destruct ((c_mp st <=? a) && (a <? c_mp st + d)) eqn:E; [|reflexivity].
      rewrite andb_true_iff, Z.leb_le in E. lia.
    + exact Hw.
    + apply (tags_ok_same st); [exact Ht|repeat split].
  - destruct (wrap_ok _ _ _ _ Hit Hopc) as [Hf Hw].
    unfold cinv1, with_sp, with_nfa_mp; cbn [c_nfa c_sp c_mp]. split; [|split].
    + apply (seg_frame (c_nfa st)); [exact Hs|]. intros a Ha. apply Hf. lia.
    + exact Hw.
    + apply (tags_ok_same st); [exact Ht|repeat split].
Qed.

Lemma compile_one_ok : forall w pat cs px st st', cinv st ->
  compile_one w pat cs px st = inr st' -> cinv1 st'.
Proof.
  intros w pat cs px st st' Hc H. pose proof (proj2 (proj2 Hc)) as Ht.
  unfold compile_one in H. cbv zeta in H.
  repeat match type of H with
  | context [if ?c then _ else _] => destruct c
  end.
  all: try match type of H with
  | context [compile_closure ?a ?b] => destruct (compile_closure a b) as [e0|[st0 lp0]] eqn:Hr
  | context [compile_ccl ?a ?b ?c ?d] => destruct (compile_ccl a b c d) as [e0|st0] eqn:Hr
  | context [compile_backslash ?a ?b ?c ?d] => destruct (compile_backslash a b c d) as [e0|st0] eqn:Hr
  | context [compile_ordinary ?a ?b ?c ?d ?f] => destruct (compile_ordinary a b c d f) as [e0|st0] eqn:Hr
  end.
  all: cbv beta iota in H.
  all: try match type of H with inl _ = inr _ => discriminate H end.
  all: apply inr_inj in H; subst st'.
  all: try (eapply compile_closure_ok; eassumption).
  all: match goal with
  | Hr : compile_ccl _ _ _ _ = inr _ |- _ => apply compile_ccl_ok in Hr; [|exact Ht]
  | Hr : compile_backslash _ _ _ _ = inr _ |- _ => apply compile_backslash_ok in Hr; [|exact Ht]
  | Hr : compile_ordinary _ _ _ _ _ = inr _ |- _ => apply compile_ordinary_ok in Hr; [|exact Ht]
  | |- cinv1 (with_sp ?s1 _) =>
      assert (Hr : appended st s1 /\ tags_ok s1) by fin_app
  end.
  all: apply appended_cinv1; [exact Hc|apply Hr|apply Hr].
Qed.

Lemma compile_loop_ok : forall w pat cs px fuel len st st', cinv st ->
  compile_loop w pat cs px fuel len st = inr st' -> cinv st'.
Proof.
  intros w pat cs px fuel. induction fuel as [|f IH]; intros len st st' Hc H; cbn [compile_loop] in H.
  - apply inr_inj in H. subst. exact Hc.
  - destruct (c_i st <? len); [|apply inr_inj in H; subst; exact Hc].
    destruct (mpMax <? c_mp st); [discriminate|].
    destruct (compile_one w pat cs px st) as [e0|st1] eqn:Hr; [discriminate|].
    eapply IH; [|exact H]. apply cinv1_with_ip. eapply compile_one_ok; eassumption.
Qed.

Lemma cinv_start : forall m bt ts, cinv (mkCst 0 0 0 0 0 1 m bt ts).
Proof.
  intros m bt ts. split; [apply seg_nil|split; [right; split; reflexivity|]].
  split; cbn; [lia|intros j Hj; lia].
Qed.

Lemma cinv_finish : forall st, cinv st -> wf_prog (wr (c_nfa st) (c_mp st) END) 0.
Proof.
  intros st Hc. apply (seg_wf _ 0 (c_mp st)).
  - apply (seg_frame (c_nfa st)); [apply cinv_seg_mp; exact Hc|].
    intros a Ha. rewrite rd_wr. destruct (a =? c_mp st) eqn:E; [apply Z.eqb_eq in E; lia|reflexivity].
  - apply wf_end. rewrite rd_wr, Z.eqb_refl. reflexivity.
Qed.

Lemma badpat_wf : forall e st msg, wf_prog (nfa (snd (badpat e st msg))) 0.
Proof. intros e st msg. apply wf_end. cbn [badpat snd set_compiled nfa]. rewrite rd_wr. reflexivity. Qed.

Lemma DoCompile_wf : forall w e pat len cs px,
  wf_prog (nfa e) 0 -> wf_prog (nfa (snd (DoCompile w e pat len cs px))) 0.
Proof.
  intros w e pat len cs px Hw. unfold DoCompile.
  destruct pat as [mem|].
  - destruct (len =? 0).
    + destruct (negb (sta e =? 0)); [exact Hw|apply badpat_wf].
    + destruct (compile_loop w mem cs px (S (Z.to_nat len)) len
                  (mkCst 0 0 0 0 0 1 (nfa e) (bittab e) (tagstk e))) as [[msg st]|st] eqn:Hc;
        [apply badpat_wf|].
      destruct (0 <? c_tagi st); [apply badpat_wf|].
      cbn [snd set_compiled nfa]. apply cinv_finish.
      eapply compile_loop_ok; [apply cinv_start|exact Hc].
  - destruct (negb (sta e =? 0)); [exact Hw|apply badpat_wf].
Qed.

Lemma Compile_wf : forall w e p l cs f,
  wf_prog (nfa e) 0 -> wf_prog (nfa (snd (Compile w e p l cs f))) 0.
Proof.
  intros w e p l cs f Hw. unfold Compile.
  destruct (cache_hit e p l f); [exact Hw|].
  pose proof (DoCompile_wf w e (option_map snd p) l cs (FlagSet f FindOption_Posix) Hw) as Hd.
  destruct (DoCompile w e (option_map snd p) l cs (FlagSet f FindOption_Posix)) as [[msg|] e1].
  - exact Hd.
  - destruct p as [[a mem]|]; exact Hd.
Qed.

Lemma run_calls_wf : forall w cs e e' rs,
  wf_prog (nfa e) 0 -> run_calls w e cs = Some (e', rs) -> wf_prog (nfa e') 0.
Proof.
  intros w cs. induction cs as [|c cs IH]; intros e e' rs Hw H; cbn [run_calls] in H.
  - injection H as <- _. exact Hw.
  - destruct c as [p l cs0 f | ci lp endp fuel |].
    + pose proof (Compile_wf w e p l cs0 f Hw) as Hc.
      destruct (Compile w e p l cs0 f) as [r e1].
      destruct (run_calls w e1 cs) as [[e2 rs2]|] eqn:Hr; [|discriminate].
      injection H as <- _. eapply IH; eassumption.
    + destruct (Execute w ci endp fuel e lp) as [[res e1]|] eqn:He; [|discriminate].
      apply Execute_prog in He. unfold prog_part in He. injection He as _ Hn _ _ _ _ _.
      eapply IH; [|exact H]. rewrite Hn. exact Hw.
    + eapply IH; [|exact H]. exact Hw.
Qed.

Lemma init_wf : wf_prog (nfa RESearch_init) 0.
Proof. apply wf_end. reflexivity. Qed.

End REWf.

(** ** Literal patterns compile to literal programs and match themselves *)

Module REPlain.
Import RE REInv REWf.

Lemma land_pow2 : forall x k, 0 <= k ->
  (Z.land x (Z.shiftl 1 k) =? 0) = negb (Z.testbit x k).
Proof.
  intros x k Hk. rewrite Z.shiftl_1_l.
  destruct (Z.testbit x k) eqn:E; cbn.
  - apply Z.eqb_neq. intros H0.
    assert (Ht : Z.testbit (Z.land x (2 ^ k)) k = true)
      by (rewrite Z.land_spec, E, Z.pow2_bits_eqb, Z.eqb_refl by exact Hk; reflexivity).
    rewrite H0, Z.testbit_0_l in Ht. discriminate.
  - apply Z.eqb_eq. apply Z.bits_inj'. intros n Hn.
    rewrite Z.land_spec, Z.pow2_bits_eqb, Z.testbit_0_l by exact Hk.
    destruct (k =? n) eqn:En; [apply Z.eqb_eq in En; subst; rewrite E; reflexivity|]; apply andb_false_r.
Qed.

Lemma lit_item_lt : forall m q r c, lit_item m q r c -> q < r.
Proof. intros m q r c [[_ [_ ->]]|[_ [_ [_ ->]]]]; unfold BITBLK; lia. Qed.

Lemma shiftr3_range : forall c, 0 <= c < 256 -> 0 <= Z.shiftr c 3 < 32.
Proof.
  intros c Hc. rewrite Z.shiftr_div_pow2 by lia. change (2 ^ 3) with 8.
  split; [apply Z.div_pos; lia|apply Z.div_lt_upper_bound; lia].
Qed.

Lemma lit_item_frame : forall m m' q r c, lit_item m q r c ->
  (forall a, q <= a < r -> rd m' a = rd m a) -> lit_item m' q r c.
Proof.
  intros m m' q r c [[H1 [H2 H3]]|[H1 [H2 [H3 H4]]]] Hf; subst r.
  - left. rewrite !Hf by lia. auto.
  - right. rewrite Hf by (unfold BITBLK; lia). repeat split; auto; try lia.
    unfold isinset in *. rewrite Hf; [exact H3|].
    pose proof (shiftr3_range c H2). unfold BITBLK; lia.
Qed.

Lemma litseg_frame : forall m m' p q l, litseg m p q l ->
  (forall a, p <= a < q -> rd m' a = rd m a) -> litseg m' p q l.
Proof.
  intros m m' p q l H. induction H as [p|p q r l c Hs IH Hi]; intros Hf; [apply ls_nil|].
  assert (Hle : p <= q).
  { clear -Hs. induction Hs; [lia|]. apply lit_item_lt in H. lia. }
  pose proof (lit_item_lt _ _ _ _ Hi).
  apply (ls_snoc _ _ q); [apply IH; intros a Ha; apply Hf; lia|].
  apply (lit_item_frame m); [exact Hi|intros a Ha; apply Hf; lia].
Qed.

Lemma litseg_lit : forall m p q l, litseg m p q l -> forall l', lit m q l' -> lit m p (l ++ l').
Proof.
  intros m p q l H. induction H as [p|p q r l c Hs IH Hi]; intros l' Hl; [exact Hl|].
  rewrite <- app_assoc. apply IH. cbn. eapply lit_cons; eassumption.
Qed.
Lemma isinset_bit : forall m ap c,
  isinset m ap c = Z.testbit (rd m (ap + Z.shiftr c 3)) (Z.land c BITIND).
Proof.
  intros m ap c. unfold isinset. rewrite land_pow2; [apply negb_involutive|].
  apply Z.land_nonneg. right. unfold BITIND. lia.
Qed.

Lemma ChSet_has : forall bt c, has_bit (ChSet bt c) c.
Proof.
  intros bt c. unfold has_bit, ChSet. rewrite rd_wr, Z.eqb_refl, Z.lor_spec, Z.shiftl_1_l.
  rewrite Z.pow2_bits_eqb, Z.eqb_refl; [apply orb_true_r|].
  apply Z.land_nonneg. right. unfold BITIND. lia.
Qed.

Lemma ChSet_keep : forall bt c c', has_bit bt c -> has_bit (ChSet bt c') c.
Proof.
  intros bt c c' H. unfold has_bit, ChSet in *. rewrite rd_wr.
  destruct (Z.shiftr c 3 =? Z.shiftr c' 3) eqn:E; [|exact H].
  apply Z.eqb_eq in E. rewrite Z.lor_spec, <- E, H. reflexivity.
Qed.

Lemma ChSetWithCase_has : forall bt c b, has_bit (ChSetWithCase bt c b) c.
Proof.
  intros bt c b. unfold ChSetWithCase.
  destruct b; [apply ChSet_has|].
  destruct ((97 <=? c) && (c <=? 122)); [apply ChSet_keep; apply ChSet_has|].
  destruct ((65 <=? c) && (c <=? 90)); [apply ChSet_keep|]; apply ChSet_has.
Qed.

Lemma emit_bits_content : forall k n mask st j, 0 <= j < Z.of_nat k ->
  rd (c_nfa (emit_bits k n mask st)) (c_mp st + j) = Z.lxor mask (rd (c_bt st) (n + j)).
Proof.
  induction k as [|k IH]; intros n mask st j Hj; [lia|]. cbn [emit_bits].
  set (st1 := with_bt (emit st (Z.lxor mask (rd (c_bt st) n)))
                 (wr (c_bt (emit st (Z.lxor mask (rd (c_bt st) n)))) n 0)).
  destruct (Z.eq_dec j 0) as [->|Hj0].
  - destruct (emit_bits_spec k (n + 1) mask st1) as [_ [H2 _]].
    rewrite H2 by (cbn; lia). unfold st1, with_bt; cbn [c_nfa]. rewrite rd_emit.
    rewrite !Z.add_0_r, Z.eqb_refl. reflexivity.
  - replace (c_mp st + j) with (c_mp st1 + (j - 1)) by (cbn; lia).
    rewrite IH by lia. unfold st1; cbn [c_bt with_bt emit with_nfa_mp]. rewrite rd_wr.
    replace (n + 1 + (j - 1)) with (n + j) by lia.
    destruct (n + j =? n) eqn:E; [apply Z.eqb_eq in E; lia|reflexivity].
Qed.

Lemma emit_bits_ip : forall k n mask st,
  c_i (emit_bits k n mask st) = c_i st /\ c_p (emit_bits k n mask st) = c_p st.
Proof.
  induction k as [|k IH]; intros n mask st; cbn [emit_bits]; [split; reflexivity|].
  rewrite (proj1 (IH _ _ _)), (proj2 (IH _ _ _)). split; reflexivity.
Qed.

Lemma with_sp_nfa : forall s sp, c_nfa (with_sp s sp) = c_nfa s.
Proof. reflexivity. Qed.
Lemma with_sp_mp : forall s sp, c_mp (with_sp s sp) = c_mp s.
Proof. reflexivity. Qed.
Lemma with_sp_i : forall s sp, c_i (with_sp s sp) = c_i s.
Proof. reflexivity. Qed.
Lemma with_sp_p : forall s sp, c_p (with_sp s sp) = c_p s.
Proof. reflexivity. Qed.

Lemma plain_byte_spec : forall c, plain_byte c = true ->
  0 < c < 256 /\ (c =? 46) = false /\ (c =? 91) = false /\ (c =? 42) = false /\
  (c =? 43) = false /\ (c =? 63) = false /\ (c =? 92) = false /\ (c =? 94) = false /\
  (c =? 36) = false /\ (c =? 40) = false /\ (c =? 41) = false /\ (c =? 0) = false.
Proof.
  intros c H.
  assert (Hr : 0 < c < 256).
  { unfold plain_byte in H. apply andb_true_iff in H. destruct H as [H _].
    apply andb_true_iff in H. destruct H as [H1 H2].
    apply Z.ltb_lt in H1. apply Z.ltb_lt in H2. lia. }
  split; [exact Hr|].
  repeat split; match goal with |- (c =? ?v) = false =>
    destruct (Z.eqb_spec c v) as [->|?]; [vm_compute in H; discriminate H|reflexivity] end.
Qed.
Lemma compile_one_plain : forall w pat cs px st st',
  plain_byte (at_p pat (c_p st)) = true ->
  compile_one w pat cs px st = inr st' ->
  lit_item (c_nfa st') (c_mp st) (c_mp st') (at_p pat (c_p st))
  /\ (forall a, a < c_mp st -> rd (c_nfa st') a = rd (c_nfa st) a)
  /\ c_i st' = c_i st /\ c_p st' = c_p st.
Proof.
  intros w pat cs px st st' Hp H.
  apply plain_byte_spec in Hp.
  set (c := at_p pat (c_p st)) in *.
  destruct Hp as [Hr [E46 [E91 [E42 [E43 [E63 [E92 [E94 [E36 [E40 [E41 E0]]]]]]]]]]].
  unfold compile_one, compile_ordinary in H. fold c in H. cbv zeta in H.
  rewrite E46, E94, E36, E91, E42, E43, E63, E92, E40, E41, !andb_false_r, E0 in H.
  cbn [orb] in H. cbv beta iota in H.
  destruct (cs || negb (w c)); cbv beta iota in H; apply inr_inj in H; subst st'.
  - cbn [with_sp c_nfa c_mp c_i c_p emit with_nfa_mp]. split; [left|split; [|split; reflexivity]].
    + rewrite !rd_wr, Z.eqb_refl.
      destruct (c_mp st =? c_mp st + 1) eqn:E; [apply Z.eqb_eq in E; lia|].
      destruct (c_mp st + 1 =? c_mp st + 1) eqn:E'; [|apply Z.eqb_neq in E'; lia].
      repeat split; lia.
    + intros a Ha. rewrite !rd_wr.
      destruct (a =? c_mp st + 1) eqn:E; [apply Z.eqb_eq in E; lia|].
      destruct (a =? c_mp st) eqn:E'; [apply Z.eqb_eq in E'; lia|reflexivity].
  - set (stc := with_bt (emit st CCL) (ChSetWithCase (c_bt (emit st CCL)) c false)).
    unfold emit_bitset. rewrite with_sp_nfa, with_sp_mp, with_sp_i, with_sp_p.
    destruct (emit_bits_spec (Z.to_nat BITBLK) 0 0 stc) as [H1 [H2 _]].
    destruct (emit_bits_ip (Z.to_nat BITBLK) 0 0 stc) as [H3 H4].
    pose proof (emit_bits_content (Z.to_nat BITBLK) 0 0 stc) as H5.
    assert (Sm : c_mp stc = c_mp st + 1) by reflexivity.
    assert (Sn : c_nfa stc = wr (c_nfa st) (c_mp st) CCL) by reflexivity.
    assert (Sb : c_bt stc = ChSetWithCase (c_bt st) c false) by reflexivity.
    assert (Si : c_i stc = c_i st /\ c_p stc = c_p st) by (split; reflexivity).
    set (r := emit_bits (Z.to_nat BITBLK) 0 0 stc) in *.
    clearbody r stc.
    change (Z.of_nat (Z.to_nat BITBLK)) with BITBLK in *.
    rewrite H1, H3, H4, Sm, (proj1 Si), (proj2 Si).
    split; [right|split; [|split; reflexivity]].
    + rewrite H2 by lia. rewrite Sn, rd_wr, Z.eqb_refl.
      split; [reflexivity|split; [lia|split; [|lia]]].
      rewrite isinset_bit.
      pose proof (shiftr3_range c (conj (Z.lt_le_incl _ _ (proj1 Hr)) (proj2 Hr))) as Hs.
      replace (c_mp st + 1 + Z.shiftr c 3) with (c_mp stc + Z.shiftr c 3) by lia.
      rewrite H5 by (unfold BITBLK; lia).
      rewrite Z.lxor_0_l, Z.add_0_l, Sb. apply ChSetWithCase_has.
    + intros a Ha. rewrite H2 by lia. rewrite Sn, rd_wr.
      destruct (a =? c_mp st) eqn:E; [apply Z.eqb_eq in E; lia|reflexivity].
Qed.

Lemma take_mem_succ : forall mem i, 0 <= i ->
  take_mem mem (i + 1) = take_mem mem i ++ [mem_at mem i].
Proof.
  intros mem i Hi. unfold take_mem.
  rewrite Z2Nat.inj_add by lia. change (Z.to_nat 1) with 1%nat.
  rewrite Nat.add_1_r, seq_S, map_app. cbn. rewrite Z2Nat.id by lia. reflexivity.
Qed.

Lemma take_mem_length : forall mem len, List.length (take_mem mem len) = Z.to_nat len.
Proof. intros. unfold take_mem. rewrite length_map, length_seq. reflexivity. Qed.

Lemma take_mem_nth : forall mem len k, 0 <= k < len ->
  nth (Z.to_nat k) (take_mem mem len) 0 = mem_at mem k.
Proof.
  intros mem len k Hk. unfold take_mem.
  rewrite (nth_indep _ 0 ((fun k => mem_at mem (Z.of_nat k)) 0%nat))
    by (rewrite length_map, length_seq; lia).
  pose proof (map_nth (fun k => mem_at mem (Z.of_nat k)) (seq 0 (Z.to_nat len)) 0%nat
                (Z.to_nat k)) as Hm.
  cbv beta in Hm. rewrite Hm, seq_nth by lia. cbn. rewrite Z2Nat.id by lia. reflexivity.
Qed.

Lemma plain_pattern_at : forall mem len k, plain_pattern (take_mem mem len) = true ->
  0 <= k < len -> plain_byte (mem_at mem k) = true.
Proof.
  intros mem len k H Hk.
  assert (Hf : forallb plain_byte (take_mem mem len) = true)
    by (destruct (take_mem mem len); [discriminate|exact H]).
  rewrite forallb_forall in Hf. apply Hf. rewrite <- (take_mem_nth mem len k Hk).
  apply nth_In. rewrite take_mem_length. lia.
Qed.

Lemma plain_pattern_pos : forall mem len, plain_pattern (take_mem mem len) = true -> 0 < len.
Proof.
  intros mem len H. destruct (Z.lt_ge_cases 0 len) as [Hl|Hl]; [exact Hl|].
  unfold take_mem in H. replace (Z.to_nat len) with 0%nat in H by lia. discriminate.
Qed.

Lemma compile_loop_plain : forall w pat cs px len fuel st st',
  len - c_i st < Z.of_nat fuel -> c_i st = c_p st -> 0 <= c_i st <= len ->
  litseg (c_nfa st) 0 (c_mp st) (take_mem pat (c_i st)) ->
  (forall k, c_i st <= k < len -> plain_byte (mem_at pat k) = true) ->
  compile_loop w pat cs px fuel len st = inr st' ->
  litseg (c_nfa st') 0 (c_mp st') (take_mem pat len).
Proof.
  intros w pat cs px len fuel. induction fuel as [|f IH]; intros st st' Hf Hip Hi Hs Hp H;
    [lia|]. cbn [compile_loop] in H.
  destruct (c_i st <? len) eqn:Hlt.
  - apply Z.ltb_lt in Hlt. destruct (mpMax <? c_mp st); [discriminate|].
    destruct (compile_one w pat cs px st) as [e0|st1] eqn:Hr; [discriminate|].
    assert (Hc : plain_byte (at_p pat (c_p st)) = true)
      by (unfold at_p; rewrite <- Hip; apply Hp; lia).
    destruct (compile_one_plain w pat cs px st st1 Hc Hr) as [Hit [Hfr [Hi1 Hp1]]].
    eapply IH; [| | | | |exact H]; cbn [with_ip c_i c_p c_nfa c_mp].
    + lia.
    + lia.
    + lia.
    + rewrite Hi1, take_mem_succ by lia. unfold at_p in Hit. rewrite <- Hip in Hit.
      apply (ls_snoc _ _ (c_mp st)); [|exact Hit].
      apply (litseg_frame (c_nfa st)); [exact Hs|]. intros a Ha. apply Hfr. lia.
    + intros k Hk. apply Hp. lia.
  - apply Z.ltb_ge in Hlt. apply inr_inj in H. subst st'.
    replace len with (c_i st) by lia. exact Hs.
Qed.

Lemma DoCompile_cases : forall w e pat len cs px r e2,
  DoCompile w e pat len cs px = (r, e2) ->
  (r = None /\ e2 = e /\ (pat = None \/ len = 0))
  \/ (r <> None /\ sta e2 = NOP)
  \/ (r = None /\ sta e2 = OKP /\ exists mem, pat = Some mem /\
      (plain_pattern (take_mem mem len) = true -> lit (nfa e2) 0 (take_mem mem len))).
Proof.
  intros w e pat len cs px r e2 H. unfold DoCompile in H.
  destruct pat as [mem|].
  - destruct (len =? 0) eqn:Hl.
    + apply Z.eqb_eq in Hl.
      destruct (negb (sta e =? 0)) eqn:Hs; injection H as <- <-; [left; auto|].
      right; left. apply negb_false_iff, Z.eqb_eq in Hs. split; [discriminate|exact Hs].
    + destruct (compile_loop w mem cs px (S (Z.to_nat len)) len
                  (mkCst 0 0 0 0 0 1 (nfa e) (bittab e) (tagstk e))) as [[msg st]|st] eqn:Hc.
      * injection H as <- <-. right; left. split; [discriminate|reflexivity].
      * destruct (0 <? c_tagi st); injection H as <- <-;
          [right; left; split; [discriminate|reflexivity]|].
        right; right. split; [reflexivity|split; [reflexivity|]]. exists mem. split; [reflexivity|].
        intros Hp. pose proof (plain_pattern_pos _ _ Hp) as Hpos.
        cbn [nfa set_compiled]. rewrite <- (app_nil_r (take_mem mem len)).
        apply (litseg_lit _ 0 (c_mp st)).
        -- apply (litseg_frame (c_nfa st)).
           ++ apply (compile_loop_plain w mem cs px len (S (Z.to_nat len))
                       (mkCst 0 0 0 0 0 1 (nfa e) (bittab e) (tagstk e)) st);
                cbn [c_i c_p c_nfa c_mp]; try lia; [apply ls_nil| |exact Hc].
              intros k Hk. apply (plain_pattern_at mem len k Hp). lia.
           ++ intros a Ha. rewrite rd_wr.
              destruct (a =? c_mp st) eqn:E; [apply Z.eqb_eq in E; lia|reflexivity].
        -- apply lit_end. rewrite rd_wr, Z.eqb_refl. reflexivity.
  - destruct (negb (sta e =? 0)) eqn:Hs; injection H as <- <-; [left; auto|].
    right; left. apply negb_false_iff, Z.eqb_eq in Hs. split; [discriminate|exact Hs].
Qed.
Lemma take_mem_zero : forall mem, take_mem mem 0 = [].
Proof. reflexivity. Qed.

Lemma list_Z_eqb_true : forall a b, list_Z_eqb a b = true -> a = b.
Proof.
  induction a as [|x a IH]; intros [|y b] H; try discriminate; [reflexivity|].
  cbn in H. apply andb_true_iff in H. destruct H as [H1 H2].
  apply Z.eqb_eq in H1. rewrite H1, (IH b H2). reflexivity.
Qed.

Lemma Compile_okp : forall w e p l cs f r e1, okp_inv e ->
  Compile w e p l cs f = (r, e1) ->
  okp_inv e1 /\ (r = None -> forall addr mem, p = Some (addr, mem) ->
    plain_pattern (take_mem mem l) = true -> lit (nfa e1) 0 (take_mem mem l)).
Proof.
  intros w e p l cs f r e1 Hi H. unfold Compile in H.
  destruct (cache_hit e p l f) eqn:Hh.
  - injection H as <- <-. split; [exact Hi|]. intros _ addr mem -> Hp.
    unfold cache_hit in Hh. apply andb_true_iff in Hh. destruct Hh as [Hs Hh].
    apply Z.eqb_eq in Hs. apply orb_true_iff in Hh. destruct Hh as [Hl|Hh].
    + apply Z.eqb_eq in Hl. subst l. discriminate Hp.
    + apply andb_true_iff in Hh. destruct Hh as [_ Hh]. apply list_Z_eqb_true in Hh.
      rewrite Hh in *. apply Hi; assumption.
  - destruct (DoCompile w e (option_map snd p) l cs (FlagSet f FindOption_Posix)) as [r2 e2] eqn:Hd.
    apply DoCompile_cases in Hd.
    destruct r2 as [msg|]; [injection H as <- <-|].
    + destruct Hd as [[Hd _]|[[_ Hs]|[Hd _]]]; try discriminate.
      split; [unfold okp_inv; rewrite Hs; discriminate|]. intros Hn; discriminate.
    + destruct p as [[addr mem]|]; injection H as <- <-.
      * destruct Hd as [[_ [-> [Hd|Hd]]]|[[Hd _]|[_ [Hs [mem' [Hm Hl]]]]]];
          [discriminate|subst l| contradiction Hd; reflexivity|].
        -- split; [intros _ Hp; discriminate Hp|]. intros _ a m Hm Hp.
           injection Hm as <- <-. discriminate Hp.
        -- injection Hm as <-. split; [intros _ Hp; exact (Hl Hp)|].
           intros _ a m Hm Hp. injection Hm as <- <-. exact (Hl Hp).
      * split; [intros _ Hp; discriminate Hp|]. intros _ a m Hm. discriminate Hm.
Qed.

Lemma run_calls_okp : forall w cs e e' rs, okp_inv e ->
  run_calls w e cs = Some (e', rs) -> okp_inv e'.
Proof.
  intros w cs. induction cs as [|c cs IH]; intros e e' rs Hi H; cbn [run_calls] in H.
  - injection H as <- _. exact Hi.
  - destruct c as [p l cs0 f | ci lp endp fuel |].
    + destruct (Compile w e p l cs0 f) as [r e1] eqn:Hc.
      apply Compile_okp in Hc; [|exact Hi].
      destruct (run_calls w e1 cs) as [[e2 rs2]|] eqn:Hr; [|discriminate].
      injection H as <- _. eapply IH; [apply Hc|exact Hr].
    + destruct (Execute w ci endp fuel e lp) as [[res e1]|] eqn:He; [|discriminate].
      apply Execute_prog in He. unfold prog_part in He.
      injection He as Hs Hn _ _ _ _ _ Hcp.
      eapply IH; [|exact H]. unfold okp_inv. rewrite Hs, Hn, Hcp. exact Hi.
    + eapply IH; [|exact H]. intros Hs. discriminate Hs.
Qed.

Lemma PMatch_lit : forall w ci endp m ap l, lit m ap l ->
  forall fuel e lp md off, nfa e = m ->
  (forall k, 0 <= k < Z.of_nat (List.length l) -> CharAt ci (lp + k) = nth (Z.to_nat k) l 0) ->
  lp + Z.of_nat (List.length l) <= endp -> (List.length l < fuel)%nat ->
  PMatch w ci endp fuel e lp ap md off = Some (lp + Z.of_nat (List.length l), off, e).
Proof.
  intros w ci endp m ap l H. induction H as [p Hend|p r c l Hit Hl IH];
    intros fuel e lp md off Hm Hc Hle Hf; (destruct fuel as [|f]; [lia|]); cbn [PMatch].
  - rewrite Hm, Hend. cbn. rewrite Z.add_0_r. reflexivity.
  - cbn [List.length] in *. rewrite Hm.
    assert (Hc0 : CharAt ci lp = c) by (rewrite <- (Z.add_0_r lp), Hc by lia; reflexivity).
    assert (Hrest : forall k, 0 <= k < Z.of_nat (List.length l) ->
              CharAt ci (lp + 1 + k) = nth (Z.to_nat k) l 0).
    { intros k Hk. rewrite <- Z.add_assoc, Hc by lia.
      replace (Z.to_nat (1 + k)) with (S (Z.to_nat k)) by lia. reflexivity. }
    replace (lp + Z.of_nat (S (List.length l))) with (lp + 1 + Z.of_nat (List.length l)) by lia.
    destruct Hit as [[H1 [H2 H3]]|[H1 [H2 [H3 H4]]]]; rewrite H1; cbn.
    + rewrite H2, Hc0, Z.eqb_refl. subst r.
      replace (p + 1 + 1) with (p + 2) by lia.
      apply IH; [exact Hm|exact Hrest|lia|lia].
    + destruct (endp <=? lp) eqn:E; [apply Z.leb_le in E; lia|].
      rewrite Hc0, H3. cbn. subst r.
      apply IH; [exact Hm|exact Hrest|lia|lia].
Qed.

Lemma skip_to_here : forall ci endp c k lp, CharAt ci lp = c -> skip_to ci endp c k lp = lp.
Proof.
  intros ci endp c k lp H. destruct k; [reflexivity|]. cbn [skip_to].
  rewrite H, Z.eqb_refl, andb_false_r. reflexivity.
Qed.

Lemma exec_scan_hit : forall w ci endp fuel k e lp ep o e1,
  lp < endp -> PMatch w ci endp fuel e lp 0 1 (Some 1) = Some (ep, o, e1) ->
  ep <> NOTFOUND -> exec_scan w ci endp fuel (S k) e lp = Some (ep, lp, e1).
Proof.
  intros w ci endp fuel k e lp ep o e1 Hl Hp Hn. cbn [exec_scan].
  destruct (lp <? endp) eqn:E; [|apply Z.ltb_ge in E; lia].
  rewrite Hp. destruct (ep =? NOTFOUND) eqn:E'; [apply Z.eqb_eq in E'; contradiction|].
  reflexivity.
Qed.

Lemma Execute_lit : forall w ci fuel e l,
  lit (nfa e) 0 l -> l <> [] ->
  (forall k, 0 <= k < Z.of_nat (List.length l) -> CharAt ci k = nth (Z.to_nat k) l 0) ->
  (List.length l < fuel)%nat ->
  exists e', Execute w ci (Z.of_nat (List.length l)) fuel e 0 = Some (1, e')
    /\ rd (bopat e') 0 = 0 /\ rd (eopat e') 0 = Z.of_nat (List.length l).
Proof.
  intros w ci fuel e l Hlit Hne Hc Hf.
  set (endp := Z.of_nat (List.length l)) in *.
  assert (Hpos : 0 < endp) by (destruct l; [contradiction|unfold endp; cbn [List.length]; lia]).
  assert (Hn : nfa (Clear (set_bol e 0 false)) = nfa e)
    by (rewrite Clear_keeps_nfa; reflexivity).
  unfold Execute. set (e0 := Clear (set_bol e 0 false)) in *. clearbody e0.
  assert (Hp : PMatch w ci endp fuel e0 0 0 1 (Some 1) = Some (endp, Some 1, e0)).
  { rewrite (PMatch_lit w ci endp (nfa e) 0 l Hlit fuel e0 0 1 (Some 1) Hn); [reflexivity| |lia|exact Hf].
    intros k Hk. rewrite Z.add_0_l. apply Hc. exact Hk. }
  destruct fuel as [|f]; [lia|].
  assert (Hs : exec_scan w ci endp (S f) (S f) e0 0 = Some (endp, 0, e0))
    by (apply (exec_scan_hit w ci endp (S f) f e0 0 endp (Some 1) e0); [lia|exact Hp|unfold NOTFOUND; lia]).
  assert (Hfin : exec_finish (Some (endp, 0, e0))
                 = Some (1, set_match e0 (failure e0) (wr (bopat e0) 0 0) (wr (eopat e0) 0 endp)))
    by (cbn [exec_finish]; destruct (endp =? NOTFOUND) eqn:E;
        [apply Z.eqb_eq in E; unfold NOTFOUND in E; lia|reflexivity]).
  assert (Hres : rd (bopat (set_match e0 (failure e0) (wr (bopat e0) 0 0) (wr (eopat e0) 0 endp))) 0 = 0
                 /\ rd (eopat (set_match e0 (failure e0) (wr (bopat e0) 0 0) (wr (eopat e0) 0 endp))) 0 = endp)
    by (cbn [bopat eopat set_match]; rewrite !rd_wr; split; reflexivity).
  inversion Hlit as [|p r c l' Hit Hl]; subst; [contradiction|].
  rewrite Hn. destruct Hit as [[H1 [H2 H3]]|[H1 [H2 [H3 H4]]]]; rewrite H1.
  - cbn [Z.eqb CHR BOL EOL END Pos.eqb].
    assert (H0 : CharAt ci 0 = c) by (apply (Hc 0); lia).
    rewrite Z.add_0_l in H2. rewrite H2, Z.sub_0_r, skip_to_here by exact H0.
    destruct (endp <=? 0) eqn:E; [apply Z.leb_le in E; lia|].
    rewrite Hs, Hfin. eexists. split; [reflexivity|exact Hres].
  - cbn [Z.eqb CCL BOL EOL END CHR Pos.eqb].
    rewrite Hs, Hfin. eexists. split; [reflexivity|exact Hres].
Qed.

Lemma okp_inv_init : okp_inv RESearch_init.
Proof. intros H. discriminate H. Qed.

End REPlain.



Module REFacts.

Import RE REInv REWf REPlain.

(** C7: after compiling the lazy pattern [a.*?b] case-sensitively (on any
    engine, for any word-character table, as long as the call really
    compiles, i.e. is not answered from the cache), [Execute] over
    [axbxb] with bounds [0,5) returns 1 with [bopat[0] = 0] and
    [eopat[0] = 3]: the lazy closure yields [axb]. *)
Theorem lazy_closure_shortest_match :
  forall iswordc e addr flags,
  cache_hit e (Some (addr, pat_lazy)) 5 flags = false ->
  let '(r, e1) := Compile iswordc e (Some (addr, pat_lazy)) 5 true flags in
  r = None /\
  match Execute iswordc (text_indexer (bytes "axbxb")) 5 100 e1 0 with
  | Some (res, e2) => res = 1 /\ rd (bopat e2) 0 = 0 /\ rd (eopat e2) 0 = 3
  | None => False
  end.
Proof.
  intros iswordc e addr flags Hc. unfold Compile. rewrite Hc.
  destruct (FlagSet flags FindOption_Posix); vm_compute; auto.
Qed.

Lemma lazy_closure_shortest_match_witness :
  cache_hit RESearch_init (Some (0, pat_lazy)) 5 0 = false /\
  let '(r, e1) := Compile default_iswordc RESearch_init (Some (0, pat_lazy)) 5 true 0 in
  r = None /\
  match Execute default_iswordc (text_indexer (bytes "axbxb")) 5 100 e1 0 with
  | Some (res, e2) => res = 1 /\ rd (bopat e2) 0 = 0 /\ rd (eopat e2) 0 = 3
  | None => False
  end.
Proof.
  split; [vm_compute; reflexivity|].
  apply (lazy_closure_shortest_match default_iswordc RESearch_init 0 0).
  vm_compute; reflexivity.
Defined.

(** C5 (amended): [[^-]]] compiles to a single negated class, any char
    but [-] and []]; the trailing []] is the class's own closing bracket.
    Compiled (not from the cache) on an engine whose [bittab] is clear, as
    the constructor and every completed class leave it, [Execute] finds
    [x] in [x]] ([0,1)), nothing in []], and [Z] in [Z]] ([0,1)). *)
Theorem negated_class_dash_bracket :
  forall iswordc e addr cs flags,
  bittab e = zeros ->
  cache_hit e (Some (addr, pat_ccl)) 5 flags = false ->
  let '(r, e1) := Compile iswordc e (Some (addr, pat_ccl)) 5 cs flags in
  r = None /\
  exec_outcome (run_on iswordc e1 "x]" 50) = Some (1, 0, 1) /\
  exec_outcome (run_on iswordc e1 "]" 50) = Some (0, NOTFOUND, NOTFOUND) /\
  exec_outcome (run_on iswordc e1 "Z]" 50) = Some (1, 0, 1).
Proof.
  intros iswordc e addr cs flags Hb Hc. unfold Compile. rewrite Hc.
  destruct e as [sta0 fl0 bol0 nfa0 bt0 ts0 pp0 pl0 pf0 cp0 bo0 eo0 pt0].
  simpl in Hb. subst bt0.
  destruct cs, (FlagSet flags FindOption_Posix); vm_compute; auto.
Qed.

Lemma negated_class_dash_bracket_witness :
  bittab RESearch_init = zeros /\
  cache_hit RESearch_init (Some (0, pat_ccl)) 5 0 = false /\
  let '(r, e1) := Compile default_iswordc RESearch_init (Some (0, pat_ccl)) 5 true 0 in
  r = None /\
  exec_outcome (run_on default_iswordc e1 "x]" 50) = Some (1, 0, 1) /\
  exec_outcome (run_on default_iswordc e1 "]" 50) = Some (0, NOTFOUND, NOTFOUND) /\
  exec_outcome (run_on default_iswordc e1 "Z]" 50) = Some (1, 0, 1).
Proof.
  split; [reflexivity|]. split; [vm_compute; reflexivity|].
  apply (negated_class_dash_bracket default_iswordc RESearch_init 0 true 0);
    vm_compute; reflexivity.
Defined.

(** C5 as stated fails: on the freshly constructed engine, [[^-]]] does
    match in [x]]. *)
Lemma negated_class_matches_x :
  let '(r, e1) := Compile default_iswordc RESearch_init (Some (0, pat_ccl)) 5 true 0 in
  r = None /\ exec_outcome (run_on default_iswordc e1 "x]" 50) = Some (1, 0, 1).
Proof. vm_compute. auto. Qed.

(** C3 (failing input [a??]): the closure-equivalence check of
    [DoCompile] only recognises [CLO] and [LCLO], so a second [?] wraps the
    [CLQ] of [a?] in another [CLQ]. The program of [a??] differs from the
    program of [a?], and [PMatch] rejects it as a bad program: [a?]
    matches [a], [a??] does not and sets [failure]. *)
Theorem doubled_optional_closure :
  forall iswordc e addr flags,
  cache_hit e (Some (addr, bytes "a?")) 2 flags = false ->
  cache_hit e (Some (addr, bytes "a??")) 3 flags = false ->
  let '(r1, e1) := Compile iswordc e (Some (addr, bytes "a?")) 2 true flags in
  let '(r2, e2) := Compile iswordc e (Some (addr, bytes "a??")) 3 true flags in
  r1 = None /\ r2 = None /\
  prog_prefix (nfa e1) 5 = [CLQ; CHR; 97; END; END] /\
  prog_prefix (nfa e2) 7 = [CLQ; CLQ; CHR; 97; END; END; END] /\
  exec_outcome (run_on iswordc e1 "a" 50) = Some (1, 0, 1) /\
  match run_on iswordc e2 "a" 50 with
  | Some (res, e3) => res = 0 /\ failure e3 = true
  | None => False
  end.
Proof.
  intros iswordc e addr flags H1 H2. unfold Compile. rewrite H1, H2.
  destruct (FlagSet flags FindOption_Posix); vm_compute; repeat split.
Qed.

Lemma doubled_optional_closure_witness :
  cache_hit RESearch_init (Some (0, bytes "a?")) 2 0 = false /\
  cache_hit RESearch_init (Some (0, bytes "a??")) 3 0 = false /\
  let '(r1, e1) := Compile default_iswordc RESearch_init (Some (0, bytes "a?")) 2 true 0 in
  let '(r2, e2) := Compile default_iswordc RESearch_init (Some (0, bytes "a??")) 3 true 0 in
  r1 = None /\ r2 = None /\
  prog_prefix (nfa e1) 5 = [CLQ; CHR; 97; END; END] /\
  prog_prefix (nfa e2) 7 = [CLQ; CLQ; CHR; 97; END; END; END] /\
  exec_outcome (run_on default_iswordc e1 "a" 50) = Some (1, 0, 1) /\
  match run_on default_iswordc e2 "a" 50 with
  | Some (res, e3) => res = 0 /\ failure e3 = true
  | None => False
  end.
Proof.
  split; [vm_compute; reflexivity|]. split; [vm_compute; reflexivity|].
  apply (doubled_optional_closure default_iswordc RESearch_init 0 0);
    vm_compute; reflexivity.
Defined.

(** C8: when no valid program is compiled, i.e. along any sequence of
    calls on a fresh engine in which [Compile] never succeeded or its most
    recent call returned an error string, every later [Execute], for any
    character indexer, start, end and fuel, returns 0. *)
Theorem execute_without_program :
  forall iswordc cs e rs,
  run_calls iswordc RESearch_init cs = Some (e, rs) ->
  last_result rs <> Some None ->
  forall ci lp endp fuel,
  option_map fst (Execute iswordc ci endp fuel e lp) = Some 0.
Proof.
  intros iswordc cs e rs H Hl ci lp endp fuel.
  assert (Hn : no_program e)
    by (eapply run_calls_no_program; [exact H | exact Hl | left; split; reflexivity]).
  destruct Hn as [_ Hn]. unfold Execute.
  assert (Hc : nfa (Clear (set_bol e lp false)) = nfa e).
  { unfold Clear. destruct (clear_from _ _ _ _ _) as [[bo eo] pt]. reflexivity. }
  rewrite Hc, Hn. reflexivity.
Qed.



Lemma execute_without_program_witness :
  let e := engine_after default_iswordc calls_bad in
  run_calls default_iswordc RESearch_init calls_bad = Some (e, [Some "Missing ]"%string]) /\
  last_result [Some "Missing ]"%string] <> Some None /\
  option_map fst (Execute default_iswordc (text_indexer (bytes "a[")) 2 10 e 0) = Some 0.
Proof.
  intros e. split; [vm_compute; reflexivity|]. split; [discriminate|].
  apply (execute_without_program default_iswordc calls_bad e [Some "Missing ]"%string]);
    [vm_compute; reflexivity | discriminate].
Defined.

(** C10: [Compile] with a null pattern or a zero length, while a program
    is compiled (status [OKP]), returns success and leaves the engine
    (program, cache fingerprint, status) unchanged; the same call on an
    engine no [Compile] ever succeeded on returns "No previous regular
    expression". *)
Theorem compile_null_pattern :
  forall iswordc e p l cs f,
  (p = None \/ l = 0) ->
  (sta e = OKP -> Compile iswordc e p l cs f = (None, e)) /\
  (forall calls rs, run_calls iswordc RESearch_init calls = Some (e, rs) -> ~ In None rs ->
   fst (Compile iswordc e p l cs f) = Some "No previous regular expression"%string).
Proof.
  intros iswordc e p l cs f Hp. split.
  - intros Hs. unfold Compile, cache_hit. rewrite Hs. simpl.
    destruct Hp as [Hp|Hp]; subst; [reflexivity|].
    destruct p as [[a m]|]; reflexivity.
  - intros calls rs Hr Hin.
    assert (Hn : no_program e).
    { eapply run_calls_no_program; [exact Hr | | left; split; reflexivity].
      intros Hl. apply Hin. apply last_result_In. exact Hl. }
    destruct Hn as [Hs _]. unfold Compile, cache_hit, DoCompile. rewrite Hs.
    destruct Hp as [Hp|Hp]; subst; [reflexivity|].
    destruct p as [[a m]|]; reflexivity.
Qed.


Lemma compile_null_pattern_witness :
  let e1 := engine_after default_iswordc calls_good in
  let e2 := engine_after default_iswordc calls_bad in
  sta e1 = OKP /\ Compile default_iswordc e1 None 5 true 0 = (None, e1) /\
  run_calls default_iswordc RESearch_init calls_bad = Some (e2, [Some "Missing ]"%string]) /\
  ~ In None [Some "Missing ]"%string] /\
  fst (Compile default_iswordc e2 None 5 true 0) = Some "No previous regular expression"%string.
Proof.
  intros e1 e2.
  assert (H1 : sta e1 = OKP) by (vm_compute; reflexivity).
  assert (H2 : run_calls default_iswordc RESearch_init calls_bad
               = Some (e2, [Some "Missing ]"%string])) by (vm_compute; reflexivity).
  assert (H3 : ~ In None [Some "Missing ]"%string]) by (simpl; intuition discriminate).
  split; [exact H1|]. split.
  - apply (compile_null_pattern default_iswordc e1 None 5 true 0); [left; reflexivity | exact H1].
  - split; [exact H2|]. split; [exact H3|].
    apply (proj2 (compile_null_pattern default_iswordc e2 None 5 true 0 (or_introl eq_refl))
             calls_bad [Some "Missing ]"%string] H2 H3).
Defined.

(** C9: along any sequence of calls on a fresh engine, an [Execute] that
    returns 0 (no match) leaves both whole-match bounds [bopat[0]] and
    [eopat[0]] at [NOTFOUND]: [Clear] resets them on entry, [PMatch] only
    writes the slots named by the group numbers of [BOT]/[EOT], which
    [DoCompile] makes non-zero, and group 0 is written only on the
    success path. *)
Theorem execute_fail_group0 :
  forall iswordc cs e rs ci endp fuel lp e',
  run_calls iswordc RESearch_init cs = Some (e, rs) ->
  Execute iswordc ci endp fuel e lp = Some (0, e') ->
  rd (bopat e') 0 = NOTFOUND /\ rd (eopat e') 0 = NOTFOUND.
Proof.
  intros iswordc cs e rs ci endp fuel lp e' Hr He.
  apply (Execute_fail_slot0 iswordc ci endp fuel e lp e'); [|exact He].
  exact (run_calls_wf iswordc cs RESearch_init e rs init_wf Hr).
Qed.

Lemma execute_fail_group0_witness :
  let e := engine_after default_iswordc calls_good in
  let r := Execute default_iswordc (text_indexer (bytes "xy")) 2 10 e 0 in
  let e' := match r with Some (_, e') => e' | None => e end in
  run_calls default_iswordc RESearch_init calls_good = Some (e, [None]) /\
  r = Some (0, e') /\
  rd (bopat e') 0 = NOTFOUND /\ rd (eopat e') 0 = NOTFOUND.
Proof.
  intros e r e'.
  assert (H1 : run_calls default_iswordc RESearch_init calls_good = Some (e, [None]))
    by (vm_compute; reflexivity).
  assert (H2 : r = Some (0, e')) by (vm_compute; reflexivity).
  split; [exact H1|]. split; [exact H2|].
  exact (execute_fail_group0 default_iswordc calls_good e [None]
           (text_indexer (bytes "xy")) 2 10 0 e' H1 H2).
Defined.

(** C1: a pattern compiled successfully need not match its own text:
    [a*] compiles (result null) but [Execute] over the text [a*] matches
    only [0, 1): the closure [a*] takes the [a] and the program ends. *)
Lemma compile_self_match_star :
  let cs := [CallCompile (Some (0, bytes "a*")) 2 true 0] in
  run_calls default_iswordc RESearch_init cs = Some (engine_after default_iswordc cs, [None])
  /\ exec_outcome (run_on default_iswordc (engine_after default_iswordc cs) "a*" 50)
     = Some (1, 0, 1).
Proof. split; vm_compute; reflexivity. Qed.

(** C1 (amended): after any sequence of calls on a fresh engine, if
    [Compile] of a non-empty pattern made only of plain bytes (1..255, none
    of [. [ * + ? \ ^ $ ( )]) returns success, then [Execute] from 0 with
    [endp = length] over an indexer whose [CharAt] gives the pattern's bytes
    on [0, length) returns 1 with [bopat[0] = 0] and [eopat[0] = length]. *)
Theorem compile_plain_self_match :
  forall iswordc cs e rs addr mem length caseSensitive flags e1 ci fuel,
  run_calls iswordc RESearch_init cs = Some (e, rs) ->
  Compile iswordc e (Some (addr, mem)) length caseSensitive flags = (None, e1) ->
  plain_pattern (take_mem mem length) = true ->
  (forall k, 0 <= k < length -> CharAt ci k = mem_at mem k) ->
  (Z.to_nat length < fuel)%nat ->
  exists e2, Execute iswordc ci length fuel e1 0 = Some (1, e2)
    /\ rd (bopat e2) 0 = 0 /\ rd (eopat e2) 0 = length.
Proof.
  intros iswordc cs e rs addr mem length caseSensitive flags e1 ci fuel Hr Hc Hp Hci Hf.
  pose proof (run_calls_okp iswordc cs RESearch_init e rs okp_inv_init Hr) as Hi.
  destruct (Compile_okp iswordc e _ _ _ _ _ _ Hi Hc) as [_ Hl].
  pose proof (Hl eq_refl addr mem eq_refl Hp) as Hlit.
  pose proof (plain_pattern_pos mem length Hp) as Hlen.
  pose proof (take_mem_length mem length) as HL.
  destruct (Execute_lit iswordc ci fuel e1 (take_mem mem length) Hlit) as [e2 [HE [Hb He]]].
  - intros Hn. rewrite Hn in HL. cbn in HL. lia.
  - intros k Hk. rewrite HL, Z2Nat.id in Hk by lia.
    rewrite take_mem_nth by lia. apply Hci. exact Hk.
  - rewrite HL. exact Hf.
  - rewrite HL, Z2Nat.id in HE, He by lia.
    exists e2. split; [exact HE|]. split; [exact Hb|exact He].
Qed.

Lemma compile_plain_self_match_witness :
  let e1 := snd (Compile default_iswordc RESearch_init (Some (0, bytes "ab")) 2 true 0) in
  run_calls default_iswordc RESearch_init [] = Some (RESearch_init, [])
  /\ Compile default_iswordc RESearch_init (Some (0, bytes "ab")) 2 true 0 = (None, e1)
  /\ plain_pattern (take_mem (bytes "ab") 2) = true
  /\ (forall k, 0 <= k < 2 -> CharAt (text_indexer (bytes "ab")) k = mem_at (bytes "ab") k)
  /\ (Z.to_nat 2 < 10)%nat
  /\ exists e2, Execute default_iswordc (text_indexer (bytes "ab")) 2 10 e1 0 = Some (1, e2)
       /\ rd (bopat e2) 0 = 0 /\ rd (eopat e2) 0 = 2.
Proof.
  intros e1.
  assert (H1 : run_calls default_iswordc RESearch_init [] = Some (RESearch_init, [])) by reflexivity.
  assert (H2 : Compile default_iswordc RESearch_init (Some (0, bytes "ab")) 2 true 0 = (None, e1))
    by (vm_compute; reflexivity).
  assert (H3 : plain_pattern (take_mem (bytes "ab") 2) = true) by (vm_compute; reflexivity).
  assert (H4 : forall k, 0 <= k < 2 -> CharAt (text_indexer (bytes "ab")) k = mem_at (bytes "ab") k).
  { intros k Hk. assert (Hk' : k = 0 \/ k = 1) by lia.
    destruct Hk' as [->| ->]; vm_compute; reflexivity. }
  assert (H5 : (Z.to_nat 2 < 10)%nat) by (simpl; lia).
  split; [exact H1|]. split; [exact H2|]. split; [exact H3|]. split; [exact H4|].
  split; [exact H5|].
  exact (compile_plain_self_match default_iswordc [] RESearch_init [] 0 (bytes "ab") 2 true 0 e1
           (text_indexer (bytes "ab")) 10 H1 H2 H3 H4 H5).
Defined.

End REFacts.


Module RExtra.
Import RE REInv REWf REPlain.

(** *** Backslash escapes, [ChSet] and [ChSetWithCase] *)

Lemma in_bytes256 : forall c, 0 <= c < 256 -> In c bytes256.
Proof.
  intros c Hc. unfold bytes256. apply in_map_iff. exists (Z.to_nat c).
  split; [apply Z2Nat.id; lia|apply in_seq; lia].
Qed.

Lemma hex_pair_all : forallb (fun c1 => forallb (hex_pair_ok c1) bytes256) bytes256 = true.
Proof. vm_compute. reflexivity. Qed.

Lemma hex_pair_spec : forall c1 c2, 0 <= c1 < 256 -> 0 <= c2 < 256 -> hex_pair_ok c1 c2 = true.
Proof.
  intros c1 c2 H1 H2. pose proof hex_pair_all as H. rewrite forallb_forall in H.
  specialize (H c1 (in_bytes256 c1 H1)). rewrite forallb_forall in H.
  exact (H c2 (in_bytes256 c2 H2)).
Qed.

(** [GetBackslashExpression] on [\x]: when the two bytes after the [x] are
    hex digits, the result is their value and [incr = 2]; otherwise the
    result is ['x'] itself and [incr = 0]; [bittab] is never touched. *)
Theorem backslash_hex : forall w pattern p bt,
  mem_at pattern p = 120 ->
  0 <= mem_at pattern (p + 1) < 256 -> 0 <= mem_at pattern (p + 2) < 256 ->
  GetBackslashExpression w pattern p bt =
    match hex_val (mem_at pattern (p + 1)), hex_val (mem_at pattern (p + 2)) with
    | Some d1, Some d2 => (16 * d1 + d2, 2, bt)
    | _, _ => (120, 0, bt)
    end.
Proof.
  intros w pattern p bt Hx H1 H2. unfold GetBackslashExpression. rewrite Hx. cbn -[GetHexValue].
  pose proof (hex_pair_spec _ _ H1 H2) as H. unfold hex_pair_ok in H.
  destruct (hex_val (mem_at pattern (p + 1))) as [d1|];
  destruct (hex_val (mem_at pattern (p + 2))) as [d2|];
  try (apply Z.ltb_lt in H; destruct (0 <=? _) eqn:E; [apply Z.leb_le in E; lia|reflexivity]).
  apply andb_true_iff in H. destruct H as [H H0]. apply Z.eqb_eq in H. rewrite H, H0.
  reflexivity.
Qed.

Lemma backslash_hex_witness :
  GetBackslashExpression default_iswordc (bytes "x7F") 0 zeros = (127, 2, zeros)
  /\ GetBackslashExpression default_iswordc (bytes "x7G") 0 zeros = (120, 0, zeros).
Proof.
  assert (H0 : mem_at (bytes "x7F") 0 = 120) by reflexivity.
  assert (H1 : 0 <= mem_at (bytes "x7F") (0 + 1) < 256) by (split; [apply Z.leb_le|apply Z.ltb_lt]; reflexivity).
  assert (H2 : 0 <= mem_at (bytes "x7F") (0 + 2) < 256) by (split; [apply Z.leb_le|apply Z.ltb_lt]; reflexivity).
  assert (G0 : mem_at (bytes "x7G") 0 = 120) by reflexivity.
  assert (G1 : 0 <= mem_at (bytes "x7G") (0 + 1) < 256) by (split; [apply Z.leb_le|apply Z.ltb_lt]; reflexivity).
  assert (G2 : 0 <= mem_at (bytes "x7G") (0 + 2) < 256) by (split; [apply Z.leb_le|apply Z.ltb_lt]; reflexivity).
  split.
  - exact (backslash_hex default_iswordc (bytes "x7F") 0 zeros H0 H1 H2).
  - exact (backslash_hex default_iswordc (bytes "x7G") 0 zeros G0 G1 G2).
Defined.

(** [GetBackslashExpression] on any byte other than the escape letters
    [a b f n r t v e], [x] and the class letters [d D s S w W]: the byte
    itself ([\] for the terminating NUL), [incr = 0], [bittab] unchanged. *)
Theorem backslash_plain : forall w pattern p bt,
  ~ In (mem_at pattern p) [97; 98; 102; 110; 114; 116; 118; 101; 120; 100; 68; 115; 83; 119; 87] ->
  GetBackslashExpression w pattern p bt
  = (if mem_at pattern p =? 0 then 92 else mem_at pattern p, 0, bt).
Proof.
  intros w pattern p bt Hn. unfold GetBackslashExpression.
  set (c := mem_at pattern p) in *. clearbody c.
  destruct (c =? 0); [reflexivity|].
  assert (Hx : forall d, In d [97; 98; 102; 110; 114; 116; 118; 101; 120; 100; 68; 115; 83; 119; 87] ->
            (c =? d) = false) by (intros d Hd; apply Z.eqb_neq; intros ->; contradiction).
  replace (existsb (Z.eqb c) [97; 98; 110; 102; 114; 116; 118; 101]) with false.
  2:{ symmetry. apply Bool.not_true_iff_false. intros Hb. apply existsb_exists in Hb.
      destruct Hb as [d [Hd Hcd]]. apply Z.eqb_eq in Hcd. subst d. apply Hn.
      cbn in Hd |- *. tauto. }
  rewrite !Hx by (cbn; tauto). reflexivity.
Qed.

Lemma backslash_plain_witness :
  GetBackslashExpression default_iswordc (bytes "q") 0 zeros = (113, 0, zeros)
  /\ GetBackslashExpression default_iswordc [] 0 zeros = (92, 0, zeros).
Proof.
  assert (H1 : ~ In (mem_at (bytes "q") 0)
                 [97; 98; 102; 110; 114; 116; 118; 101; 120; 100; 68; 115; 83; 119; 87])
    by (vm_compute; intros H; repeat destruct H as [H|H]; discriminate || contradiction).
  assert (H2 : ~ In (mem_at [] 0)
                 [97; 98; 102; 110; 114; 116; 118; 101; 120; 100; 68; 115; 83; 119; 87])
    by (vm_compute; intros H; repeat destruct H as [H|H]; discriminate || contradiction).
  split.
  - exact (backslash_plain default_iswordc (bytes "q") 0 zeros H1).
  - exact (backslash_plain default_iswordc [] 0 zeros H2).
Defined.

Lemma byte_split : forall c, 0 <= c -> c = 8 * Z.shiftr c 3 + Z.land c BITIND.
Proof.
  intros c Hc. rewrite Z.shiftr_div_pow2 by lia. unfold BITIND.
  change 7 with (Z.ones 3). rewrite Z.land_ones by lia. change (2 ^ 3) with 8.
  pose proof (Z.div_mod c 8). lia.
Qed.

Lemma low3_range : forall c, 0 <= Z.land c BITIND < 8.
Proof.
  intros c. unfold BITIND. change 7 with (Z.ones 3). rewrite Z.land_ones by lia.
  change (2 ^ 3) with 8. pose proof (Z.mod_pos_bound c 8). lia.
Qed.

Lemma ChSet_spec : forall bt c c', 0 <= c -> 0 <= c' ->
  has_bit (ChSet bt c) c' <-> has_bit bt c' \/ c' = c.
Proof.
  intros bt c c' Hc Hc'. unfold has_bit, ChSet. rewrite rd_wr.
  destruct (Z.shiftr c' 3 =? Z.shiftr c 3) eqn:E.
  - apply Z.eqb_eq in E. rewrite Z.lor_spec, Z.shiftl_1_l, Z.pow2_bits_eqb
      by apply (proj1 (low3_range c)).
    rewrite <- E, orb_true_iff, Z.eqb_eq.
    pose proof (byte_split c Hc) as B1. pose proof (byte_split c' Hc') as B2.
    pose proof (low3_range c) as L1. pose proof (low3_range c') as L2.
    split; intros [H|H]; auto.
    + right. lia.
    + right. subst c'. reflexivity.
  - split; [intros H; left; exact H|]. intros [H|H]; [exact H|].
    subst c'. rewrite Z.eqb_refl in E. discriminate.
Qed.

Lemma ChSetAll_spec : forall bt f c, 0 <= c < 256 ->
  has_bit (ChSetAll bt f) c <-> has_bit bt c \/ f c = true.
Proof.
  intros bt f c Hc. unfold ChSetAll. change (map Z.of_nat (seq 0 (Z.to_nat MAXCHR))) with bytes256.
  assert (Hgen : forall l b, (forall x, In x l -> 0 <= x) ->
    has_bit (fold_left (fun b c => if f c then ChSet b c else b) l b) c <->
    has_bit b c \/ (In c l /\ f c = true)).
  { induction l as [|x l IH]; intros b Hl; cbn [fold_left].
    - cbn [In]. tauto.
    - rewrite IH by (intros y Hy; apply Hl; right; exact Hy).
      assert (Hx : 0 <= x) by (apply Hl; left; reflexivity).
      destruct (f x) eqn:Ef.
      + rewrite ChSet_spec by lia. cbn [In].
        split; [intros [[H|H]|[H1 H2]]; auto; subst; auto|].
        intros [H|[[H1|H1] H2]]; auto.
      + cbn [In]. split; [intros [H|[H1 H2]]; auto|].
        intros [H|[[H1|H1] H2]]; auto. subst. congruence. }
  rewrite Hgen.
  - pose proof (in_bytes256 c Hc). tauto.
  - intros x Hx. unfold bytes256 in Hx. apply in_map_iff in Hx. destruct Hx as [n [<- _]]. lia.
Qed.

(** [GetBackslashExpression] on the class letters [d D s S w W]: the
    result is [-1], [incr = 0], and [bittab] gains exactly the bytes of the
    class (digits, non-digits, white space, non-white-space, word
    characters of [iswordc], non-word characters). *)
Theorem backslash_classes : forall w pattern p bt c, 0 <= c < 256 ->
  let r := GetBackslashExpression w pattern p bt in
  let bsc := mem_at pattern p in
  (bsc = 100 -> fst (fst r) = -1 /\ snd (fst r) = 0 /\
     (has_bit (snd r) c <-> has_bit bt c \/ 48 <= c <= 57)) /\
  (bsc = 68 -> fst (fst r) = -1 /\ snd (fst r) = 0 /\
     (has_bit (snd r) c <-> has_bit bt c \/ ~ (48 <= c <= 57))) /\
  (bsc = 115 -> fst (fst r) = -1 /\ snd (fst r) = 0 /\
     (has_bit (snd r) c <-> has_bit bt c \/ c = 32 \/ 9 <= c <= 13)) /\
  (bsc = 83 -> fst (fst r) = -1 /\ snd (fst r) = 0 /\
     (has_bit (snd r) c <-> has_bit bt c \/ ~ (c = 32 \/ 9 <= c <= 13))) /\
  (bsc = 119 -> fst (fst r) = -1 /\ snd (fst r) = 0 /\
     (has_bit (snd r) c <-> has_bit bt c \/ w c = true)) /\
  (bsc = 87 -> fst (fst r) = -1 /\ snd (fst r) = 0 /\
     (has_bit (snd r) c <-> has_bit bt c \/ w c = false)).
Proof.
  intros w pattern p bt c Hc r bsc. unfold r, bsc; clear r bsc.
  unfold GetBackslashExpression.
  split; [|split; [|split; [|split; [|split]]]]; intros Hb; rewrite Hb;
    cbn [Z.eqb Pos.eqb existsb orb fst snd]; (split; [reflexivity|split; [reflexivity|]]).
  - rewrite ChSetAll_spec by exact Hc. rewrite andb_true_iff, !Z.leb_le. reflexivity.
  - rewrite ChSetAll_spec by exact Hc. rewrite orb_true_iff, !Z.ltb_lt. split; intros [H|H]; auto; right; lia.
  - cbn [fold_left]. rewrite !ChSet_spec by lia. split.
    + intros H. repeat destruct H as [H|H]; solve [left; exact H | right; lia].
    + intros [H|H]; [tauto|].
      assert (c = 32 \/ c = 9 \/ c = 10 \/ c = 13 \/ c = 12 \/ c = 11) by lia. tauto.
  - rewrite ChSetAll_spec by exact Hc. rewrite andb_true_iff, !negb_true_iff, andb_false_iff, Z.eqb_neq, !Z.leb_gt.
    split; intros [H|H]; auto; right; lia.
  - rewrite ChSetAll_spec by exact Hc. reflexivity.
  - rewrite ChSetAll_spec by exact Hc. rewrite negb_true_iff. reflexivity.
Qed.

(** [ChSetWithCase] adds [c] to [bittab]; when matching is not
    case-sensitive it also adds the other case of an ASCII letter, and
    nothing else; earlier bits are kept. *)
Theorem ChSetWithCase_spec : forall bt c c' caseSensitive, 0 <= c < 256 -> 0 <= c' ->
  has_bit (ChSetWithCase bt c caseSensitive) c' <->
  has_bit bt c' \/ c' = c \/
  (caseSensitive = false /\
   ((97 <= c <= 122 /\ c' = c - 32) \/ (65 <= c <= 90 /\ c' = c + 32))).
Proof.
  intros bt c c' cs Hc Hc'. unfold ChSetWithCase.
  destruct cs.
  - rewrite ChSet_spec by lia. split; [tauto|]. intros [H|[H|[H _]]]; [tauto|tauto|discriminate].
  - destruct ((97 <=? c) && (c <=? 122)) eqn:E1.
    + apply andb_true_iff in E1. destruct E1 as [E1 E2]. apply Z.leb_le in E1, E2.
      rewrite !ChSet_spec by lia. split.
      * intros [[H|H]|H]; [tauto|tauto|]. right. right. split; [reflexivity|]. left. lia.
      * intros [H|[H|[_ [[_ H]|[H _]]]]]; [tauto|tauto| |lia]. right. lia.
    + destruct ((65 <=? c) && (c <=? 90)) eqn:E3.
      * apply andb_true_iff in E3. destruct E3 as [E3 E4]. apply Z.leb_le in E3, E4.
        rewrite !ChSet_spec by lia. split.
        -- intros [[H|H]|H]; [tauto|tauto|]. right. right. split; [reflexivity|]. right. lia.
        -- intros [H|[H|[_ [[H _]|[_ H]]]]]; [tauto|tauto|lia|]. right. lia.
      * rewrite ChSet_spec by lia. split; [tauto|].
        intros [H|[H|[_ [[H _]|[H _]]]]]; [tauto|tauto| |].
        -- apply andb_false_iff in E1. destruct E1 as [E|E]; apply Z.leb_gt in E; lia.
        -- apply andb_false_iff in E3. destruct E3 as [E|E]; apply Z.leb_gt in E; lia.
Qed.

Lemma backslash_classes_witness :
  0 <= 55 < 256 /\
  let r := GetBackslashExpression default_iswordc (bytes "d") 0 zeros in
  fst (fst r) = -1 /\ snd (fst r) = 0 /\ (has_bit (snd r) 55 <-> has_bit zeros 55 \/ 48 <= 55 <= 57).
Proof.
  assert (Hc : 0 <= 55 < 256) by lia. split; [exact Hc|].
  exact (proj1 (backslash_classes default_iswordc (bytes "d") 0 zeros 55 Hc) eq_refl).
Defined.

Lemma ChSetWithCase_spec_witness :
  0 <= 97 < 256 /\ 0 <= 65 /\
  (has_bit (ChSetWithCase zeros 97 false) 65 <->
   has_bit zeros 65 \/ 65 = 97 \/
   (false = false /\ ((97 <= 97 <= 122 /\ 65 = 97 - 32) \/ (65 <= 97 <= 90 /\ 65 = 97 + 32)))).
Proof.
  assert (H1 : 0 <= 97 < 256) by lia. assert (H2 : 0 <= 65) by lia.
  split; [exact H1|split; [exact H2|]].
  exact (ChSetWithCase_spec zeros 97 65 false H1 H2).
Defined.

(** *** The compile cache and [ClearCache] *)

Lemma list_Z_eqb_refl : forall a, list_Z_eqb a a = true.
Proof. induction a as [|x a IH]; [reflexivity|]. cbn. rewrite Z.eqb_refl. exact IH. Qed.

Lemma Compile_sets_cache : forall w e addr mem length caseSensitive flags e1,
  0 < length ->
  Compile w e (Some (addr, mem)) length caseSensitive flags = (None, e1) ->
  cache_hit e1 (Some (addr, mem)) length flags = true.
Proof.
  intros w e addr mem length cs flags e1 Hl H. unfold Compile in H.
  destruct (cache_hit e (Some (addr, mem)) length flags) eqn:Hh.
  - injection H as <-. exact Hh.
  - destruct (DoCompile w e (option_map snd (Some (addr, mem))) length cs
                (FlagSet flags FindOption_Posix)) as [r e2] eqn:Hd.
    destruct r as [msg|]; [discriminate|]. injection H as <-.
    apply DoCompile_cases in Hd.
    destruct Hd as [[_ [_ [Hp|Hp]]]|[[Hn _]|[_ [Hs _]]]];
      [discriminate|lia|contradiction Hn; reflexivity|].
    unfold cache_hit. cbn [sta set_cache previousPattern previousLength previousFlags
      cachedPattern ptr_eqb]. rewrite Hs, !Z.eqb_refl, list_Z_eqb_refl. apply orb_true_r.
Qed.

Lemma cache_hit_prog : forall e e' p l f,
  prog_part e = prog_part e' -> cache_hit e p l f = cache_hit e' p l f.
Proof.
  intros e e' p l f H. unfold prog_part in H. injection H as H1 _ _ _ H5 H6 H7 H8.
  unfold cache_hit. rewrite H1, H5, H6, H7, H8. reflexivity.
Qed.

(** [Compile]: once a pattern has compiled, compiling the same pattern
    text at the same address with the same flags again is a cache hit that
    keeps the engine as it is, whatever [caseSensitive] is now: the cache
    key does not include case sensitivity. *)
Theorem compile_repeat_cached : forall w e addr mem length caseSensitive flags e1 caseSensitive',
  0 < length ->
  Compile w e (Some (addr, mem)) length caseSensitive flags = (None, e1) ->
  Compile w e1 (Some (addr, mem)) length caseSensitive' flags = (None, e1).
Proof.
  intros w e addr mem length cs flags e1 cs' Hl H. unfold Compile.
  rewrite (Compile_sets_cache w e addr mem length cs flags e1 Hl H). reflexivity.
Qed.

Lemma compile_repeat_cached_witness :
  let e1 := snd (Compile default_iswordc RESearch_init (Some (0, bytes "ab")) 2 true 0) in
  Compile default_iswordc RESearch_init (Some (0, bytes "ab")) 2 true 0 = (None, e1)
  /\ Compile default_iswordc e1 (Some (0, bytes "ab")) 2 false 0 = (None, e1).
Proof.
  intros e1.
  assert (H1 : 0 < 2) by lia.
  assert (H2 : Compile default_iswordc RESearch_init (Some (0, bytes "ab")) 2 true 0 = (None, e1))
    by (vm_compute; reflexivity).
  split; [exact H2|].
  exact (compile_repeat_cached default_iswordc RESearch_init 0 (bytes "ab") 2 true 0 e1 false H1 H2).
Defined.

(** [Compile] then [Execute]: a search does not change the compiled
    program, so compiling the same pattern again after a search is still a
    cache hit that keeps the engine, with any [caseSensitive]. *)
Theorem compile_execute_cached : forall w e addr mem length caseSensitive flags e1
  ci endp fuel lp r e2 caseSensitive',
  0 < length ->
  Compile w e (Some (addr, mem)) length caseSensitive flags = (None, e1) ->
  Execute w ci endp fuel e1 lp = Some (r, e2) ->
  Compile w e2 (Some (addr, mem)) length caseSensitive' flags = (None, e2)
  /\ prog_part e2 = prog_part e1.
Proof.
  intros w e addr mem length cs flags e1 ci endp fuel lp r e2 cs' Hl Hc Hx.
  pose proof (Execute_prog w ci endp fuel e1 lp r e2 Hx) as Hp.
  split; [|exact Hp].
  unfold Compile. rewrite (cache_hit_prog e2 e1) by exact Hp.
  rewrite (Compile_sets_cache w e addr mem length cs flags e1 Hl Hc). reflexivity.
Qed.

Lemma compile_execute_cached_witness :
  let e1 := snd (Compile default_iswordc RESearch_init (Some (0, bytes "ab")) 2 true 0) in
  exists r e2, Execute default_iswordc (text_indexer (bytes "xab")) 3 10 e1 0 = Some (r, e2)
  /\ Compile default_iswordc e2 (Some (0, bytes "ab")) 2 false 0 = (None, e2)
  /\ prog_part e2 = prog_part e1.
Proof.
  intros e1.
  assert (H1 : 0 < 2) by lia.
  assert (H2 : Compile default_iswordc RESearch_init (Some (0, bytes "ab")) 2 true 0 = (None, e1))
    by (vm_compute; reflexivity).
  destruct (Execute default_iswordc (text_indexer (bytes "xab")) 3 10 e1 0) as [[r e2]|] eqn:H3;
    [|vm_compute in H3; discriminate H3].
  exists r, e2. split; [reflexivity|].
  exact (compile_execute_cached default_iswordc RESearch_init 0 (bytes "ab") 2 true 0 e1
           (text_indexer (bytes "xab")) 3 10 0 r e2 false H1 H2 H3).
Defined.

Lemma clo_loop_ClearCache : forall pm pm' m are ap op offset,
  (forall st a b c d, pm' (ClearCache st) a b c d = option_map cc3 (pm st a b c d)) ->
  forall k llp lp x st,
  clo_loop pm' m are ap op offset k llp lp x (ClearCache st)
  = option_map cc3 (clo_loop pm m are ap op offset k llp lp x st).
Proof.
  intros pm pm' m are ap op offset Hpm k. induction k as [|k IH]; intros llp lp x st; [reflexivity|].
  cbn [clo_loop]. destruct (are <=? llp).
  - rewrite Hpm. destruct (pm st llp ap (-1) (Some (-1))) as [[[q qoff] st']|]; [|reflexivity].
    cbn [option_map cc3].
    destruct (negb (q =? NOTFOUND)); cbn [fst snd];
      [destruct (negb (op =? LCLO)); [reflexivity|]|];
      (destruct (rd m ap =? END); [reflexivity|apply IH]).
  - destruct (rd m ap =? EOT); [|reflexivity].
    rewrite Hpm. destruct (pm st lp ap 1 None) as [[[q qoff] st']|]; reflexivity.
Qed.

Lemma PMatch_ClearCache : forall w ci endp fuel e lp ap md off,
  PMatch w ci endp fuel (ClearCache e) lp ap md off
  = option_map cc3 (PMatch w ci endp fuel e lp ap md off).
Proof.
  intros w ci endp fuel. induction fuel as [|f IH]; intros e lp ap md off; [reflexivity|].
  cbn [PMatch].
  change (nfa (ClearCache e)) with (nfa e). change (bol (ClearCache e)) with (bol e).
  change (bopat (ClearCache e)) with (bopat e). change (eopat (ClearCache e)) with (eopat e).
  change (failure (ClearCache e)) with (failure e).
  repeat match goal with
  | |- context [if ?b then _ else _] => destruct b
  | |- context [match ref_loop ?a ?b ?c ?d ?g with _ => _ end] =>
      destruct (ref_loop a b c d g)
  end; try reflexivity.
  all: first [ rewrite <- IH; reflexivity
             | apply clo_loop_ClearCache; intros; apply IH
             | idtac ].
Qed.

Lemma exec_scan_ClearCache : forall w ci endp fuel k e lp,
  exec_scan w ci endp fuel k (ClearCache e) lp
  = option_map (fun r => let '(a, b, e) := r in (a, b, ClearCache e))
      (exec_scan w ci endp fuel k e lp).
Proof.
  intros w ci endp fuel k. induction k as [|k IH]; intros e lp; [reflexivity|].
  cbn [exec_scan]. destruct (lp <? endp); [|reflexivity].
  rewrite PMatch_ClearCache.
  destruct (PMatch w ci endp fuel e lp 0 1 (Some 1)) as [[[ep o] e2]|]; [|reflexivity].
  cbn [option_map cc3]. destruct (negb (ep =? NOTFOUND)); [reflexivity|apply IH].
Qed.

(** [ClearCache] forgets only the cache key: a search from an engine whose
    cache was cleared gives the same result, and the same engine with its
    cache cleared, as the search from the engine itself. *)
Theorem ClearCache_Execute : forall w ci endp fuel e lp,
  Execute w ci endp fuel (ClearCache e) lp
  = option_map (fun r => (fst r, ClearCache (snd r))) (Execute w ci endp fuel e lp).
Proof.
  intros w ci endp fuel e lp. unfold Execute.
  change (Clear (set_bol (ClearCache e) lp false)) with (ClearCache (Clear (set_bol e lp false))).
  set (e0 := Clear (set_bol e lp false)). clearbody e0.
  change (nfa (ClearCache e0)) with (nfa e0).
  rewrite PMatch_ClearCache, !exec_scan_ClearCache.
  destruct (rd (nfa e0) 0 =? BOL).
  - destruct (PMatch w ci endp fuel e0 lp 0 1 None) as [[[ep o] e2]|]; [|reflexivity].
    cbn [option_map cc3 exec_finish]. destruct (ep =? NOTFOUND); reflexivity.
  - destruct (rd (nfa e0) 0 =? EOL).
    + destruct (rd (nfa e0) 1 =? END); [|reflexivity].
      cbn [exec_finish]. destruct (endp =? NOTFOUND); reflexivity.
    + destruct (rd (nfa e0) 0 =? END); [reflexivity|].
      destruct (rd (nfa e0) 0 =? CHR);
        [destruct (endp <=? skip_to ci endp (rd (nfa e0) 1) (Z.to_nat (endp - lp)) lp);
         [reflexivity|]|];
        match goal with |- context [exec_scan w ci endp fuel fuel e0 ?l] =>
          destruct (exec_scan w ci endp fuel fuel e0 l) as [[[ep l'] e2]|] end;
        cbn [option_map exec_finish]; try reflexivity;
        destruct (ep =? NOTFOUND); reflexivity.
Qed.

(** *** [Execute] on an empty range and on an absent first character *)

Lemma skip_to_absent : forall ci endp c k lp,
  (forall q, lp <= q < endp -> CharAt ci q <> c) -> endp - lp <= Z.of_nat k ->
  endp <= skip_to ci endp c k lp.
Proof.
  intros ci endp c k. induction k as [|k IH]; intros lp Hq Hk; cbn [skip_to]; [lia|].
  destruct (lp <? endp) eqn:E; [|apply Z.ltb_ge in E; exact E].
  apply Z.ltb_lt in E.
  assert (Hn : (CharAt ci lp =? c) = false) by (apply Z.eqb_neq, Hq; lia).
  rewrite Hn. cbn. apply IH; [intros q Hq'; apply Hq; lia|lia].
Qed.

(** [Execute] with the start at or past the end of the text (and a
    program that does not start with [BOL]): no character is read and the
    search succeeds only for the program [$] alone, which matches the empty
    text at the end. *)
Theorem execute_empty_range : forall w ci endp fuel e lp,
  0 <= endp -> endp <= lp -> (0 < fuel)%nat -> rd (nfa e) 0 <> BOL ->
  exists e', Execute w ci endp fuel e lp
    = Some (if (rd (nfa e) 0 =? EOL) && (rd (nfa e) 1 =? END) then 1 else 0, e').
Proof.
  intros w ci endp fuel e lp H0 Hle Hf Hb. unfold Execute.
  assert (Hn : nfa (Clear (set_bol e lp false)) = nfa e) by (rewrite Clear_keeps_nfa; reflexivity).
  set (e0 := Clear (set_bol e lp false)) in *. clearbody e0. rewrite Hn.
  destruct (rd (nfa e) 0 =? BOL) eqn:EB; [apply Z.eqb_eq in EB; contradiction|].
  destruct (rd (nfa e) 0 =? EOL) eqn:EE.
  - cbn [andb]. destruct (rd (nfa e) 1 =? END); [|eexists; reflexivity].
    cbn [exec_finish]. destruct (endp =? NOTFOUND) eqn:EN;
      [apply Z.eqb_eq in EN; unfold NOTFOUND in EN; lia|eexists; reflexivity].
  - cbn [andb].
    assert (Hs : exec_finish (exec_scan w ci endp fuel fuel e0 lp) = Some (0, e0)).
    { destruct fuel as [|f]; [lia|]. cbn [exec_scan].
      destruct (lp <? endp) eqn:E; [apply Z.ltb_lt in E; lia|]. reflexivity. }
    destruct (rd (nfa e) 0 =? END); [eexists; reflexivity|].
    destruct (rd (nfa e) 0 =? CHR); [|rewrite Hs; eexists; reflexivity].
    replace (Z.to_nat (endp - lp)) with 0%nat by lia. cbn [skip_to].
    destruct (endp <=? lp) eqn:E; [eexists; reflexivity|apply Z.leb_gt in E; lia].
Qed.

Lemma execute_empty_range_witness :
  let e1 := snd (Compile default_iswordc RESearch_init (Some (0, bytes "ab")) 2 true 0) in
  let e2 := snd (Compile default_iswordc RESearch_init (Some (0, bytes "$")) 1 true 0) in
  (exists e', Execute default_iswordc (text_indexer (bytes "ab")) 2 1 e1 2 = Some (0, e'))
  /\ (exists e', Execute default_iswordc (text_indexer (bytes "ab")) 2 1 e2 2 = Some (1, e')).
Proof.
  intros e1 e2.
  assert (H0 : 0 <= 2) by lia. assert (H1 : 2 <= 2) by lia. assert (H2 : (0 < 1)%nat) by lia.
  assert (H3 : rd (nfa e1) 0 <> BOL) by (intro Hf; vm_compute in Hf; discriminate Hf).
  assert (G3 : rd (nfa e2) 0 <> BOL) by (intro Hf; vm_compute in Hf; discriminate Hf).
  split.
  - exact (execute_empty_range default_iswordc (text_indexer (bytes "ab")) 2 1 e1 2 H0 H1 H2 H3).
  - exact (execute_empty_range default_iswordc (text_indexer (bytes "ab")) 2 1 e2 2 H0 H1 H2 G3).
Defined.

(** [Execute] on a program that starts with a literal character: when that
    character does not occur between the start and the end, the search
    fails without running the matcher. *)
Theorem execute_chr_absent : forall w ci endp fuel e lp,
  rd (nfa e) 0 = CHR -> (forall q, lp <= q < endp -> CharAt ci q <> rd (nfa e) 1) ->
  exists e', Execute w ci endp fuel e lp = Some (0, e').
Proof.
  intros w ci endp fuel e lp Hc Hq. unfold Execute.
  assert (Hn : nfa (Clear (set_bol e lp false)) = nfa e) by (rewrite Clear_keeps_nfa; reflexivity).
  set (e0 := Clear (set_bol e lp false)) in *. clearbody e0. rewrite Hn, Hc.
  cbn [Z.eqb CHR BOL EOL END Pos.eqb].
  pose proof (skip_to_absent ci endp (rd (nfa e) 1) (Z.to_nat (endp - lp)) lp Hq) as Hs.
  destruct (endp <=? skip_to ci endp (rd (nfa e) 1) (Z.to_nat (endp - lp)) lp) eqn:E;
    [eexists; reflexivity|apply Z.leb_gt in E; lia].
Qed.

Lemma execute_chr_absent_witness :
  let e1 := snd (Compile default_iswordc RESearch_init (Some (0, bytes "ab")) 2 true 0) in
  exists e', Execute default_iswordc (text_indexer (bytes "xyz")) 3 10 e1 0 = Some (0, e').
Proof.
  intros e1.
  assert (H1 : rd (nfa e1) 0 = CHR) by (vm_compute; reflexivity).
  assert (H2 : forall q, 0 <= q < 3 -> CharAt (text_indexer (bytes "xyz")) q <> rd (nfa e1) 1).
  { intros q Hq. assert (Hc : q = 0 \/ q = 1 \/ q = 2) by lia.
    destruct Hc as [->|[->| ->]]; intro Hf; vm_compute in Hf; discriminate Hf. }
  exact (execute_chr_absent default_iswordc (text_indexer (bytes "xyz")) 3 10 e1 0 H1 H2).
Defined.

(** *** [DoCompile] error cases *)

(** [DoCompile] on a pattern that starts with [*], [+] or [?]: the error
    [Empty closure], and the engine is left with no program. *)
Theorem compile_empty_closure : forall w e mem length cs posix,
  0 < length -> In (mem_at mem 0) [42; 43; 63] ->
  fst (DoCompile w e (Some mem) length cs posix) = Some "Empty closure"%string
  /\ no_program (snd (DoCompile w e (Some mem) length cs posix)).
Proof.
  intros w e mem length cs posix Hl Hin. unfold DoCompile.
  destruct (length =? 0) eqn:E; [apply Z.eqb_eq in E; lia|].
  replace (S (Z.to_nat length)) with (S (S (Z.to_nat length - 1))) by lia.
  cbn [compile_loop c_i c_mp]. destruct (0 <? length) eqn:E2; [|apply Z.ltb_ge in E2; lia].
  cbn [mpMax MAXNFA BITBLK]. cbn - [compile_ccl compile_backslash compile_ordinary].
  unfold compile_one. cbn [c_mp c_p]. unfold at_p.
  destruct Hin as [<-|[<-|[<-|[]]]]; cbn; split; try reflexivity; split; reflexivity.
Qed.

Lemma compile_empty_closure_witness :
  fst (DoCompile default_iswordc RESearch_init (Some (bytes "*a")) 2 true false)
    = Some "Empty closure"%string
  /\ no_program (snd (DoCompile default_iswordc RESearch_init (Some (bytes "*a")) 2 true false)).
Proof.
  assert (H1 : 0 < 2) by lia.
  assert (H2 : In (mem_at (bytes "*a") 0) [42; 43; 63]) by (left; reflexivity).
  exact (compile_empty_closure default_iswordc RESearch_init (bytes "*a") 2 true false H1 H2).
Defined.

Lemma compile_bow_first : forall w cs,
  rd (nfa (snd (Compile w RESearch_init (Some (0, bytes "\<")) 2 cs 0))) 0 = BOW.
Proof.
  intros w cs. unfold Compile, cache_hit, RESearch_init. simpl.
  unfold DoCompile; simpl.
  unfold compile_one, compile_backslash, at_p, mem_at, with_sp, with_ip, emit, with_nfa_mp; simpl.
  reflexivity.
Qed.

(** [DoCompile] on [\>] (and on [\H]) reads the first cell of the program
    left by the previous compile: the error [Null pattern inside \<\>]
    ([\h\H]) is raised exactly when that cell holds [BOW]
    ([EXP_MATCH_WORD_START]), so [\>] fails right after [\<] was compiled
    and compiles otherwise. *)
Theorem compile_word_end_history : forall w e cs posix,
  (fst (DoCompile w e (Some (bytes "\>")) 2 cs posix)
    = (if rd (nfa e) 0 =? BOW then Some "Null pattern inside \<\>"%string else None)
  /\ fst (DoCompile w e (Some (bytes "\H")) 2 cs posix)
    = (if rd (nfa e) 0 =? EXP_MATCH_WORD_START then Some "Null pattern inside \h\H"%string
       else None))
  /\ forall cs', fst (DoCompile w (snd (Compile w RESearch_init (Some (0, bytes "\<")) 2 cs' 0))
                    (Some (bytes "\>")) 2 cs posix) = Some "Null pattern inside \<\>"%string.
Proof.
  assert (Hg : forall w e cs posix,
    fst (DoCompile w e (Some (bytes "\>")) 2 cs posix)
      = (if rd (nfa e) 0 =? BOW then Some "Null pattern inside \<\>"%string else None)
    /\ fst (DoCompile w e (Some (bytes "\H")) 2 cs posix)
      = (if rd (nfa e) 0 =? EXP_MATCH_WORD_START then Some "Null pattern inside \h\H"%string
         else None)).
  { intros w e cs posix. destruct e as [s f b m bt tg pp pl pf cp bo eo pt].
    split; unfold DoCompile; simpl;
      unfold compile_one, compile_backslash, at_p, mem_at, with_sp, with_ip, emit, with_nfa_mp;
      simpl; unfold rd; destruct (m 0 =? _); simpl; reflexivity. }
  intros w e cs posix. split; [apply Hg|].
  intros cs'. rewrite (proj1 (Hg _ _ _ _)), compile_bow_first. reflexivity.
Qed.

(** *** [GrabMatches] *)

Lemma grab_from_spec : forall ci k i e,
  (forall j, i <= j < i + Z.of_nat k -> found e j = true -> rd (bopat e) j <= rd (eopat e) j) ->
  exists e', grab_from ci k i e = Some e'
    /\ bopat e' = bopat e /\ eopat e' = eopat e /\ prog_part e' = prog_part e
    /\ (forall j, pat e' j = if (i <=? j) && (j <? i + Z.of_nat k) && found e j
                             then group_text ci e j else pat e j).
Proof.
  intros ci k. induction k as [|k IH]; intros i e Hok.
  - exists e. repeat split. intros j.
    destruct ((i <=? j) && (j <? i + Z.of_nat 0) && found e j) eqn:E; [|reflexivity].
    apply andb_prop in E. destruct E as [E _]. apply andb_prop in E. destruct E as [E1 E2].
    apply Z.leb_le in E1. apply Z.ltb_lt in E2. lia.
  - cbn [grab_from]. fold (found e i).
    replace (i + Z.of_nat (S k)) with (i + 1 + Z.of_nat k) by lia.
    destruct (found e i) eqn:Hf.
    + assert (Hle : rd (bopat e) i <= rd (eopat e) i) by (apply Hok; [lia|exact Hf]).
      destruct (rd (eopat e) i - rd (bopat e) i <? 0) eqn:E; [apply Z.ltb_lt in E; lia|].
      set (e1 := set_pat e _).
      destruct (IH (i + 1) e1) as [e' [Hg [Hb [He [Hq Hp]]]]].
      { intros j Hj Hfj. apply Hok; [lia|exact Hfj]. }
      exists e'. split; [exact Hg|]. split; [exact Hb|]. split; [exact He|].
      split; [exact Hq|].
      intros j. rewrite Hp. unfold e1, found at 1. cbn [pat bopat eopat set_pat].
      destruct (Z.eq_dec j i) as [->|Hne].
      * rewrite Z.eqb_refl. replace ((i <=? i) && (i <? i + 1 + Z.of_nat k)) with true by (symmetry; apply andb_true_intro; split; [apply Z.leb_le|apply Z.ltb_lt]; lia).
        replace (i + 1 <=? i) with false by (symmetry; apply Z.leb_gt; lia).
        rewrite Hf. reflexivity.
      * rewrite (proj2 (Z.eqb_neq j i) Hne). fold (found e j).
        replace ((i + 1 <=? j) && (j <? i + 1 + Z.of_nat k))
          with ((i <=? j) && (j <? i + 1 + Z.of_nat k)); [reflexivity|].
        destruct (Z.lt_total j i) as [Hlt|[Heq|Hgt]]; [|lia|].
        -- replace (i + 1 <=? j) with false by (symmetry; apply Z.leb_gt; lia).
           replace (i <=? j) with false by (symmetry; apply Z.leb_gt; lia). reflexivity.
        -- replace (i + 1 <=? j) with true by (symmetry; apply Z.leb_le; lia).
           replace (i <=? j) with true by (symmetry; apply Z.leb_le; lia).
           reflexivity.
    + destruct (IH (i + 1) e) as [e' [Hg [Hb [He [Hq Hp]]]]].
      { intros j Hj Hfj. apply Hok; [lia|exact Hfj]. }
      exists e'. split; [exact Hg|]. repeat (split; [assumption|]).
      intros j. rewrite Hp. destruct (Z.eq_dec j i) as [->|Hne].
      * replace (i + 1 <=? i) with false by (symmetry; apply Z.leb_gt; lia).
        rewrite Hf, !andb_false_r. reflexivity.
      * replace ((i + 1 <=? j) && (j <? i + 1 + Z.of_nat k))
          with ((i <=? j) && (j <? i + 1 + Z.of_nat k)); [reflexivity|].
        destruct (Z.lt_total j i) as [Hlt|[Heq|Hgt]]; [|lia|].
        -- replace (i + 1 <=? j) with false by (symmetry; apply Z.leb_gt; lia).
           replace (i <=? j) with false by (symmetry; apply Z.leb_gt; lia). reflexivity.
        -- replace (i + 1 <=? j) with true by (symmetry; apply Z.leb_le; lia).
           replace (i <=? j) with true by (symmetry; apply Z.leb_le; lia).
           reflexivity.
Qed.

Lemma Clear_groups : forall e i, 0 <= i < MAXTAG ->
  rd (bopat (Clear e)) i = NOTFOUND /\ rd (eopat (Clear e)) i = NOTFOUND /\ pat (Clear e) i = [].
Proof.
  intros e i Hi. unfold MAXTAG in Hi. destruct e.
  assert (i = 0 \/ i = 1 \/ i = 2 \/ i = 3 \/ i = 4 \/ i = 5 \/ i = 6 \/ i = 7 \/ i = 8 \/ i = 9)
    as Hc by lia.
  repeat destruct Hc as [->|Hc]; try subst i; repeat split; reflexivity.
Qed.

Lemma grab_from_throws : forall ci k i0 e i,
  i0 <= i < i0 + Z.of_nat k -> found e i = true -> rd (eopat e) i < rd (bopat e) i ->
  grab_from ci k i0 e = None.
Proof.
  intros ci k. induction k as [|k IH]; intros i0 e i Hi Hf Hlt; [lia|].
  cbn [grab_from]. fold (found e i0).
  destruct (Z.eq_dec i i0) as [->|Hne].
  - rewrite Hf. destruct (rd (eopat e) i0 - rd (bopat e) i0 <? 0) eqn:E;
      [reflexivity|apply Z.ltb_ge in E; lia].
  - destruct (found e i0).
    + destruct (rd (eopat e) i0 - rd (bopat e) i0 <? 0); [reflexivity|].
      apply (IH (i0 + 1) _ i); [lia|exact Hf|exact Hlt].
    + apply (IH (i0 + 1) _ i); [lia|exact Hf|exact Hlt].
Qed.

(** [GrabMatches] fails (the [resize] of [pat[i]] to a negative length
    throws) as soon as one group below [MAXTAG] has both bounds set and its
    end before its start. *)
Theorem GrabMatches_throws : forall ci e i,
  0 <= i < MAXTAG -> found e i = true -> rd (eopat e) i < rd (bopat e) i ->
  GrabMatches ci e = None.
Proof.
  intros ci e i Hi Hf Hlt. apply (grab_from_throws ci _ 0 e i); [|exact Hf|exact Hlt].
  rewrite Z2Nat.id by (unfold MAXTAG; lia). lia.
Qed.

Lemma GrabMatches_throws_witness :
  let e := set_match RESearch_init false (wr (bopat RESearch_init) 2 5) (wr (eopat RESearch_init) 2 3) in
  GrabMatches (text_indexer (bytes "abcdef")) e = None.
Proof.
  intros e.
  assert (H1 : 0 <= 2 < MAXTAG) by (unfold MAXTAG; lia).
  assert (H2 : found e 2 = true) by (vm_compute; reflexivity).
  assert (H3 : rd (eopat e) 2 < rd (bopat e) 2) by (apply Z.ltb_lt; vm_compute; reflexivity).
  exact (GrabMatches_throws (text_indexer (bytes "abcdef")) e 2 H1 H2 H3).
Defined.

Lemma GrabMatches_some : forall ci e,
  (forall i, 0 <= i < MAXTAG -> found e i = true -> rd (bopat e) i <= rd (eopat e) i) ->
  exists e', GrabMatches ci e = Some e'
    /\ bopat e' = bopat e /\ eopat e' = eopat e /\ prog_part e' = prog_part e
    /\ (forall i, 0 <= i < MAXTAG ->
          pat e' i = if found e i then group_text ci e i else pat e i).
Proof.
  intros ci e Hok. unfold GrabMatches.
  destruct (grab_from_spec ci (Z.to_nat MAXTAG) 0 e) as [e' [Hg [Hb [He [Hq Hp]]]]].
  { intros j Hj Hf. apply Hok; [rewrite Z2Nat.id in Hj by (unfold MAXTAG; lia); lia|exact Hf]. }
  exists e'. split; [exact Hg|]. split; [exact Hb|]. split; [exact He|]. split.
  - exact Hq.
  - intros i Hi. rewrite Hp, Z2Nat.id by (unfold MAXTAG; lia).
    replace ((0 <=? i) && (i <? 0 + MAXTAG)) with true
      by (symmetry; apply andb_true_intro; split; [apply Z.leb_le|apply Z.ltb_lt]; lia).
    reflexivity.
Qed.

(** [GrabMatches] when every set group has its end at or after its start:
    it succeeds, keeps the bounds and the compiled program, sets [pat[i]] to
    the text between the bounds of each set group, and leaves [pat[i]] of
    the other groups as it was. *)
Theorem GrabMatches_spec : forall ci e,
  (forall i, 0 <= i < MAXTAG -> found e i = true -> rd (bopat e) i <= rd (eopat e) i) ->
  exists e', GrabMatches ci e = Some e'
    /\ bopat e' = bopat e /\ eopat e' = eopat e /\ prog_part e' = prog_part e
    /\ (forall i, 0 <= i < MAXTAG ->
          pat e' i = if found e i then group_text ci e i else pat e i).
Proof. exact GrabMatches_some. Qed.

Lemma GrabMatches_spec_witness :
  let e := set_match RESearch_init false (wr (bopat RESearch_init) 1 1) (wr (eopat RESearch_init) 1 3) in
  exists e', GrabMatches (text_indexer (bytes "xabc")) e = Some e'
    /\ bopat e' = bopat e /\ eopat e' = eopat e /\ prog_part e' = prog_part e
    /\ (forall i, 0 <= i < MAXTAG ->
          pat e' i = if found e i then group_text (text_indexer (bytes "xabc")) e i else pat e i).
Proof.
  intros e.
  assert (H : forall i, 0 <= i < MAXTAG -> found e i = true -> rd (bopat e) i <= rd (eopat e) i).
  { intros i Hi _. unfold MAXTAG in Hi.
    assert (Hc : i = 0 \/ i = 1 \/ i = 2 \/ i = 3 \/ i = 4 \/ i = 5 \/ i = 6 \/ i = 7
                 \/ i = 8 \/ i = 9) by lia.
    repeat destruct Hc as [->|Hc]; try subst i; apply Z.leb_le; vm_compute; reflexivity. }
  exact (GrabMatches_spec (text_indexer (bytes "xabc")) e H).
Defined.

Lemma Execute_lit_engine : forall w ci fuel e l,
  lit (nfa e) 0 l -> l <> [] ->
  (forall k, 0 <= k < Z.of_nat (List.length l) -> CharAt ci k = nth (Z.to_nat k) l 0) ->
  (List.length l < fuel)%nat ->
  let e0 := Clear (set_bol e 0 false) in
  Execute w ci (Z.of_nat (List.length l)) fuel e 0
  = Some (1, set_match e0 (failure e0) (wr (bopat e0) 0 0)
               (wr (eopat e0) 0 (Z.of_nat (List.length l)))).
Proof.
  intros w ci fuel e l Hlit Hne Hc Hf e0.
  set (endp := Z.of_nat (List.length l)) in *.
  assert (Hpos : 0 < endp) by (destruct l; [contradiction|unfold endp; cbn [List.length]; lia]).
  assert (Hn : nfa e0 = nfa e) by (unfold e0; rewrite Clear_keeps_nfa; reflexivity).
  unfold Execute. fold e0. clearbody e0.
  assert (Hp : PMatch w ci endp fuel e0 0 0 1 (Some 1) = Some (endp, Some 1, e0)).
  { rewrite (PMatch_lit w ci endp (nfa e) 0 l Hlit fuel e0 0 1 (Some 1) Hn); [reflexivity| |lia|exact Hf].
    intros k Hk. rewrite Z.add_0_l. apply Hc. exact Hk. }
  destruct fuel as [|f]; [lia|].
  assert (Hs : exec_scan w ci endp (S f) (S f) e0 0 = Some (endp, 0, e0))
    by (apply (exec_scan_hit w ci endp (S f) f e0 0 endp (Some 1) e0); [lia|exact Hp|unfold NOTFOUND; lia]).
  assert (Hfin : exec_finish (Some (endp, 0, e0))
                 = Some (1, set_match e0 (failure e0) (wr (bopat e0) 0 0) (wr (eopat e0) 0 endp)))
    by (cbn [exec_finish]; destruct (endp =? NOTFOUND) eqn:E;
        [apply Z.eqb_eq in E; unfold NOTFOUND in E; lia|reflexivity]).
  inversion Hlit as [|p r c l' Hit Hl]; subst; [contradiction|].
  rewrite Hn. destruct Hit as [[H1 [H2 H3]]|[H1 [H2 [H3 H4]]]]; rewrite H1.
  - cbn [Z.eqb CHR BOL EOL END Pos.eqb].
    assert (H0 : CharAt ci 0 = c) by (apply (Hc 0); lia).
    rewrite Z.add_0_l in H2. rewrite H2, Z.sub_0_r, skip_to_here by exact H0.
    destruct (endp <=? 0) eqn:E; [apply Z.leb_le in E; lia|].
    rewrite Hs, Hfin. reflexivity.
  - cbn [Z.eqb CCL BOL EOL END CHR Pos.eqb].
    rewrite Hs, Hfin. reflexivity.
Qed.

(** [Compile] of a plain pattern, [Execute] on a text that starts with it,
    then [GrabMatches]: group 0 holds exactly the pattern text and every
    other group is empty. *)
Theorem compile_execute_grab :
  forall w cs e rs addr mem length caseSensitive flags e1 ci fuel,
  run_calls w RESearch_init cs = Some (e, rs) ->
  Compile w e (Some (addr, mem)) length caseSensitive flags = (None, e1) ->
  plain_pattern (take_mem mem length) = true ->
  (forall k, 0 <= k < length -> CharAt ci k = mem_at mem k) ->
  (Z.to_nat length < fuel)%nat ->
  exists e2 e3, Execute w ci length fuel e1 0 = Some (1, e2)
    /\ GrabMatches ci e2 = Some e3
    /\ pat e3 0 = take_mem mem length
    /\ (forall i, 1 <= i < MAXTAG -> pat e3 i = []).
Proof.
  intros w cs e rs addr mem length cs0 flags e1 ci fuel Hr Hc Hp Hci Hf.
  pose proof (run_calls_okp w cs RESearch_init e rs okp_inv_init Hr) as Hokp.
  destruct (Compile_okp w e _ _ _ _ _ _ Hokp Hc) as [_ Hl].
  pose proof (Hl eq_refl addr mem eq_refl Hp) as Hlit.
  pose proof (plain_pattern_pos mem length Hp) as Hlen.
  pose proof (take_mem_length mem length) as HL.
  set (l := take_mem mem length) in *.
  assert (Hne : l <> []) by (intros Hn; rewrite Hn in HL; cbn in HL; lia).
  assert (Hc' : forall k, 0 <= k < Z.of_nat (List.length l) -> CharAt ci k = nth (Z.to_nat k) l 0).
  { intros k Hk. rewrite HL, Z2Nat.id in Hk by lia.
    unfold l. rewrite take_mem_nth by lia. apply Hci. exact Hk. }
  pose proof (Execute_lit_engine w ci fuel e1 l Hlit Hne Hc') as HE.
  rewrite HL, Z2Nat.id in HE by lia. specialize (HE Hf).
  cbv zeta in HE. set (e0 := Clear (set_bol e1 0 false)) in HE.
  set (e2 := set_match e0 (failure e0) (wr (bopat e0) 0 0) (wr (eopat e0) 0 length)) in HE.
  assert (Hg : forall i, 0 <= i < MAXTAG -> found e2 i = true -> rd (bopat e2) i <= rd (eopat e2) i).
  { intros i Hi Hfd. unfold e2. cbn [bopat eopat set_match]. rewrite !rd_wr.
    destruct (i =? 0) eqn:E; [lia|].
    unfold found, e2 in Hfd. cbn [bopat eopat set_match] in Hfd. rewrite !rd_wr, E in Hfd.
    destruct (Clear_groups (set_bol e1 0 false) i Hi) as [Hb _]. fold e0 in Hb.
    rewrite Hb in Hfd. discriminate Hfd. }
  destruct (GrabMatches_some ci e2 Hg) as [e3 [HG [_ [_ [_ Hpat]]]]].
  exists e2, e3. split; [exact HE|]. split; [exact HG|]. split.
  - rewrite Hpat by (unfold MAXTAG; lia).
    unfold found, group_text, e2. cbn [bopat eopat set_match]. rewrite !rd_wr. cbn.
    replace (length =? NOTFOUND) with false by (symmetry; apply Z.eqb_neq; unfold NOTFOUND; lia). cbn [negb].
    rewrite Z.sub_0_r. apply nth_ext with (d := 0) (d' := 0).
    + rewrite length_map, length_seq. lia.
    + intros n Hn. rewrite length_map, length_seq in Hn.
      rewrite (nth_indep _ _ (CharAt ci (Z.of_nat 0))) by (rewrite length_map, length_seq; exact Hn).
      rewrite (map_nth (fun j : nat => CharAt ci (Z.of_nat j))), seq_nth by exact Hn. cbn [Nat.add].
      unfold l. rewrite <- (Nat2Z.id n), take_mem_nth by lia. rewrite Hci by lia.
      rewrite Nat2Z.id. reflexivity.
  - intros i Hi. rewrite Hpat by lia.
    assert (Hf0 : found e2 i = false).
    { unfold found, e2. cbn [bopat eopat set_match]. rewrite !rd_wr.
      replace (i =? 0) with false by (symmetry; apply Z.eqb_neq; lia).
      destruct (Clear_groups (set_bol e1 0 false) i ltac:(lia)) as [Hb _]. fold e0 in Hb.
      rewrite Hb. reflexivity. }
    rewrite Hf0. unfold e2. cbn [pat set_match].
    destruct (Clear_groups (set_bol e1 0 false) i ltac:(lia)) as [_ [_ Hpt]]. exact Hpt.
Qed.

Lemma compile_execute_grab_witness :
  let e1 := snd (Compile default_iswordc RESearch_init (Some (0, bytes "ab")) 2 true 0) in
  exists e2 e3, Execute default_iswordc (text_indexer (bytes "ab")) 2 10 e1 0 = Some (1, e2)
    /\ GrabMatches (text_indexer (bytes "ab")) e2 = Some e3
    /\ pat e3 0 = take_mem (bytes "ab") 2
    /\ (forall i, 1 <= i < MAXTAG -> pat e3 i = []).
Proof.
  intros e1.
  assert (H1 : run_calls default_iswordc RESearch_init [] = Some (RESearch_init, [])) by reflexivity.
  assert (H2 : Compile default_iswordc RESearch_init (Some (0, bytes "ab")) 2 true 0 = (None, e1))
    by (vm_compute; reflexivity).
  assert (H3 : plain_pattern (take_mem (bytes "ab") 2) = true) by (vm_compute; reflexivity).
  assert (H4 : forall k, 0 <= k < 2 -> CharAt (text_indexer (bytes "ab")) k = mem_at (bytes "ab") k).
  { intros k Hk. assert (Hk' : k = 0 \/ k = 1) by lia.
    destruct Hk' as [->| ->]; vm_compute; reflexivity. }
  assert (H5 : (Z.to_nat 2 < 10)%nat) by (simpl; lia).
  exact (compile_execute_grab default_iswordc [] RESearch_init [] 0 (bytes "ab") 2 true 0 e1
           (text_indexer (bytes "ab")) 10 H1 H2 H3 H4 H5).
Defined.

(** *** A [?] closure over a character class *)

Lemma scan_while_all : forall endp f k lp,
  (forall q, lp <= q < endp -> f q = true) -> endp - lp <= Z.of_nat k -> lp <= endp ->
  scan_while endp f k lp = endp.
Proof.
  intros endp f k. induction k as [|k IH]; intros lp Hf Hk Hle; cbn [scan_while]; [lia|].
  destruct (lp <? endp) eqn:E.
  - apply Z.ltb_lt in E. rewrite (Hf lp) by lia. cbn [andb]. apply IH; [intros q Hq; apply Hf|..]; lia.
  - apply Z.ltb_ge in E. cbn [andb]. lia.
Qed.

(** [Execute] of a program [CLQ CCL set END] (what [[a]?], or [a?] compiled
    without case sensitivity, gives): when every character of the text is
    in the set, the match runs from 0 to the end of the text, so the
    optional closure takes the whole run rather than at most one character. *)
Theorem optional_class_takes_run : forall w ci endp fuel e,
  rd (nfa e) 0 = CLQ -> rd (nfa e) 1 = CCL -> rd (nfa e) 35 = END ->
  0 < endp -> (2 <= fuel)%nat ->
  (forall q, 0 <= q < endp -> isinset (nfa e) 2 (CharAt ci q) = true) ->
  exists e', Execute w ci endp fuel e 0 = Some (1, e')
    /\ rd (bopat e') 0 = 0 /\ rd (eopat e') 0 = endp.
Proof.
  intros w ci endp fuel e H0 H1 H35 Hp Hf Hin. unfold Execute.
  assert (Hn : nfa (Clear (set_bol e 0 false)) = nfa e) by (rewrite Clear_keeps_nfa; reflexivity).
  set (e0 := Clear (set_bol e 0 false)) in *. clearbody e0.
  rewrite Hn, H0. cbn [Z.eqb CLQ BOL EOL END CHR Pos.eqb].
  destruct fuel as [|[|f]]; [lia|lia|].
  cbn [exec_scan]. destruct (0 <? endp) eqn:E; [|apply Z.ltb_ge in E; lia].
  cbn [PMatch]. rewrite Hn, H0. cbn [Z.eqb CLQ BOL EOL END CHR ANY CCL BOT EOT BOW EOW REF LCLO CLO
    EXP_MATCH_WORD_START EXP_MATCH_WORD_END EXP_MATCH_TO_WORD_END EXP_MATCH_TO_WORD_END_OPT Pos.eqb orb].
  cbn [Z.add]. rewrite H1. cbn [Z.eqb CCL ANY CHR Pos.eqb].
  rewrite (scan_while_all endp _ (Z.to_nat (endp - 0)) 0) by (first [intros q Hq; apply Hin; lia | lia]).
  cbn [Z.add clo_loop]. destruct (0 <=? endp) eqn:E2; [|apply Z.leb_gt in E2; lia].
  change (Z.pos (1 + 34)) with 35. rewrite Hn, H35. cbn [Z.eqb END Pos.eqb].
  destruct (endp =? NOTFOUND) eqn:E3; [apply Z.eqb_eq in E3; unfold NOTFOUND in E3; lia|].
  cbn [negb Z.eqb LCLO CLQ Pos.eqb]. cbn [exec_finish]. rewrite E3.
  cbn [negb exec_finish]. rewrite E3.
  eexists. split; [reflexivity|]. cbn [bopat eopat set_match]. rewrite !rd_wr. split; reflexivity.
Qed.

Lemma optional_class_takes_run_witness :
  let e := snd (Compile default_iswordc RESearch_init (Some (0, bytes "[a]?")) 4 true 0) in
  exists e', Execute default_iswordc (text_indexer (bytes "aaa")) 3 10 e 0 = Some (1, e')
    /\ rd (bopat e') 0 = 0 /\ rd (eopat e') 0 = 3.
Proof.
  intros e.
  apply (optional_class_takes_run default_iswordc (text_indexer (bytes "aaa")) 3 10 e);
    [vm_compute; reflexivity|vm_compute; reflexivity|vm_compute; reflexivity|lia|lia|].
  intros q Hq. assert (q = 0 \/ q = 1 \/ q = 2) as Hc by lia.
  destruct Hc as [->|[->| ->]]; vm_compute; reflexivity.
Defined.

End RExtra.

(** ** Invariants of the SQL lexer *)

Module SQLInv.
Import RE SQL.

(** [resize] and the store of [SQLStates::Set]. *)
Lemma length_resize : forall v n x, List.length (resize v n x) = n.
Proof.
  intros v n x. unfold resize. rewrite length_app, length_firstn, repeat_length. lia.
Qed.

Lemma nth_resize : forall v n k, (k < n)%nat -> nth k (resize v n 0) 0 = nth k v 0.
Proof.
  intros v n k Hk. unfold resize.
  destruct (Nat.lt_ge_cases k (List.length (firstn n v))) as [H|H].
  - rewrite app_nth1 by exact H. rewrite nth_firstn.
    replace (k <? n)%nat with true by (symmetry; apply Nat.ltb_lt; exact Hk). reflexivity.
  - rewrite app_nth2 by exact H. rewrite length_firstn in H.
    rewrite (nth_overflow v) by lia. apply nth_repeat.
Qed.

Lemma set_nth_spec : forall v k x,
  (k < List.length v)%nat ->
  List.length (set_nth v k x) = List.length v /\ nth k (set_nth v k x) 0 = x /\
  (forall j, (j < k)%nat -> nth j (set_nth v k x) 0 = nth j v 0).
Proof.
  intros v k x Hk. unfold set_nth. split; [|split].
  - rewrite length_app, length_firstn. cbn [List.length]. rewrite length_skipn. lia.
  - rewrite app_nth2 by (rewrite length_firstn; lia).
    rewrite length_firstn. replace (k - Init.Nat.min k (List.length v))%nat with 0%nat by lia.
    reflexivity.
  - intros j Hj. rewrite app_nth1 by (rewrite length_firstn; lia).
    rewrite nth_firstn. replace (j <? k)%nat with true by (symmetry; apply Nat.ltb_lt; exact Hj).
    reflexivity.
Qed.

(** [strcmp] on the lowered keyword. *)

Lemma list_Z_eqb_eq : forall a b, list_Z_eqb a b = true -> a = b.
Proof.
  induction a as [|x a IH]; intros [|y b] H; try discriminate; [reflexivity|].
  simpl in H. apply andb_true_iff in H. destruct H as [H1 H2].
  apply Z.eqb_eq in H1. rewrite H1, (IH b H2). reflexivity.
Qed.

(** The bits of a fold word. *)

Lemma testbit_low12 : forall lu n, 0 <= lu <= 4095 -> 12 <= n -> Z.testbit lu n = false.
Proof.
  intros lu n Hlu Hn. destruct (Z.eq_dec lu 0) as [->|Hne]; [apply Z.bits_0|].
  apply Z.bits_above_log2; [lia|].
  apply Z.le_lt_trans with 11; [|lia].
  apply Z.lt_succ_r. apply Z.log2_lt_pow2; [lia|]. simpl. lia.
Qed.

Lemma int32_small : forall z, - 2 ^ 31 <= z < 2 ^ 31 -> int32 z = z.
Proof.
  intros z Hz. unfold int32. destruct (Z.lt_ge_cases z 0) as [Hn|Hp].
  - replace (z mod 2 ^ 32) with (z + 2 ^ 32).
    + destruct (Z.ltb_spec (z + 2 ^ 32) (2 ^ 31)); lia.
    + symmetry. rewrite <- (Z.mod_small (z + 2 ^ 32) (2 ^ 32)) by lia.
      rewrite <- Z.add_mod_idemp_r, Z.mod_same, Z.add_0_r by lia. reflexivity.
  - rewrite Z.mod_small by lia. destruct (Z.ltb_spec z (2 ^ 31)); lia.
Qed.

Lemma int32_wrap : forall z, 2 ^ 31 <= z < 2 ^ 32 -> int32 z = z - 2 ^ 32.
Proof.
  intros z Hz. unfold int32. rewrite Z.mod_small by lia.
  destruct (Z.ltb_spec z (2 ^ 31)); lia.
Qed.

Lemma fold_word_decode : forall foldCompact lu ln vis, 0 <= lu <= 4095 ->
  -32768 <= ln < 32768 ->
  let lev := fold_word foldCompact lu ln vis in
  Z.land lev SC_FOLDLEVELNUMBERMASK = lu /\ Z.shiftr lev 16 = ln /\
  (Z.land lev SC_FOLDLEVELHEADERFLAG <> 0 <-> lu < ln).
Proof.
  intros fc lu ln vis Hlu Hln lev.
  assert (Hi : int32 (Z.shiftl ln 16) = Z.shiftl ln 16)
    by (apply int32_small; rewrite Z.shiftl_mul_pow2 by lia; lia).
  assert (Hw : exists F, lev = Z.lor (Z.lor lu (Z.shiftl ln 16)) F /\
     (F = 0 \/ F = 4096 \/ F = 8192 \/ F = 12288) /\
     (Z.testbit F 13 = (lu <? ln))).
  { unfold lev, fold_word, SC_FOLDLEVELWHITEFLAG, SC_FOLDLEVELHEADERFLAG. rewrite Hi.
    destruct ((vis =? 0) && fc); destruct (lu <? ln) eqn:E.
    - exists 12288. rewrite <- !Z.lor_assoc. split; [reflexivity|]. split; [lia|reflexivity].
    - exists 4096. split; [reflexivity|]. split; [lia|reflexivity].
    - exists 8192. split; [reflexivity|]. split; [lia|reflexivity].
    - exists 0. rewrite Z.lor_0_r. split; [reflexivity|]. split; [lia|reflexivity]. }
  destruct Hw as [F [HF [HFv HF13]]].
  assert (HFlow : forall n, n < 12 -> Z.testbit F n = false).
  { intros n Hn. destruct (Z.lt_ge_cases n 0) as [Hneg|Hpos]; [apply Z.testbit_neg_r; lia|].
    destruct HFv as [-> | [-> | [-> | ->]]]; [apply Z.bits_0| | |];
    (assert (Hr : forall m, 0 <= m -> Z.testbit (2^12 * m) n = false) by
      (intros m Hm; rewrite Z.mul_comm, <- Z.shiftl_mul_pow2 by lia; rewrite Z.shiftl_spec_low; [reflexivity|lia]));
    [apply (Hr 1)|apply (Hr 2)|apply (Hr 3)]; lia. }
  assert (HFhigh : forall n, 16 <= n -> Z.testbit F n = false).
  { intros n Hn. destruct HFv as [-> | [-> | [-> | ->]]]; [apply Z.bits_0| | |];
    apply Z.bits_above_log2; try lia; simpl; lia. }
  split; [|split].
  - apply Z.bits_inj'. intros n Hn. unfold SC_FOLDLEVELNUMBERMASK.
    replace 4095 with (Z.ones 12) by reflexivity.
    rewrite HF, Z.land_spec, Z.testbit_ones by lia.
    rewrite !Z.lor_spec.
    destruct (Z.lt_ge_cases n 12) as [Hl|Hl].
    + rewrite Z.shiftl_spec_low by lia. rewrite HFlow by lia.
      replace ((0 <=? n) && (n <? 12)) with true by (symmetry; apply andb_true_iff; split; [apply Z.leb_le|apply Z.ltb_lt]; lia).
      rewrite !orb_false_r, andb_true_r. reflexivity.
    + replace ((0 <=? n) && (n <? 12)) with false by (symmetry; apply andb_false_iff; right; apply Z.ltb_ge; lia).
      rewrite andb_false_r. symmetry. apply testbit_low12; lia.
  - apply Z.bits_inj'. intros n Hn. rewrite HF, Z.shiftr_spec by lia.
    rewrite !Z.lor_spec, Z.shiftl_spec by lia.
    rewrite testbit_low12 by lia. rewrite HFhigh by lia.
    replace (n + 16 - 16) with n by lia. rewrite orb_false_r. reflexivity.
  - unfold SC_FOLDLEVELHEADERFLAG.
    assert (Hb : Z.testbit lev 13 = (lu <? ln)).
    { rewrite HF, !Z.lor_spec, Z.shiftl_spec_low by lia.
      rewrite testbit_low12 by lia. exact HF13. }
    replace 8192 with (2^13) by reflexivity.
    rewrite <- Z.shiftl_1_l.
    split.
    + intros Hne. destruct (lu <? ln) eqn:E; [apply Z.ltb_lt; exact E|].
      exfalso. apply Hne. apply Z.bits_inj'. intros n Hn.
      rewrite Z.land_spec, Z.shiftl_spec by lia. rewrite Z.bits_0.
      destruct (Z.eq_dec n 13) as [->|Hn13]; [rewrite Hb; reflexivity|].
      destruct (Z.lt_ge_cases (n-13) 0).
      * rewrite (Z.testbit_neg_r 1) by lia. apply andb_false_r.
      * rewrite (Z.bits_above_log2 1); [apply andb_false_r|lia|]. change (Z.log2 1) with 0. lia.
    + intros Hlt Heq. apply (f_equal (fun x => Z.testbit x 13)) in Heq.
      rewrite Z.land_spec, Hb, Z.bits_0 in Heq.
      apply Z.ltb_lt in Hlt. rewrite Hlt in Heq. simpl in Heq. discriminate.
Qed.

(** A [levelNext] from [0x8000] on overflows the [int] shift: the word
    decodes to a negative next level. *)
Lemma fold_word_overflow : forall foldCompact lu ln vis, 0 <= lu <= 4095 ->
  32768 <= ln < 65536 ->
  Z.shiftr (fold_word foldCompact lu ln vis) 16 = ln - 65536.
Proof.
  intros fc lu ln vis Hlu Hln.
  assert (Hi : int32 (Z.shiftl ln 16) = Z.shiftl (ln - 65536) 16).
  { rewrite int32_wrap by (rewrite Z.shiftl_mul_pow2 by lia; lia).
    rewrite !Z.shiftl_mul_pow2 by lia. lia. }
  unfold fold_word, SC_FOLDLEVELWHITEFLAG, SC_FOLDLEVELHEADERFLAG. rewrite Hi.
  apply Z.bits_inj'. intros n Hn. rewrite Z.shiftr_spec by lia.
  assert (E12 : Z.testbit 4096 (n + 16) = false)
    by (change 4096 with (2 ^ 12); rewrite Z.pow2_bits_eqb by lia; apply Z.eqb_neq; lia).
  assert (E13 : Z.testbit 8192 (n + 16) = false)
    by (change 8192 with (2 ^ 13); rewrite Z.pow2_bits_eqb by lia; apply Z.eqb_neq; lia).
  destruct ((vis =? 0) && fc); destruct (lu <? ln);
    rewrite ?Z.lor_spec, ?E12, ?E13, testbit_low12, Z.shiftl_spec by lia;
    replace (n + 16 - 16) with n by lia; rewrite ?orb_false_r; reflexivity.
Qed.

(** Every word [FoldSqlDoc] logs is a [fold_word]. *)

Section FoldLog.
Variables chAt safeChAt StyleAt GetLine : Z -> Z.
Variable IsCommentLine : Z -> bool.
Variables foldOnlyBegin foldComment foldAtElse foldCompact : bool.

Definition log_ok (log : list (Z * Z * Z * Z)) : Prop :=
  forall line lu ln lev, In (line, lu, ln, lev) log ->
  exists vis, lev = fold_word foldCompact lu ln vis.

Lemma fold_step_log : forall endPos i v, log_ok (fold_log v) ->
  log_ok (fold_log (fold_step chAt safeChAt StyleAt IsCommentLine foldOnlyBegin
                      foldComment foldAtElse foldCompact endPos i v)).
Proof.
  intros endPos i v Hv. unfold fold_step.
  repeat match goal with
  | |- context [match ?E with pair _ _ => _ end] => destruct E
  end.
  cbv zeta.
  match goal with |- context [if ?c then _ else _] => destruct c end;
    cbn [fold_log]; [|exact Hv].
  intros line lu ln lev Hin. apply in_app_or in Hin. destruct Hin as [Hin|[Heq|[]]].
  - exact (Hv _ _ _ _ Hin).
  - injection Heq as <- <- <- <-. eexists; reflexivity.
Qed.

Lemma fold_loop_log : forall k endPos i v, log_ok (fold_log v) ->
  log_ok (fold_log (fold_loop chAt safeChAt StyleAt IsCommentLine foldOnlyBegin
                      foldComment foldAtElse foldCompact k endPos i v)).
Proof.
  induction k as [|k IH]; intros endPos i v Hv; [exact Hv|].
  apply IH. apply fold_step_log. exact Hv.
Qed.

Lemma FoldSqlDoc_log : forall fold startPos length initStyle levels0,
  log_ok (fold_log (FoldSqlDoc chAt safeChAt StyleAt GetLine IsCommentLine foldOnlyBegin
                      foldComment foldAtElse foldCompact fold startPos length initStyle levels0)).
Proof.
  intros. unfold FoldSqlDoc. cbv zeta.
  destruct (fold =? 0); [intros ? ? ? ? []|].
  apply fold_loop_log. intros ? ? ? ? [].
Qed.
End FoldLog.

(** [end] and [endif] clamp [levelNext] at [SC_FOLDLEVELBASE]. *)

Lemma end_clamps : forall foldOnlyBegin foldAtElse s k,
  (kw s "end" || kw s "endif") = true ->
  SC_FOLDLEVELBASE <= k_levelNext (keyword_block foldOnlyBegin foldAtElse s k).
Proof.
  intros fob fae s k Hs.
  assert (Hs' : s = bytes "end" \/ s = bytes "endif").
  { unfold kw in Hs. apply orb_true_iff in Hs.
    destruct Hs as [H|H]; [left|right]; apply list_Z_eqb_eq; exact H. }
  destruct k as [lc ln ef unf stmt st].
  destruct Hs' as [->| ->]; destruct fob, fae, stmt; unfold keyword_block;
  destruct (IsIntoSelectStatementOrAssignment st && negb (IsCaseMergeWithoutWhenFound st));
  simpl;
  match goal with |- context [if ?x <? SC_FOLDLEVELBASE then _ else _] => destruct (Z.ltb_spec x SC_FOLDLEVELBASE) end; simpl; lia.
Qed.

End SQLInv.

(** ** Properties of the SQL lexer *)

Module SQLFacts.
Import RE SQL SQLInv.

(** C6 (amended). For [lineNumber >= 0], [SQLStates::Set(lineNumber, state)]
    leaves the per-line vector unchanged when the vector is empty and the
    state is zero; otherwise it resizes the vector to exactly [lineNumber+1]
    entries and stores the state at [lineNumber], the entries before it
    unchanged (missing ones read as 0). *)
Theorem SQLStates_Set_stores : forall sqlStatement lineNumber sqlStatesLine,
  0 <= lineNumber ->
  (sqlStatement = [] /\ sqlStatesLine = 0 ->
   SQLStates_Set sqlStatement lineNumber sqlStatesLine = []) /\
  (sqlStatement <> [] \/ sqlStatesLine <> 0 ->
   let v := SQLStates_Set sqlStatement lineNumber sqlStatesLine in
   List.length v = S (Z.to_nat lineNumber) /\
   nth (Z.to_nat lineNumber) v 0 = sqlStatesLine /\
   forall k, (k < Z.to_nat lineNumber)%nat -> nth k v 0 = nth k sqlStatement 0).
Proof.
  intros v ln st Hln. split.
  - intros [-> ->]. reflexivity.
  - intros Hne. unfold SQLStates_Set.
    assert (Hc : ((c_not (Z.of_nat (List.length v)) =? 0) || (c_not st =? 0)) = true).
    { unfold c_not. destruct Hne as [Hv|Hs].
      - destruct v as [|a v]; [contradiction Hv; reflexivity|]. reflexivity.
      - destruct (st =? 0) eqn:E; [apply Z.eqb_eq in E; contradiction|].
        apply orb_true_r. }
    rewrite Hc. cbv zeta.
    replace (Z.to_nat (ln + 1)) with (S (Z.to_nat ln)) by lia.
    destruct (set_nth_spec (resize v (S (Z.to_nat ln)) 0) (Z.to_nat ln) st)
      as [H1 [H2 H3]]; [rewrite length_resize; lia|].
    split; [rewrite H1, length_resize; reflexivity|]. split; [exact H2|].
    intros k Hk. rewrite H3 by exact Hk. apply nth_resize. lia.
Qed.

Lemma SQLStates_Set_stores_witness :
  0 <= 2 /\ List.length (SQLStates_Set [1; 2; 3; 4] 2 7) = 3%nat.
Proof.
  assert (H : 0 <= 2) by lia.
  assert (Hne : [1; 2; 3; 4] <> [] \/ 7 <> 0) by (right; lia).
  split; [exact H|].
  exact (proj1 (proj2 (SQLStates_Set_stores [1; 2; 3; 4] 2 7 H) Hne)).
Defined.

(** C6 fails as stated: a non-zero state passed while the vector is empty is
    stored (the vector grows to [lineNumber+1] entries), and a zero state
    passed while the vector is empty is dropped. *)
Lemma SQLStates_Set_on_empty :
  SQLStates_Set [] 1 5 = [0; 5] /\ SQLStates_Set [] 3 0 = [].
Proof. split; reflexivity. Qed.

(** C4. In [ColouriseSqlDoc] a backslash inside a double-quoted STRING
    skips the next character whatever [lexer.sql.backslash.escapes] is: on
    the bytes [34; 92; 34; 59] (double quote, backslash, double quote,
    semicolon) the quote after the backslash does not close the string, and
    the semicolon is styled STRING with the option off as with it on; in the
    CHARACTER token [39; 92; 39; 59] (single quotes) with the option off, the
    quote after the backslash closes the token and the semicolon is an
    OPERATOR. *)
Theorem string_backslash_escapes_unconditionally :
  forall InList1 InList2 InListAbbreviated_user1 sqlBackticksIdentifier
         sqlNumbersignComment sqlBackslashEscapes sqlAllowDottedWord styles0,
  ColouriseSqlDoc [34; 92; 34; 59] InList1 InList2 InListAbbreviated_user1
    sqlBackticksIdentifier sqlNumbersignComment sqlBackslashEscapes sqlAllowDottedWord
    0 4 0 styles0 3 = SCE_SQL_STRING /\
  ColouriseSqlDoc [39; 92; 39; 59] InList1 InList2 InListAbbreviated_user1
    sqlBackticksIdentifier sqlNumbersignComment false sqlAllowDottedWord
    0 4 0 styles0 3 = SCE_SQL_OPERATOR.
Proof.
  intros. destruct sqlBackticksIdentifier, sqlNumbersignComment, sqlBackslashEscapes,
    sqlAllowDottedWord; vm_compute; split; reflexivity.
Qed.


(** C2 (amended). Every fold word [FoldSqlDoc] computes at a line end (the
    word it passes to [SetLevel], or finds already there), whose level
    [levelUse] lies in [0, 0xFFF] and whose next level [levelNext] fits the
    16 bits of the shift ([-0x8000 <= levelNext < 0x8000]), decodes back to
    level [lev & SC_FOLDLEVELNUMBERMASK = levelUse] and next level
    [lev >> 16 = levelNext], and has the HEADER flag set if and only if the
    next level is greater than the level. A next level in [0x8000, 0xFFFF]
    overflows the [int] shift and decodes to [levelNext - 0x10000]. The
    keywords [end] and [endif] clamp [levelNext] at [SC_FOLDLEVELBASE]; the
    operator [)] and the keywords [elsif], [when] and [else] lower the
    levels with no clamp: the documents [)] newline [x], [elsif], [merge]
    followed by three lines [when], and [else] (with [fold.sql.at.else] on)
    each get a line of level [0x3FF]. *)
Theorem fold_word_header_iff :
  forall chAt safeChAt StyleAt GetLine IsCommentLine
         foldOnlyBegin foldComment foldAtElse foldCompact
         fold startPos length initStyle levels0,
  let log := fold_log (FoldSqlDoc chAt safeChAt StyleAt GetLine IsCommentLine
                         foldOnlyBegin foldComment foldAtElse foldCompact
                         fold startPos length initStyle levels0) in
  (forall line levelUse levelNext lev, In (line, levelUse, levelNext, lev) log ->
     0 <= levelUse <= SC_FOLDLEVELNUMBERMASK -> -32768 <= levelNext < 32768 ->
     Z.land lev SC_FOLDLEVELNUMBERMASK = levelUse /\ Z.shiftr lev 16 = levelNext /\
     (Z.land lev SC_FOLDLEVELHEADERFLAG <> 0 <-> levelUse < levelNext)) /\
  (forall line levelUse levelNext lev, In (line, levelUse, levelNext, lev) log ->
     0 <= levelUse <= SC_FOLDLEVELNUMBERMASK -> 32768 <= levelNext < 65536 ->
     Z.shiftr lev 16 = levelNext - 65536) /\
  (forall s k, (kw s "end" || kw s "endif") = true ->
     SC_FOLDLEVELBASE <= k_levelNext (keyword_block foldOnlyBegin foldAtElse s k)) /\
  (In (1, 1023, 1023, 67044351) (fold_log (fold_doc [41; 10; 120] keywords_branch false true false))
   /\ In (0, 1023, 1023, 67044351) (fold_log (fold_doc (bytes "elsif") keywords_branch false true false))
   /\ In (3, 1023, 1023, 67044351)
        (fold_log (fold_doc (bytes "merge" ++ [10] ++ bytes "when" ++ [10] ++ bytes "when" ++ [10]
                             ++ bytes "when") keywords_branch false true false))
   /\ In (0, 1023, 1024, 67118079) (fold_log (fold_doc (bytes "else") keywords_else false true false))
   /\ 1023 < SC_FOLDLEVELBASE).
Proof.
  intros chAt safeChAt StyleAt GetLine IsCommentLine fob fc fae fco
    fold startPos length initStyle levels0 log.
  split; [|split; [|split]].
  - intros line lu ln lev Hin Hlu Hln.
    destruct (FoldSqlDoc_log chAt safeChAt StyleAt GetLine IsCommentLine fob fc fae fco
                fold startPos length initStyle levels0 line lu ln lev Hin) as [vis ->].
    apply fold_word_decode; [unfold SC_FOLDLEVELNUMBERMASK in Hlu; exact Hlu|exact Hln].
  - intros line lu ln lev Hin Hlu Hln.
    destruct (FoldSqlDoc_log chAt safeChAt StyleAt GetLine IsCommentLine fob fc fae fco
                fold startPos length initStyle levels0 line lu ln lev Hin) as [vis ->].
    apply fold_word_overflow; [unfold SC_FOLDLEVELNUMBERMASK in Hlu; exact Hlu|exact Hln].
  - intros s k Hs. apply end_clamps. exact Hs.
  - split; [vm_compute; right; left; reflexivity|].
    split; [vm_compute; left; reflexivity|].
    split; [vm_compute; right; right; right; left; reflexivity|].
    split; [vm_compute; left; reflexivity|unfold SC_FOLDLEVELBASE; lia].
Qed.

Lemma fold_word_header_iff_witness :
  In (0, 1023, 1024, 67118079)
     (fold_log (FoldSqlDoc (mem_at (bytes "else")) (doc_safe (bytes "else"))
                  (doc_styles (bytes "else") keywords_else) (doc_line (bytes "else"))
                  (fun _ => false) false false true false 1 0 (doc_len (bytes "else")) 0 zeros)) /\
  0 <= 1023 <= SC_FOLDLEVELNUMBERMASK /\ -32768 <= 1024 < 32768 /\
  (Z.land 67118079 SC_FOLDLEVELHEADERFLAG <> 0 <-> 1023 < 1024).
Proof.
  assert (Hin : In (0, 1023, 1024, 67118079)
     (fold_log (FoldSqlDoc (mem_at (bytes "else")) (doc_safe (bytes "else"))
                  (doc_styles (bytes "else") keywords_else) (doc_line (bytes "else"))
                  (fun _ => false) false false true false 1 0 (doc_len (bytes "else")) 0 zeros)))
    by (vm_compute; left; reflexivity).
  assert (Hr : 0 <= 1023 <= SC_FOLDLEVELNUMBERMASK) by (unfold SC_FOLDLEVELNUMBERMASK; lia).
  assert (Hn : -32768 <= 1024 < 32768) by lia.
  split; [exact Hin|split; [exact Hr|split; [exact Hn|]]].
  exact (proj2 (proj2 (proj1 (fold_word_header_iff (mem_at (bytes "else"))
    (doc_safe (bytes "else")) (doc_styles (bytes "else") keywords_else)
    (doc_line (bytes "else")) (fun _ => false) false false true false 1 0
    (doc_len (bytes "else")) 0 zeros) 0 1023 1024 67118079 Hin Hr Hn))).
Defined.

(** C2 fails as stated: with [fold.sql.at.else] on, a document holding only
    the keyword [else] gets, for line 0, the fold word [0x40023FF]: level
    [0x3FF], below [SC_FOLDLEVELBASE], next level [0x400]. *)
Lemma fold_level_below_base :
  let v := fold_doc (bytes "else") keywords_else false true false in
  fold_log v = [(0, 1023, 1024, 67118079)] /\ rd (levels v) 0 = 67118079 /\
  Z.land 67118079 SC_FOLDLEVELNUMBERMASK = 1023 /\ 1023 < SC_FOLDLEVELBASE.
Proof.
  cbv zeta. split; [vm_compute; reflexivity|].
  split; [vm_compute; reflexivity|].
  split; [reflexivity|unfold SC_FOLDLEVELBASE; lia].
Qed.


End SQLFacts.

Module SQLExtra.
Import RE SQL SQLInv.

(** *** [SQLStates] flags and the [CASE] nesting count *)

Lemma flag_masks_pow2 : forall M, In M flag_masks -> exists k, 9 <= k <= 15 /\ M = 2 ^ k.
Proof.
  intros M H. cbn in H.
  repeat destruct H as [<-|H]; try contradiction;
    [exists 9|exists 10|exists 11|exists 12|exists 13|exists 14|exists 15]; split; reflexivity || lia.
Qed.

Lemma has_mask_pow2 : forall s k, 0 <= k -> has_mask s (2 ^ k) = Z.testbit s k.
Proof.
  intros s k Hk. unfold has_mask.
  destruct (Z.testbit s k) eqn:E.
  - apply negb_true_iff, Z.eqb_neq. intros H0.
    assert (Ht : Z.testbit (Z.land s (2 ^ k)) k = true)
      by (rewrite Z.land_spec, E, Z.pow2_bits_eqb, Z.eqb_refl by exact Hk; reflexivity).
    rewrite H0, Z.testbit_0_l in Ht. discriminate.
  - apply negb_false_iff, Z.eqb_eq. apply Z.bits_inj'. intros n Hn.
    rewrite Z.land_spec, Z.pow2_bits_eqb, Z.testbit_0_l by exact Hk.
    destruct (k =? n) eqn:En; [apply Z.eqb_eq in En; subst; rewrite E; reflexivity|].
    apply andb_false_r.
Qed.

Lemma set_mask_bits : forall s k b n, 0 <= k ->
  Z.testbit (set_mask s (2 ^ k) b) n = if n =? k then b else Z.testbit s n.
Proof.
  intros s k b n Hk. destruct (Z.lt_ge_cases n 0) as [Hn|Hn].
  - rewrite !Z.testbit_neg_r by exact Hn.
    replace (n =? k) with false by (symmetry; apply Z.eqb_neq; lia). reflexivity.
  - unfold set_mask. destruct b.
    + rewrite Z.lor_spec, Z.pow2_bits_eqb by exact Hk.
      destruct (n =? k) eqn:E; rewrite Z.eqb_sym, E; [apply orb_true_r|apply orb_false_r].
    + rewrite Z.land_spec, Z.lnot_spec, Z.pow2_bits_eqb by assumption.
      destruct (n =? k) eqn:E; rewrite Z.eqb_sym, E; [apply andb_false_r|apply andb_true_r].
Qed.

(** [SQLStates]: each flag setter followed by its query gives back the
    value set. *)
Theorem SQLStates_flag_roundtrip : forall s b,
  IsIgnoreWhen (IgnoreWhen s b) = b
  /\ IsIntoCondition (IntoCondition s b) = b
  /\ IsIntoExceptionBlock (IntoExceptionBlock s b) = b
  /\ IsIntoDeclareBlock (IntoDeclareBlock s b) = b
  /\ IsIntoMergeStatement (IntoMergeStatement s b) = b
  /\ IsCaseMergeWithoutWhenFound (CaseMergeWithoutWhenFound s b) = b
  /\ IsIntoSelectStatementOrAssignment (IntoSelectStatementOrAssignment s b) = b.
Proof.
  intros s b.
  assert (H : forall k, 0 <= k -> has_mask (set_mask s (2 ^ k) b) (2 ^ k) = b).
  { intros k Hk. rewrite has_mask_pow2, set_mask_bits, Z.eqb_refl by exact Hk. reflexivity. }
  split; [apply (H 15); lia|]. split; [apply (H 14); lia|]. split; [apply (H 13); lia|].
  split; [apply (H 12); lia|]. split; [apply (H 11); lia|]. split; [apply (H 10); lia|].
  apply (H 9); lia.
Qed.

(** [SQLStates]: setting one flag leaves every other flag and the [CASE]
    nesting count as they were, and keeps the state within 16 bits (the
    [unsigned short] the fold code stores it in). *)
Theorem SQLStates_flag_frame : forall M M' s b,
  In M flag_masks -> In M' flag_masks -> M <> M' -> 0 <= s < 65536 ->
  has_mask (set_mask s M b) M' = has_mask s M'
  /\ Z.land (set_mask s M b) MASK_NESTED_CASES = Z.land s MASK_NESTED_CASES
  /\ 0 <= set_mask s M b < 65536.
Proof.
  intros M M' s b HM HM' Hne Hs.
  destruct (flag_masks_pow2 M HM) as [k [Hk ->]].
  destruct (flag_masks_pow2 M' HM') as [k' [Hk' ->]].
  assert (Hkk : k <> k') by (intros ->; contradiction).
  split; [|split].
  - rewrite !has_mask_pow2, set_mask_bits by lia.
    replace (k' =? k) with false by (symmetry; apply Z.eqb_neq; lia). reflexivity.
  - apply Z.bits_inj'. intros n Hn. unfold MASK_NESTED_CASES.
    rewrite !Z.land_spec, set_mask_bits by lia.
    destruct (n =? k) eqn:E; [|reflexivity]. apply Z.eqb_eq in E. subst n.
    replace 511 with (Z.ones 9) by reflexivity.
    rewrite Z.ones_spec_high by lia. rewrite !andb_false_r. reflexivity.
  - assert (Hs16 : Z.land s (Z.ones 16) = s)
      by (rewrite Z.land_ones by lia; apply Z.mod_small; exact Hs).
    assert (Hr : Z.land (set_mask s (2 ^ k) b) (Z.ones 16) = set_mask s (2 ^ k) b).
    { apply Z.bits_inj'. intros n Hn. rewrite Z.land_spec.
      destruct (Z.lt_ge_cases n 16) as [Hl|Hh].
      - rewrite Z.ones_spec_low by lia. apply andb_true_r.
      - rewrite Z.ones_spec_high by lia. rewrite andb_false_r, set_mask_bits by lia.
        replace (n =? k) with false by (symmetry; apply Z.eqb_neq; lia).
        rewrite <- Hs16, Z.land_spec, Z.ones_spec_high by lia. symmetry. apply andb_false_r. }
    rewrite <- Hr, Z.land_ones by lia. apply Z.mod_pos_bound. lia.
Qed.

Lemma SQLStates_flag_frame_witness :
  has_mask (set_mask 4097 MASK_IGNORE_WHEN true) MASK_INTO_DECLARE = has_mask 4097 MASK_INTO_DECLARE
  /\ Z.land (set_mask 4097 MASK_IGNORE_WHEN true) MASK_NESTED_CASES
     = Z.land 4097 MASK_NESTED_CASES
  /\ 0 <= set_mask 4097 MASK_IGNORE_WHEN true < 65536.
Proof.
  assert (H1 : In MASK_IGNORE_WHEN flag_masks) by (vm_compute; tauto).
  assert (H2 : In MASK_INTO_DECLARE flag_masks) by (vm_compute; tauto).
  assert (H3 : MASK_IGNORE_WHEN <> MASK_INTO_DECLARE) by (vm_compute; discriminate).
  assert (H4 : 0 <= 4097 < 65536) by lia.
  exact (SQLStates_flag_frame MASK_IGNORE_WHEN MASK_INTO_DECLARE 4097 true H1 H2 H3 H4).
Defined.

Lemma nested_split : forall s, Z.land s MASK_NESTED_CASES = s mod 512 /\ Z.shiftr s 9 = s / 512.
Proof.
  intros s. unfold MASK_NESTED_CASES. split.
  - replace 511 with (Z.ones 9) by reflexivity. rewrite Z.land_ones by lia. reflexivity.
  - rewrite Z.shiftr_div_pow2 by lia. reflexivity.
Qed.

(** [BeginCaseBlock] raises the [CASE] nesting count by one, saturating at
    511; [EndCaseBlock] lowers it by one, stopping at 0; neither touches the
    flags above bit 8; after [BeginCaseBlock] the state is inside a [CASE]
    block, and [EndCaseBlock] undoes [BeginCaseBlock] below saturation. *)
Theorem case_block_nesting : forall s, 0 <= s ->
  Z.land (BeginCaseBlock s) MASK_NESTED_CASES = Z.min (Z.land s MASK_NESTED_CASES + 1) 511
  /\ Z.shiftr (BeginCaseBlock s) 9 = Z.shiftr s 9
  /\ Z.land (EndCaseBlock s) MASK_NESTED_CASES = Z.max (Z.land s MASK_NESTED_CASES - 1) 0
  /\ Z.shiftr (EndCaseBlock s) 9 = Z.shiftr s 9
  /\ IsIntoCaseBlock (BeginCaseBlock s) = true
  /\ (Z.land s MASK_NESTED_CASES < 511 -> EndCaseBlock (BeginCaseBlock s) = s).
Proof.
  intros s Hs.
  pose proof (Z.div_mod s 512 ltac:(lia)) as Hd. pose proof (Z.mod_pos_bound s 512 ltac:(lia)) as Hb.
  set (q := s / 512) in *. set (r := s mod 512) in *.
  assert (Hsplit : forall t q' r', t = 512 * q' + r' -> 0 <= r' < 512 ->
            Z.land t MASK_NESTED_CASES = r' /\ Z.shiftr t 9 = q').
  { intros t q' r' Ht Hr'. destruct (nested_split t) as [H1 H2]. rewrite H1, H2, Ht. split.
    - rewrite Z.add_comm, Z.mul_comm, Z.mod_add by lia. apply Z.mod_small. exact Hr'.
    - rewrite Z.add_comm, Z.mul_comm, Z.div_add by lia. rewrite Z.div_small by exact Hr'. lia. }
  destruct (Hsplit s q r Hd Hb) as [Hr Hq].
  unfold BeginCaseBlock, EndCaseBlock, IsIntoCaseBlock, has_mask. rewrite Hr.
  destruct (r <? MASK_NESTED_CASES) eqn:E1; destruct (0 <? r) eqn:E2;
    unfold MASK_NESTED_CASES in *;
    [apply Z.ltb_lt in E1; apply Z.ltb_lt in E2|apply Z.ltb_lt in E1; apply Z.ltb_ge in E2
    |apply Z.ltb_ge in E1; apply Z.ltb_lt in E2|apply Z.ltb_ge in E1; apply Z.ltb_ge in E2].
  - destruct (Hsplit (s + 1) q (r + 1)) as [H1 H2]; [lia|lia|].
    destruct (Hsplit (s - 1) q (r - 1)) as [H3 H4]; [lia|lia|].
    unfold MASK_NESTED_CASES in *. rewrite H1, H2, H3, H4, Hq.
    replace (0 <? r + 1) with true by (symmetry; apply Z.ltb_lt; lia).
    split; [lia|]. split; [reflexivity|]. split; [lia|]. split; [reflexivity|].
    split; [destruct (r + 1 =? 0) eqn:E; [apply Z.eqb_eq in E; lia|reflexivity]|].
    intros _. lia.
  - destruct (Hsplit (s + 1) q (r + 1)) as [H1 H2]; [lia|lia|].
    unfold MASK_NESTED_CASES in *. rewrite H1, H2, Hr, Hq.
    replace (0 <? r + 1) with true by (symmetry; apply Z.ltb_lt; lia).
    split; [lia|]. split; [reflexivity|]. split; [lia|]. split; [reflexivity|].
    split; [destruct (r + 1 =? 0) eqn:E; [apply Z.eqb_eq in E; lia|reflexivity]|].
    intros _. lia.
  - destruct (Hsplit (s - 1) q (r - 1)) as [H3 H4]; [lia|lia|].
    unfold MASK_NESTED_CASES in *. rewrite Hr, Hq, H3, H4.
    split; [lia|]. split; [reflexivity|]. split; [lia|]. split; [reflexivity|].
    split; [destruct (r =? 0) eqn:E; [apply Z.eqb_eq in E; lia|reflexivity]|].
    intros H. lia.
  - lia.
Qed.

Lemma case_block_nesting_witness :
  Z.land (BeginCaseBlock 1029) MASK_NESTED_CASES = Z.min (Z.land 1029 MASK_NESTED_CASES + 1) 511
  /\ Z.shiftr (BeginCaseBlock 1029) 9 = Z.shiftr 1029 9
  /\ Z.land (EndCaseBlock 1029) MASK_NESTED_CASES = Z.max (Z.land 1029 MASK_NESTED_CASES - 1) 0
  /\ Z.shiftr (EndCaseBlock 1029) 9 = Z.shiftr 1029 9
  /\ IsIntoCaseBlock (BeginCaseBlock 1029) = true
  /\ (Z.land 1029 MASK_NESTED_CASES < 511 -> EndCaseBlock (BeginCaseBlock 1029) = 1029).
Proof.
  assert (H : 0 <= 1029) by lia.
  exact (case_block_nesting 1029 H).
Defined.

(** [SQLStates::Set] then [SQLStates::ForLine] (when [Set] does store):
    reading back line [n] gives the state stored, lines [1..n-1] read as
    before, and line 0 and the lines past [n] read as 0, so the state
    stored for line 0 is never read back. *)
Theorem SQLStates_ForLine_Set : forall v n x m,
  0 <= n -> (v <> [] \/ x <> 0) ->
  SQLStates_ForLine (SQLStates_Set v n x) m
  = if (0 <? m) && (m <? n) then SQLStates_ForLine v m
    else if (0 <? m) && (m =? n) then x
    else 0.
Proof.
  intros v n x m Hn Hne. unfold SQLStates_Set.
  assert (Hc : ((c_not (Z.of_nat (List.length v)) =? 0) || (c_not x =? 0)) = true).
  { unfold c_not. destruct Hne as [Hv|Hx].
    - destruct v as [|a v]; [contradiction Hv; reflexivity|]. reflexivity.
    - destruct (x =? 0) eqn:E; [apply Z.eqb_eq in E; contradiction|]. apply orb_true_r. }
  rewrite Hc. cbv zeta.
  replace (Z.to_nat (n + 1)) with (S (Z.to_nat n)) by lia.
  destruct (set_nth_spec (resize v (S (Z.to_nat n)) 0) (Z.to_nat n) x)
    as [H1 [H2 H3]]; [rewrite length_resize; lia|].
  rewrite length_resize in H1.
  unfold SQLStates_ForLine at 1. rewrite H1.
  destruct (0 <? m) eqn:Em; cbn [andb]; [apply Z.ltb_lt in Em|reflexivity].
  destruct (m <? n) eqn:E1.
  - apply Z.ltb_lt in E1.
    replace (m <? Z.of_nat (S (Z.to_nat n))) with true by (symmetry; apply Z.ltb_lt; lia).
    rewrite H3 by lia. rewrite nth_resize by lia.
    unfold SQLStates_ForLine. rewrite (proj2 (Z.ltb_lt 0 m) Em). cbn [andb].
    destruct (m <? Z.of_nat (List.length v)) eqn:E2; [reflexivity|].
    apply Z.ltb_ge in E2. apply nth_overflow. lia.
  - apply Z.ltb_ge in E1. destruct (m =? n) eqn:E3.
    + apply Z.eqb_eq in E3. subst m.
      replace (n <? Z.of_nat (S (Z.to_nat n))) with true by (symmetry; apply Z.ltb_lt; lia).
      exact H2.
    + apply Z.eqb_neq in E3.
      replace (m <? Z.of_nat (S (Z.to_nat n))) with false by (symmetry; apply Z.ltb_ge; lia).
      reflexivity.
Qed.

Lemma SQLStates_ForLine_Set_witness :
  SQLStates_ForLine (SQLStates_Set [1; 2] 3 7) 3 = 7
  /\ SQLStates_ForLine (SQLStates_Set [1; 2] 3 7) 1 = 2
  /\ SQLStates_ForLine (SQLStates_Set [] 0 7) 0 = 0.
Proof.
  assert (H1 : 0 <= 3) by lia. assert (H2 : [1; 2] <> [] \/ 7 <> 0) by (left; discriminate).
  assert (G1 : 0 <= 0) by lia. assert (G2 : @nil Z <> [] \/ 7 <> 0) by (right; discriminate).
  split; [|split].
  - exact (SQLStates_ForLine_Set [1; 2] 3 7 3 H1 H2).
  - exact (SQLStates_ForLine_Set [1; 2] 3 7 1 H1 H2).
  - exact (SQLStates_ForLine_Set [] 0 7 0 G1 G2).
Defined.

(** *** [FoldSqlDoc] writes only the lines it walks *)

Section FoldFrame.
Variables chAt safeChAt StyleAt GetLine : Z -> Z.
Variable IsCommentLine : Z -> bool.
Variables foldOnlyBegin foldComment foldAtElse foldCompact : bool.

Lemma fold_step_frame : forall endPos i v,
  (lineCurrent (fold_step chAt safeChAt StyleAt IsCommentLine foldOnlyBegin foldComment
                  foldAtElse foldCompact endPos i v) = lineCurrent v
   /\ levels (fold_step chAt safeChAt StyleAt IsCommentLine foldOnlyBegin foldComment
                foldAtElse foldCompact endPos i v) = levels v)
  \/ (lineCurrent (fold_step chAt safeChAt StyleAt IsCommentLine foldOnlyBegin foldComment
                     foldAtElse foldCompact endPos i v) = lineCurrent v + 1
      /\ forall l, l <> lineCurrent v ->
         rd (levels (fold_step chAt safeChAt StyleAt IsCommentLine foldOnlyBegin foldComment
                       foldAtElse foldCompact endPos i v)) l = rd (levels v) l).
Proof.
  intros endPos i v. unfold fold_step.
  repeat match goal with
  | |- context [match ?t with pair _ _ => _ end] => destruct t
  end.
  match goal with |- context [if ?c then mkFV (lineCurrent v + 1) _ _ _ _ _ _ _ _ _ _ _ _ _ else _] =>
    destruct c end.
  - right. cbn [lineCurrent levels]. split; [reflexivity|].
    intros l Hl. destruct (negb (_ =? rd (levels v) (lineCurrent v))); [|reflexivity].
    unfold rd, wr. apply Z.eqb_neq in Hl. rewrite Hl. reflexivity.
  - left. split; reflexivity.
Qed.

Lemma fold_loop_frame : forall B L0 k endPos i v,
  L0 <= lineCurrent v -> (forall l, l < L0 \/ lineCurrent v <= l -> rd (levels v) l = rd B l) ->
  let v' := fold_loop chAt safeChAt StyleAt IsCommentLine foldOnlyBegin foldComment
              foldAtElse foldCompact k endPos i v in
  lineCurrent v <= lineCurrent v' <= lineCurrent v + Z.of_nat k
  /\ (forall l, l < L0 \/ lineCurrent v' <= l -> rd (levels v') l = rd B l).
Proof.
  intros B L0 k. induction k as [|k IH]; intros endPos i v H0 Hf v'.
  - split; [cbn; lia|exact Hf].
  - cbn [fold_loop] in v'.
    set (v1 := fold_step chAt safeChAt StyleAt IsCommentLine foldOnlyBegin foldComment
                 foldAtElse foldCompact endPos i v) in v'.
    assert (Hv1 : L0 <= lineCurrent v1 /\ lineCurrent v <= lineCurrent v1 <= lineCurrent v + 1
                  /\ (forall l, l < L0 \/ lineCurrent v1 <= l -> rd (levels v1) l = rd B l)).
    { destruct (fold_step_frame endPos i v) as [[Hl Hlv]|[Hl Hlv]]; fold v1 in Hl, Hlv.
      - rewrite Hl, Hlv. split; [lia|]. split; [lia|exact Hf].
      - rewrite Hl. split; [lia|]. split; [lia|].
        intros l Hl'. rewrite Hlv by lia. apply Hf. lia. }
    destruct Hv1 as [Ha [Hb Hc]].
    destruct (IH endPos (i + 1) v1 Ha Hc) as [Hd He]. fold v' in Hd, He.
    split; [lia|exact He].
Qed.
End FoldFrame.

(** [FoldSqlDoc] over [length >= 0] bytes from [startPos]: the current
    line ends between the start line and [length] lines past it, and the
    fold level of every line before the start line or at or after the final
    current line is left as it was. *)
Theorem FoldSqlDoc_frame : forall chAt safeChAt StyleAt GetLine IsCommentLine
  foldOnlyBegin foldComment foldAtElse foldCompact fold startPos length initStyle levels0,
  0 <= length ->
  let v := FoldSqlDoc chAt safeChAt StyleAt GetLine IsCommentLine foldOnlyBegin foldComment
             foldAtElse foldCompact fold startPos length initStyle levels0 in
  GetLine startPos <= lineCurrent v <= GetLine startPos + length
  /\ (forall l, l < GetLine startPos \/ lineCurrent v <= l -> rd (levels v) l = rd levels0 l).
Proof.
  intros chAt safeChAt StyleAt GetLine IsCommentLine fob fc fae fcp fold startPos length
    initStyle levels0 Hl v.
  unfold FoldSqlDoc in v. destruct (fold =? 0).
  - subst v. cbn [lineCurrent levels]. split; [lia|reflexivity].
  - subst v.
    match goal with |- context [fold_loop _ _ _ _ _ _ _ _ _ _ _ ?v0] => set (w0 := v0) end.
    destruct (fold_loop_frame chAt safeChAt StyleAt IsCommentLine fob fc fae fcp levels0
                (GetLine startPos) (Z.to_nat length) (startPos + length) startPos w0)
      as [H1 H2]; [cbn; lia|intros l _; reflexivity|].
    cbn [lineCurrent w0] in H1. rewrite Z2Nat.id in H1 by exact Hl.
    split; [exact H1|exact H2].
Qed.

Lemma FoldSqlDoc_frame_witness :
  let d := bytes "case x;\nelse y;" in
  let v := FoldSqlDoc (mem_at d) (doc_safe d) (doc_styles d keywords_else) (doc_line d)
             (fun _ => false) false false true false 1 0 (doc_len d) 0 zeros in
  doc_line d 0 <= lineCurrent v <= doc_line d 0 + doc_len d
  /\ (forall l, l < doc_line d 0 \/ lineCurrent v <= l -> rd (levels v) l = rd zeros l).
Proof.
  intros d.
  assert (H : 0 <= doc_len d) by (apply Z.leb_le; vm_compute; reflexivity).
  exact (FoldSqlDoc_frame (mem_at d) (doc_safe d) (doc_styles d keywords_else) (doc_line d)
           (fun _ => false) false false true false 1 0 (doc_len d) 0 zeros H).
Defined.

End SQLExtra.
